(** * Paladeum chain state machine: a shallow embedding of [validation.cpp]
    and [pow.cpp]

    The development embeds the parts of the validation engine that the
    specification's testable properties talk about: proof-of-work checking,
    the block subsidy and the reward checks of [ConnectBlock], the coin view
    with its undo records ([UpdateCoins], [ApplyTxInUndo], [DisconnectBlock]),
    the front of the mempool accept path ([AcceptToMemoryPoolWorker]), the
    reorg replay ([DisconnectTip], [UpdateMempoolForReorg]) and the block
    index with its candidate set ([AddToBlockIndex],
    [ReceivedBlockTransactions], [FindMostWorkChain],
    [PruneBlockIndexCandidates], [AcceptBlockHeader]).

    Conventions.
    - [CAmount] (int64), heights, times and counters are [Z]; uint256 values
      ([uint256], [arith_uint256]) are [Z] as well.  Amount sums are kept in
      money range by [Consensus::CheckTxInputs], so no wrap-around occurs in
      the additions modelled here.
    - Pointers to block index entries are handles ([positive]); comparing
      pointers is comparing handles.
    - Functions of other translation units (script predicates, signature and
      kernel checks, disk access, the token cache) are fields of an
      environment record: every theorem holds for all environments.
    - A C++ function that returns [false] after [state.DoS(...)] returns
      [Reject]; one that returns [error(...)] without touching the state
      returns [Error]; [AbortNode] is [Abort]; a violated [assert], an
      uncaught exception or an out-of-range vector access is [Crash]. *)

From Stdlib Require Import ZArith List Bool Lia SpecFloat.
From stdpp Require Import gmap strings list fin_maps sorting.

Local Open Scope string_scope.
Local Open Scope list_scope.
Local Open Scope Z_scope.

(* ===================================================================== *)
(** * Part I: definitions *)
(* ===================================================================== *)

(** ** Validation results *)

(** Reject codes of [consensus/validation.h] used in this file;
    [REJECT_ZERO] is the literal [0] that [AcceptBlockHeader] passes. *)
Inductive RejectCode :=
| REJECT_ZERO
| REJECT_INVALID
| REJECT_NONSTANDARD
| REJECT_DUPLICATE
| REJECT_INSUFFICIENTFEE
| REJECT_CHECKPOINT.

#[global] Instance RejectCode_eq_dec : EqDecision RejectCode.
Proof. solve_decision. Defined.

Inductive Result (A : Type) :=
| Ok (a : A)
| Reject (nDoS : Z) (code : RejectCode) (reason : string)
| Error (what : string)
| Abort (msg : string)
| Crash (what : string).

Arguments Ok {A} a.
Arguments Reject {A} nDoS code reason.
Arguments Error {A} what.
Arguments Abort {A} msg.
Arguments Crash {A} what.

Definition bind {A B : Type} (r : Result A) (k : A -> Result B) : Result B :=
  match r with
  | Ok a => k a
  | Reject d c s => Reject d c s
  | Error w => Error w
  | Abort m => Abort m
  | Crash w => Crash w
  end.

#[global] Instance Result_ret : MRet Result := fun A a => Ok a.
#[global] Instance Result_bind : MBind Result := fun A B k r => bind r k.

(** [if (cond) return state.DoS(level, ..., code, reason);] *)
Definition reject_if (cond : bool) (nDoS : Z) (code : RejectCode)
  (reason : string) : Result unit :=
  if cond then Reject nDoS code reason else Ok tt.

(** [assert(cond);] *)
Definition assert (cond : bool) (what : string) : Result unit :=
  if cond then Ok tt else Crash what.

Definition is_ok {A : Type} (r : Result A) : bool :=
  match r with Ok _ => true | _ => false end.

(** ** Proof of work ([pow.cpp]) *)

(** What [arith_uint256::SetCompact(nBits, &fNegative, &fOverflow)] leaves
    behind: the decoded target and the two flags. *)
Record CompactTarget := {
  bnTarget : Z;
  fNegative : bool;
  fOverflow : bool }.

(** [CheckProofOfWork(hash, nBits, params)].  [SetCompact] belongs to
    [arith_uint256.cpp]; [hash] is [UintToArith256(hash)] and [powLimit] is
    [UintToArith256(params.powLimit)]. *)
Definition CheckProofOfWork (SetCompact : Z -> CompactTarget)
  (hash nBits powLimit : Z) : bool :=
  let d := SetCompact nBits in
  (* Check range *)
  if fNegative d || (bnTarget d =? 0) || fOverflow d || (bnTarget d >? powLimit)
  then false
  (* Check proof of work matches claimed amount *)
  else if hash >? bnTarget d then false
  else true.

(** The usual compact encoding of a 256-bit target (sign bit [0x00800000],
    23-bit mantissa, base-256 exponent in the top byte), to run the check on
    concrete headers. *)
Definition SetCompact_std (nCompact : Z) : CompactTarget :=
  let nSize := Z.shiftr nCompact 24 in
  let nWord := Z.land nCompact 8388607 in
  let target :=
    if nSize <=? 3 then Z.shiftr nWord (8 * (3 - nSize))
    else Z.land (Z.shiftl nWord (8 * (nSize - 3))) (2 ^ 256 - 1) in
  {| bnTarget := target;
     fNegative := negb (nWord =? 0) && negb (Z.land nCompact 8388608 =? 0);
     fOverflow := negb (nWord =? 0) &&
                  ((nSize >? 34) || ((nWord >? 255) && (nSize >? 33))
                   || ((nWord >? 65535) && (nSize >? 32))) |}.

(** ** Amounts and the block subsidy *)

(** [GetBlockSubsidy(nHeight, consensusParams)]; [COIN] is the constant of
    [amount.h]. *)
Definition GetBlockSubsidy (COIN : Z) (nHeight : Z) : Z :=
  if nHeight =? 1 then 1000000000 * COIN
  else 10 * COIN.

(** *** Double precision arithmetic of the offline staking check

    [CAmount nSubsidyOffline = blockReward * 0.9;] converts the int64 to a
    binary64 double (round to nearest even), multiplies by the double
    nearest to the literal, and converts back to int64 by truncation. *)

Definition double_of_int64 (x : Z) : spec_float :=
  binary_normalize 53 1024 x 0 false.

Definition double_mul (x y : spec_float) : spec_float := SFmul 53 1024 x y.

(** The literals [0.9] = 0x3FECCCCCCCCCCCCD and [0.1] = 0x3FB999999999999A. *)
Definition double_0_9 : spec_float := S754_finite false 8106479329266893 (-53).
Definition double_0_1 : spec_float := S754_finite false 7205759403792794 (-56).

(** Conversion of a finite double to an integer type truncates toward
    zero. *)
Definition int64_of_double (f : spec_float) : Z :=
  match f with
  | S754_finite s m e =>
      let a := if 0 <=? e then Z.shiftl (Zpos m) e
               else Z.shiftr (Zpos m) (- e) in
      if s then - a else a
  | _ => 0
  end.

Definition nSubsidyOffline_of (blockReward : Z) : Z :=
  int64_of_double (double_mul (double_of_int64 blockReward) double_0_9).

Definition nSubsidyStaker_of (blockReward : Z) : Z :=
  int64_of_double (double_mul (double_of_int64 blockReward) double_0_1).

(** ** Transactions, blocks and coins *)

Definition uint256 := Z.
Definition CAmount := Z.
Definition CScript := list Z.

Record COutPoint := { op_hash : uint256; op_n : Z }.

#[global] Instance COutPoint_eq_dec : EqDecision COutPoint.
Proof. solve_decision. Defined.

#[global] Instance COutPoint_countable : Countable COutPoint :=
  inj_countable' (fun o => (op_hash o, op_n o))
                 (fun p => {| op_hash := fst p; op_n := snd p |})
                 (fun o => match o with Build_COutPoint _ _ => eq_refl end).

Record CTxOut := { nValue : CAmount; scriptPubKey : CScript }.

#[global] Instance CTxOut_eq_dec : EqDecision CTxOut.
Proof. solve_decision. Defined.

Record CTxIn := { prevout : COutPoint }.

(** A transaction with the results of its methods [GetHash], [IsCoinBase]
    and [IsCoinStake] (defined in [primitives/transaction.h]). *)
Record CTransaction := {
  tx_hash : uint256;
  tx_nVersion : Z;
  tx_nTime : Z;
  vin : list CTxIn;
  vout : list CTxOut;
  IsCoinBase : bool;
  IsCoinStake : bool }.

(** [CTransaction::GetValueOut]: the sum of the output values. *)
Definition GetValueOut (tx : CTransaction) : CAmount :=
  foldr (fun o acc => nValue o + acc) 0 (vout tx).

(** A block with the results of [GetIndexHash], [IsProofOfStake] and
    [IsProofOfWork] (defined in [primitives/block.h]). *)
Record CBlock := {
  blk_hash : uint256;
  blk_nBits : Z;
  blk_nTime : Z;
  vtx : list CTransaction;
  IsProofOfStake : bool;
  IsProofOfWork : bool }.

(** [Coin]: an unspent output with its provenance. *)
Record Coin := {
  out : CTxOut;
  coin_nHeight : Z;
  fCoinBase : bool;
  fCoinStake : bool;
  coin_nTime : Z }.

#[global] Instance Coin_eq_dec : EqDecision Coin.
Proof. solve_decision. Defined.

(** [CTxUndo::vprevout] and [CBlockUndo::vtxundo]. *)
Definition CTxUndo := list Coin.
Definition CBlockUndo := list CTxUndo.

(** ** The coin view *)

(** Modelled from the spec: [CCoinsViewCache] of [coins.h]/[coins.cpp],
    which is not part of the sources at hand.  Section 4.2 of the
    specification describes a layer of the coin view by its operations [get],
    [spend], [add] and the best-block marker; a spent coin is absent from the
    map. *)
Record CCoinsViewCache := {
  cacheCoins : gmap COutPoint Coin;
  hashBlock : uint256 }.

Definition AccessCoin (view : CCoinsViewCache) (o : COutPoint) : option Coin :=
  cacheCoins view !! o.

Definition HaveCoin (view : CCoinsViewCache) (o : COutPoint) : bool :=
  bool_decide (is_Some (cacheCoins view !! o)).

Definition GetBestBlock (view : CCoinsViewCache) : uint256 := hashBlock view.

Definition SetBestBlock (view : CCoinsViewCache) (h : uint256) : CCoinsViewCache :=
  {| cacheCoins := cacheCoins view; hashBlock := h |}.

(** Modelled from the spec: [spend(outpoint, out undo)] marks the coin as
    spent and writes the previous value to [undo]; it fails ([None]) on a
    missing input. *)
Definition SpendCoin (view : CCoinsViewCache) (o : COutPoint)
  : option (CCoinsViewCache * Coin) :=
  match cacheCoins view !! o with
  | Some c => Some ({| cacheCoins := delete o (cacheCoins view);
                       hashBlock := hashBlock view |}, c)
  | None => None
  end.

(** Modelled from the spec: [add(outpoint, coin, allow_overwrite)] inserts a
    coin; [allow_overwrite = false] is an invariant asserted when the
    outpoint is known absent.  Unspendable outputs are never stored
    ([DisconnectBlock] skips them when it removes a block's outputs). *)
Definition AddCoin (unspendable : CScript -> bool) (view : CCoinsViewCache)
  (o : COutPoint) (c : Coin) (possible_overwrite : bool)
  : Result CCoinsViewCache :=
  if unspendable (scriptPubKey (out c)) then Ok view
  else if negb possible_overwrite && HaveCoin view o
  then Crash "Adding new coin that replaces non-pruned entry"
  else Ok {| cacheCoins := <[o := c]> (cacheCoins view);
             hashBlock := hashBlock view |}.

(** [CCoinsViewCache::GetValueIn]: the sum of the values of the coins a
    transaction spends (zero for a coinbase). *)
Definition GetValueIn (view : CCoinsViewCache) (tx : CTransaction) : CAmount :=
  if IsCoinBase tx then 0
  else foldr (fun i acc =>
                match AccessCoin view (prevout i) with
                | Some c => nValue (out c) + acc
                | None => acc
                end) 0 (vin tx).

(** ** Block index entries *)

(** The validity levels of [enum BlockStatus] ([chain.h]). *)
Inductive BlockValidity :=
| BLOCK_VALID_UNKNOWN
| BLOCK_VALID_HEADER
| BLOCK_VALID_TREE
| BLOCK_VALID_TRANSACTIONS
| BLOCK_VALID_CHAIN
| BLOCK_VALID_SCRIPTS.

Definition validity_rank (v : BlockValidity) : Z :=
  match v with
  | BLOCK_VALID_UNKNOWN => 0
  | BLOCK_VALID_HEADER => 1
  | BLOCK_VALID_TREE => 2
  | BLOCK_VALID_TRANSACTIONS => 3
  | BLOCK_VALID_CHAIN => 4
  | BLOCK_VALID_SCRIPTS => 5
  end.

(** [nStatus]: the validity level held in [BLOCK_VALID_MASK] and one field
    per flag bit, so that [nStatus |= BLOCK_FAILED_CHILD] sets [FAILED_CHILD]
    and [nStatus & BLOCK_FAILED_MASK] reads [FAILED_VALID || FAILED_CHILD]. *)
Record BlockStatus := {
  VALID_LEVEL : BlockValidity;
  HAVE_DATA : bool;
  HAVE_UNDO : bool;
  FAILED_VALID : bool;
  FAILED_CHILD : bool;
  OPT_WITNESS : bool }.

Definition FAILED_MASK (s : BlockStatus) : bool := FAILED_VALID s || FAILED_CHILD s.

Definition BlockHandle := positive.

Record CBlockIndex := {
  phashBlock : option uint256;
  pprev : option BlockHandle;
  nHeight : Z;
  nChainWork : Z;
  nTx : Z;
  nChainTx : Z;
  nStatus : BlockStatus;
  nSequenceId : Z;
  nTime : Z;
  nTimeMax : Z;
  nFile : Z;
  nDataPos : Z;
  nUndoPos : Z;
  fProofOfStake : bool;
  nStakeModifier : Z }.

Definition set_nStatus (b : CBlockIndex) (s : BlockStatus) : CBlockIndex :=
  {| phashBlock := phashBlock b; pprev := pprev b; nHeight := nHeight b;
     nChainWork := nChainWork b; nTx := nTx b; nChainTx := nChainTx b;
     nStatus := s; nSequenceId := nSequenceId b; nTime := nTime b;
     nTimeMax := nTimeMax b; nFile := nFile b; nDataPos := nDataPos b;
     nUndoPos := nUndoPos b; fProofOfStake := fProofOfStake b;
     nStakeModifier := nStakeModifier b |}.

(** [CBlockIndex::IsValid(nUpTo)]. *)
Definition IsValid (b : CBlockIndex) (nUpTo : BlockValidity) : bool :=
  if FAILED_MASK (nStatus b) then false
  else validity_rank nUpTo <=? validity_rank (VALID_LEVEL (nStatus b)).

(** [CBlockIndex::RaiseValidity(nUpTo)]: no change on a failed entry or when
    the level is already reached. *)
Definition RaiseValidity (b : CBlockIndex) (nUpTo : BlockValidity) : CBlockIndex :=
  if FAILED_MASK (nStatus b) then b
  else if validity_rank (VALID_LEVEL (nStatus b)) <? validity_rank nUpTo
  then set_nStatus b {| VALID_LEVEL := nUpTo;
                        HAVE_DATA := HAVE_DATA (nStatus b);
                        HAVE_UNDO := HAVE_UNDO (nStatus b);
                        FAILED_VALID := FAILED_VALID (nStatus b);
                        FAILED_CHILD := FAILED_CHILD (nStatus b);
                        OPT_WITNESS := OPT_WITNESS (nStatus b) |}
  else b.

Definition GetIndexHash (b : CBlockIndex) : uint256 := default 0 (phashBlock b).

(** [GetUndoPos().IsNull()]: the undo position is null unless
    [BLOCK_HAVE_UNDO] is set. *)
Definition GetUndoPos_IsNull (b : CBlockIndex) : bool := negb (HAVE_UNDO (nStatus b)).

(** ** The environment of block connection *)

(** What [CheckBlock] reports to [ConnectBlock]: success, a failure with
    [state.CorruptionPossible()], or another rejection. *)
Inductive BlockCheck :=
| BlockValid
| BlockCorrupt
| BlockInvalid (nDoS : Z) (code : RejectCode) (reason : string).

(** Consensus parameters, script predicates, the checks of other
    translation units, disk writes and the token cache, as [ConnectBlock]
    and [DisconnectBlock] use them.

    The token cache ([CTokensCache], [tokens/tokens.cpp]) is kept abstract:
    [tok_SpendCoin] and [tok_AddCoins] are what [SpendCoin] and [AddCoins] do
    to the token cache they are handed; [UndoTokenCoin] is the method of that
    name; [tok_DisconnectTx] stands for the removals that [DisconnectBlock]
    performs for one transaction ([RemoveNewToken], [RemoveOwnerToken],
    [RemoveReissueToken], [RemoveTransfer], [RemoveQualifierAddress],
    [RemoveRestrictedAddress], [RemoveGlobalRestricted],
    [RemoveRestrictedVerifier]), [None] when one of them fails. *)
Record Env := {
  COIN : CAmount;
  hashGenesisBlock : uint256;
  nTxMessages : Z;
  COINSTAKE_MATURITY : Z;
  MAX_BLOCK_SIGOPS_COST : Z;
  fCheckpointsEnabled : bool;
  IsUnspendable : CScript -> bool;
  IsOfflineStaking : CScript -> bool;
  IsTokenScript : CScript -> bool;
  IsNullToken : CScript -> bool;
  CheckHardened : Z -> uint256 -> bool;
  CheckBlock : CBlock -> bool -> BlockCheck;
  GetNextTargetRequired : option CBlockIndex -> CBlock -> Z;
  ComputeStakeModifier : option CBlockIndex -> uint256 -> Z;
  GetTransaction : uint256 -> bool;
  CheckStakeKernelHash : option CBlockIndex -> CBlock -> Coin -> COutPoint -> bool;
  CheckTxInputs : CTransaction -> CCoinsViewCache -> Z -> Result CAmount;
  GetTransactionSigOpCost : CTransaction -> CCoinsViewCache -> Z;
  CheckInputs : CTransaction -> CCoinsViewCache -> Result unit;
  AccessByTxid : CCoinsViewCache -> uint256 -> option Coin;
  FindUndoPos : CBlockIndex -> CBlockUndo -> option Z;
  UndoWriteToDisk : CBlockUndo -> bool;
  WriteIndexes : CBlock -> bool;
  EraseIndexes : CBlock -> bool;
  TokenState : Type;
  TokenUndo : Type;
  AreTokensDeployed : bool;
  coin_IsToken : Coin -> bool;
  CheckTxTokens : CTransaction -> CCoinsViewCache -> TokenState -> Result unit;
  tok_SpendCoin : TokenState -> COutPoint -> Coin -> TokenState;
  tok_AddCoins : TokenState -> CTransaction -> Z -> TokenState * option TokenUndo;
  UndoTokenCoin : TokenState -> Coin -> COutPoint -> bool * TokenState;
  tok_DisconnectTx : TokenState -> CTransaction -> list TokenUndo -> option TokenState;
  WriteBlockUndoTokenData : list TokenUndo -> bool }.

(** ** [UpdateCoins] *)

(** The loop of [UpdateCoins] over [tx.vin]: each input is spent into a new
    slot of [txundo.vprevout]; [assert(is_spent)]. *)
Fixpoint spend_inputs (env : Env) (ins : list CTxIn) (view : CCoinsViewCache)
  (tokens : TokenState env) (txundo : CTxUndo)
  : Result (CCoinsViewCache * TokenState env * CTxUndo) :=
  match ins with
  | [] => Ok (view, tokens, txundo)
  | txin :: rest =>
      match SpendCoin view (prevout txin) with
      | Some (view', c) =>
          spend_inputs env rest view'
            (tok_SpendCoin env tokens (prevout txin) c) (txundo ++ [c])
      | None => Crash "assert(is_spent)"
      end
  end.

(** Modelled from the spec: the coin part of [AddCoins] of [coins.cpp]: one
    [add] per output, at the outpoints [(txid, 0)], [(txid, 1)], ...; with
    [check = false] only a coinbase may overwrite. *)
Fixpoint add_outputs (env : Env) (tx : CTransaction) (height : Z) (check : bool)
  (i : Z) (outs : list CTxOut) (view : CCoinsViewCache) : Result CCoinsViewCache :=
  match outs with
  | [] => Ok view
  | o :: rest =>
      let op := {| op_hash := tx_hash tx; op_n := i |} in
      let overwrite := if check then HaveCoin view op else IsCoinBase tx in
      view' ← AddCoin (IsUnspendable env) view op
                {| out := o; coin_nHeight := height; fCoinBase := IsCoinBase tx;
                   fCoinStake := IsCoinStake tx; coin_nTime := tx_nTime tx |}
                overwrite;
      add_outputs env tx height check (i + 1) rest view'
  end.

Definition AddCoins (env : Env) (view : CCoinsViewCache) (tokens : TokenState env)
  (tx : CTransaction) (height : Z) (check : bool)
  : Result (CCoinsViewCache * TokenState env * option (TokenUndo env)) :=
  view' ← add_outputs env tx height check 0 (vout tx) view;
  let '(tokens', u) := tok_AddCoins env tokens tx height in
  Ok (view', tokens', u).

Definition UpdateCoins (env : Env) (tx : CTransaction) (view : CCoinsViewCache)
  (tokens : TokenState env) (height : Z)
  : Result (CCoinsViewCache * TokenState env * CTxUndo * option (TokenUndo env)) :=
  (* mark inputs spent *)
  '(view1, tokens1, txundo) ←
     (if IsCoinBase tx then Ok (view, tokens, [])
      else spend_inputs env (vin tx) view tokens []);
  (* add outputs *)
  '(view2, tokens2, u) ← AddCoins env view1 tokens1 tx height false;
  Ok (view2, tokens2, txundo, u).

(** ** [ConnectBlock] *)

(** The offline staking accumulators of [ConnectBlock]. *)
Record OfflineStake := {
  nRewardOffline : CAmount;
  nRewardStaker : CAmount;
  fCheckOffline : bool }.

(** [for (i = 1; i < vtx[1]->vout.size(); i++)]: outputs paying the script of
    the kernel coin add to [nRewardOffline], the others to [nRewardStaker]. *)
Fixpoint offline_split (script : CScript) (outs : list CTxOut)
  (acc : CAmount * CAmount) : CAmount * CAmount :=
  match outs with
  | [] => acc
  | o :: rest =>
      offline_split script rest
        (if bool_decide (scriptPubKey o = script)
         then (fst acc + nValue o, snd acc)
         else (fst acc, snd acc + nValue o))
  end.

(** The proof-of-stake checks at the head of [ConnectBlock]. *)
Definition ConnectBlock_stake (env : Env) (block : CBlock) (pindex : CBlockIndex)
  (pprev : option CBlockIndex) (view : CCoinsViewCache) : Result OfflineStake :=
  if IsProofOfStake block then
    match vtx block !! 1%nat with
    | None => Crash "block.vtx[1]"
    | Some coinstake =>
      match vin coinstake !! 0%nat with
      | None => Crash "block.vtx[1]->vin[0]"
      | Some txin =>
        match AccessCoin view (prevout txin) with
        | None => Reject 100 REJECT_INVALID "bad-cs-kernel"
        | Some coin =>
          (* Check proof-of-stake min confirmations *)
          reject_if (nHeight pindex - coin_nHeight coin <? COINSTAKE_MATURITY env)
            100 REJECT_INVALID "bad-cs-premature";;
          reject_if (negb (GetTransaction env (op_hash (prevout txin))))
            100 REJECT_INVALID "read-txprev-failed";;
          reject_if (negb (CheckStakeKernelHash env pprev block coin (prevout txin)))
            100 REJECT_INVALID "bad-cs-proofhash";;
          if IsOfflineStaking env (scriptPubKey (out coin)) then
            let '(off, staker) :=
              offline_split (scriptPubKey (out coin)) (drop 1 (vout coinstake))
                (- nValue (out coin), 0) in
            Ok {| nRewardOffline := off; nRewardStaker := staker;
                  fCheckOffline := true |}
          else Ok {| nRewardOffline := 0; nRewardStaker := 0;
                     fCheckOffline := false |}
        end
      end
    end
  else Ok {| nRewardOffline := 0; nRewardStaker := 0; fCheckOffline := false |}.

(** The state threaded through the transaction loop. *)
Record ConnectAcc (env : Env) := {
  a_view : CCoinsViewCache;
  a_tokens : TokenState env;
  a_nFees : CAmount;
  a_nSigOpsCost : Z;
  a_nActualStakeReward : CAmount;
  a_blockundo : CBlockUndo;
  a_vUndoTokenData : list (TokenUndo env) }.

Arguments a_view {env} _.
Arguments a_tokens {env} _.
Arguments a_nFees {env} _.
Arguments a_nSigOpsCost {env} _.
Arguments a_nActualStakeReward {env} _.
Arguments a_blockundo {env} _.
Arguments a_vUndoTokenData {env} _.

(** [for (auto out : tx.vout)] with tokens not deployed. *)
Fixpoint tokens_not_active (env : Env) (outs : list CTxOut) : Result unit :=
  match outs with
  | [] => Ok tt
  | o :: rest =>
      if IsTokenScript env (scriptPubKey o)
      then Reject 100 REJECT_INVALID "bad-txns-tokens-not-active"
      else if IsNullToken env (scriptPubKey o)
      then Reject 100 REJECT_INVALID "bad-txns-null-data-tokens-not-active"
      else tokens_not_active env rest
  end.

(** The body of the loop over [block.vtx], for the transaction at index
    [i].  The address, spent and timestamp index entries and the governance
    opcodes that the loop also collects go to stores of their own (block
    tree database, governance database) and are not part of this state. *)
Definition ConnectBlock_tx (env : Env) (pindex : CBlockIndex) (i : nat)
  (tx : CTransaction) (acc : ConnectAcc env) : Result (ConnectAcc env) :=
  (* Check TX version here *)
  reject_if ((nHeight pindex <? nTxMessages env) && (tx_nVersion tx >? 1))
    100 REJECT_INVALID "bad-transaction-v2-not-active";;
  nFees' ←
    (if IsCoinBase tx then Ok (a_nFees acc)
     else
       txfee ← CheckTxInputs env tx (a_view acc) (nHeight pindex);
       (if AreTokensDeployed env
        then CheckTxTokens env tx (a_view acc) (a_tokens acc)
        else tokens_not_active env (vout tx));;
       Ok (a_nFees acc + txfee));
  let nSigOpsCost' := a_nSigOpsCost acc + GetTransactionSigOpCost env tx (a_view acc) in
  reject_if (nSigOpsCost' >? MAX_BLOCK_SIGOPS_COST env)
    100 REJECT_INVALID "bad-blk-sigops";;
  let nActualStakeReward' :=
    if IsCoinStake tx then GetValueOut tx - GetValueIn (a_view acc) tx
    else a_nActualStakeReward acc in
  (if IsCoinBase tx then Ok tt else CheckInputs env tx (a_view acc));;
  '(view', tokens', txundo, undoTokenData) ←
     UpdateCoins env tx (a_view acc) (a_tokens acc) (nHeight pindex);
  Ok {| a_view := view';
        a_tokens := tokens';
        a_nFees := nFees';
        a_nSigOpsCost := nSigOpsCost';
        a_nActualStakeReward := nActualStakeReward';
        a_blockundo := if bool_decide (i = 0%nat) then a_blockundo acc
                       else a_blockundo acc ++ [txundo];
        a_vUndoTokenData := match undoTokenData with
                            | Some u => a_vUndoTokenData acc ++ [u]
                            | None => a_vUndoTokenData acc
                            end |}.

(** [for (unsigned int i = 0; i < block.vtx.size(); i++)]. *)
Fixpoint ConnectBlock_loop (env : Env) (pindex : CBlockIndex) (i : nat)
  (txs : list CTransaction) (acc : ConnectAcc env) : Result (ConnectAcc env) :=
  match txs with
  | [] => Ok acc
  | tx :: rest =>
      acc' ← ConnectBlock_tx env pindex i tx acc;
      ConnectBlock_loop env pindex (S i) rest acc'
  end.

(** The reward checks that follow the loop. *)
Definition ConnectBlock_rewards (env : Env) (block : CBlock) (pindex : CBlockIndex)
  (off : OfflineStake) (nFees nActualStakeReward : CAmount) : Result unit :=
  let blockReward := nFees + GetBlockSubsidy (COIN env) (nHeight pindex) in
  (if IsProofOfWork block then
     match vtx block !! 0%nat with
     | None => Crash "block.vtx[0]"
     | Some coinbase =>
         reject_if (GetValueOut coinbase >? blockReward)
           100 REJECT_INVALID "bad-cb-amount"
     end
   else Ok tt);;
  (if IsProofOfStake block then
     reject_if (nActualStakeReward >? blockReward)
       100 REJECT_INVALID "bad-cs-amount"
   else Ok tt);;
  (* Check offline stake rewards *)
  if fCheckOffline off then
    let nSubsidyOffline := nSubsidyOffline_of blockReward in
    let nSubsidyStaker := nSubsidyStaker_of blockReward in
    reject_if (nRewardOffline off <? nSubsidyOffline)
      100 REJECT_INVALID "bad-offline-stake";;
    reject_if (nRewardStaker off >? nSubsidyStaker)
      100 REJECT_INVALID "bad-offline-stake-greed"
  else Ok tt.

Definition set_nStakeModifier (b : CBlockIndex) (m : Z) : CBlockIndex :=
  {| phashBlock := phashBlock b; pprev := pprev b; nHeight := nHeight b;
     nChainWork := nChainWork b; nTx := nTx b; nChainTx := nChainTx b;
     nStatus := nStatus b; nSequenceId := nSequenceId b; nTime := nTime b;
     nTimeMax := nTimeMax b; nFile := nFile b; nDataPos := nDataPos b;
     nUndoPos := nUndoPos b; fProofOfStake := fProofOfStake b;
     nStakeModifier := m |}.

(** [pindex->nUndoPos = _pos.nPos; pindex->nStatus |= BLOCK_HAVE_UNDO;] *)
Definition set_undo_pos (b : CBlockIndex) (pos : Z) : CBlockIndex :=
  {| phashBlock := phashBlock b; pprev := pprev b; nHeight := nHeight b;
     nChainWork := nChainWork b; nTx := nTx b; nChainTx := nChainTx b;
     nStatus := {| VALID_LEVEL := VALID_LEVEL (nStatus b);
                   HAVE_DATA := HAVE_DATA (nStatus b);
                   HAVE_UNDO := true;
                   FAILED_VALID := FAILED_VALID (nStatus b);
                   FAILED_CHILD := FAILED_CHILD (nStatus b);
                   OPT_WITNESS := OPT_WITNESS (nStatus b) |};
     nSequenceId := nSequenceId b; nTime := nTime b;
     nTimeMax := nTimeMax b; nFile := nFile b; nDataPos := nDataPos b;
     nUndoPos := pos; fProofOfStake := fProofOfStake b;
     nStakeModifier := nStakeModifier b |}.

(** What a successful [ConnectBlock] leaves behind: the view and the token
    cache it was handed, the block index entry, and the undo records it
    built. *)
Record Connected (env : Env) := {
  c_view : CCoinsViewCache;
  c_tokens : TokenState env;
  c_pindex : CBlockIndex;
  c_blockundo : CBlockUndo;
  c_vUndoTokenData : list (TokenUndo env) }.

Arguments c_view {env} _.
Arguments c_tokens {env} _.
Arguments c_pindex {env} _.
Arguments c_blockundo {env} _.
Arguments c_vUndoTokenData {env} _.

(** The checks of [ConnectBlock] before the genesis special case. *)
Definition ConnectBlock_checks (env : Env) (block : CBlock) (pindex : CBlockIndex)
  (pprev : option CBlockIndex) (view : CCoinsViewCache) (fJustCheck : bool)
  : Result unit :=
  assert (bool_decide (phashBlock pindex = None
                       ∨ phashBlock pindex = Some (blk_hash block)))
    "pindex->phashBlock";;
  reject_if (fCheckpointsEnabled env
             && negb (CheckHardened env (nHeight pindex) (blk_hash block)))
    100 REJECT_CHECKPOINT "bad-fork-hardened-checkpoint";;
  (* Check it again in case a previous version let a bad block in *)
  match CheckBlock env block fJustCheck with
  | BlockValid => Ok tt
  | BlockCorrupt =>
      Abort "Corrupt block found indicating potential hardware failure; shutting down"
  | BlockInvalid d c r => Reject d c r
  end;;
  (* verify that the view's current state corresponds to the previous block *)
  let hashPrevBlock := match pprev with None => 0 | Some p => GetIndexHash p end in
  assert (bool_decide (hashPrevBlock = GetBestBlock view))
    "hashPrevBlock == view.GetBestBlock()".

(** Everything of [ConnectBlock] up to the end of the transaction loop.
    [None] is the genesis block, whose transactions are not connected.  The
    assignment to [pindex->nStakeModifier] is reported with the result. *)
Definition ConnectBlock_front (env : Env) (block : CBlock) (pindex : CBlockIndex)
  (pprev : option CBlockIndex) (view : CCoinsViewCache) (tokens : TokenState env)
  (fJustCheck : bool)
  : Result (option (CBlockIndex * OfflineStake * ConnectAcc env)) :=
  ConnectBlock_checks env block pindex pprev view fJustCheck;;
  if bool_decide (blk_hash block = hashGenesisBlock env) then Ok None
  else
    reject_if (negb (blk_nBits block =? GetNextTargetRequired env pprev block))
      100 REJECT_INVALID "bad-diffbits";;
    kernel ←
      (if IsProofOfStake block then
         match vtx block !! 1%nat with
         | None => Crash "block.vtx[1]"
         | Some coinstake =>
             match vin coinstake !! 0%nat with
             | None => Crash "block.vtx[1]->vin[0]"
             | Some txin => Ok (op_hash (prevout txin))
             end
         end
       else Ok (blk_hash block));
    let pindex' := set_nStakeModifier pindex (ComputeStakeModifier env pprev kernel) in
    off ← ConnectBlock_stake env block pindex' pprev view;
    acc ← ConnectBlock_loop env pindex' 0 (vtx block)
            {| a_view := view; a_tokens := tokens; a_nFees := 0;
               a_nSigOpsCost := 0; a_nActualStakeReward := 0;
               a_blockundo := []; a_vUndoTokenData := [] |};
    Ok (Some (pindex', off, acc)).

(** The tail of [ConnectBlock]: undo and index writes, best block. *)
Definition ConnectBlock_finish (env : Env) (block : CBlock) (pindex : CBlockIndex)
  (acc : ConnectAcc env) (fJustCheck : bool) : Result (Connected env) :=
  if fJustCheck then
    Ok {| c_view := a_view acc; c_tokens := a_tokens acc; c_pindex := pindex;
          c_blockundo := a_blockundo acc;
          c_vUndoTokenData := a_vUndoTokenData acc |}
  else
    (* Write undo information to disk *)
    pindex1 ←
      (if GetUndoPos_IsNull pindex || negb (IsValid pindex BLOCK_VALID_SCRIPTS) then
         pindex' ←
           (if GetUndoPos_IsNull pindex then
              match FindUndoPos env pindex (a_blockundo acc) with
              | None => Error "ConnectBlock(): FindUndoPos failed"
              | Some pos =>
                  if UndoWriteToDisk env (a_blockundo acc)
                  then Ok (set_undo_pos pindex pos)
                  else Abort "Failed to write undo data"
              end
            else Ok pindex);
         (if bool_decide (a_vUndoTokenData acc = [])
          then Ok tt
          else if WriteBlockUndoTokenData env (a_vUndoTokenData acc) then Ok tt
          else Abort "Failed to write token undo data");;
         Ok (RaiseValidity pindex' BLOCK_VALID_SCRIPTS)
       else Ok pindex);
    (if WriteIndexes env block then Ok tt else Abort "Failed to write index");;
    assert (bool_decide (is_Some (phashBlock pindex1))) "pindex->phashBlock";;
    (* add this block to the view's block chain *)
    Ok {| c_view := SetBestBlock (a_view acc) (GetIndexHash pindex1);
          c_tokens := a_tokens acc; c_pindex := pindex1;
          c_blockundo := a_blockundo acc;
          c_vUndoTokenData := a_vUndoTokenData acc |}.

Definition ConnectBlock (env : Env) (block : CBlock) (pindex : CBlockIndex)
  (pprev : option CBlockIndex) (view : CCoinsViewCache) (tokens : TokenState env)
  (fJustCheck : bool) : Result (Connected env) :=
  front ← ConnectBlock_front env block pindex pprev view tokens fJustCheck;
  match front with
  | None =>
      (* Special case for the genesis block, skipping connection of its
         transactions (its coinbase is unspendable) *)
      Ok {| c_view := if fJustCheck then view
                      else SetBestBlock view (GetIndexHash pindex);
            c_tokens := tokens; c_pindex := pindex;
            c_blockundo := []; c_vUndoTokenData := [] |}
  | Some (pindex', off, acc) =>
      ConnectBlock_rewards env block pindex' off (a_nFees acc)
        (a_nActualStakeReward acc);;
      ConnectBlock_finish env block pindex' acc fJustCheck
  end.

(** ** [ApplyTxInUndo] and [DisconnectBlock] *)

Inductive DisconnectResult :=
| DISCONNECT_OK       (* All good. *)
| DISCONNECT_UNCLEAN  (* Rolled back, but UTXO set was inconsistent with block. *)
| DISCONNECT_FAILED.  (* Something else went wrong. *)

#[global] Instance DisconnectResult_eq_dec : EqDecision DisconnectResult.
Proof. solve_decision. Defined.

(** The metadata that [ApplyTxInUndo] copies from an alternate output of the
    same transaction. *)
Definition with_metadata_of (undo alternate : Coin) : Coin :=
  {| out := out undo;
     coin_nHeight := coin_nHeight alternate;
     fCoinBase := fCoinBase alternate;
     fCoinStake := fCoinStake alternate;
     coin_nTime := coin_nTime alternate |}.

(** [ApplyTxInUndo(undo, view, out, tokenCache)]: restore the coin [undo] at
    the outpoint [o].  The view and the token cache are returned together
    with the result. *)
Definition ApplyTxInUndo (env : Env) (undo : Coin) (view : CCoinsViewCache)
  (tokens : TokenState env) (o : COutPoint)
  : DisconnectResult * CCoinsViewCache * TokenState env :=
  let tempCoin := undo in
  let fIsToken := coin_IsToken env undo in
  (* overwriting transaction output *)
  let fClean := negb (HaveCoin view o) in
  let undo' :=
    if coin_nHeight undo =? 0 then
      (* Missing undo metadata (height and coinbase). *)
      match AccessByTxid env view (op_hash o) with
      | Some alternate => Some (with_metadata_of undo alternate)
      | None => None
      end
    else Some undo in
  match undo' with
  | None => (DISCONNECT_FAILED, view, tokens)
  | Some undo' =>
      match AddCoin (IsUnspendable env) view o undo' (negb fClean) with
      | Ok view' =>
          let '(fClean', tokens') :=
            if AreTokensDeployed env && fIsToken then
              let '(ok, tokens') := UndoTokenCoin env tokens tempCoin o in
              (fClean && ok, tokens')
            else (fClean, tokens) in
          (if fClean' then DISCONNECT_OK else DISCONNECT_UNCLEAN, view', tokens')
      | _ => (DISCONNECT_FAILED, view, tokens)
      end
  end.

(** [for (size_t o = 0; o < tx.vout.size(); o++)] of [DisconnectBlock]: every
    spendable output is spent from the view (the token cache handed to
    [SpendCoin] is the copy [tempCache]) and compared with the block. *)
Fixpoint disconnect_outputs (env : Env) (tx : CTransaction) (height : Z)
  (o : Z) (outs : list CTxOut) (view : CCoinsViewCache)
  (tempCache : TokenState env) (fClean : bool)
  : CCoinsViewCache * TokenState env * bool :=
  match outs with
  | [] => (view, tempCache, fClean)
  | txout :: rest =>
      if IsUnspendable env (scriptPubKey txout)
      then disconnect_outputs env tx height (o + 1) rest view tempCache fClean
      else
        let op := {| op_hash := tx_hash tx; op_n := o |} in
        match SpendCoin view op with
        | Some (view', coin) =>
            let mismatch :=
              negb (bool_decide (txout = out coin))
              || negb (height =? coin_nHeight coin)
              || negb (eqb (IsCoinBase tx) (fCoinBase coin)) in
            disconnect_outputs env tx height (o + 1) rest view'
              (tok_SpendCoin env tempCache op coin)
              (if mismatch then false else fClean)
        | None =>
            (* transaction output mismatch *)
            disconnect_outputs env tx height (o + 1) rest view tempCache false
        end
  end.

(** [for (unsigned int j = tx.vin.size(); j-- > 0;)]: the inputs are restored
    from the last to the first; [ins] and [undos] are the reversed [tx.vin]
    and [txundo.vprevout].  [None] is [DISCONNECT_FAILED]. *)
Fixpoint restore_inputs (env : Env) (ins : list CTxIn) (undos : list Coin)
  (view : CCoinsViewCache) (tokens : TokenState env) (fClean : bool)
  : option (CCoinsViewCache * TokenState env * bool) :=
  match ins, undos with
  | txin :: ins', undo :: undos' =>
      let '(res, view', tokens') := ApplyTxInUndo env undo view tokens (prevout txin) in
      if bool_decide (res = DISCONNECT_FAILED) then None
      else restore_inputs env ins' undos' view' tokens'
             (fClean && negb (bool_decide (res = DISCONNECT_UNCLEAN)))
  | _, _ => Some (view, tokens, fClean)
  end.

(** The state threaded through the loop of [DisconnectBlock]. *)
Record DisconnectAcc (env : Env) := {
  d_view : CCoinsViewCache;
  d_tokens : TokenState env;
  d_tempCache : TokenState env;
  d_fClean : bool }.

Arguments d_view {env} _.
Arguments d_tokens {env} _.
Arguments d_tempCache {env} _.
Arguments d_fClean {env} _.

(** The body of the loop of [DisconnectBlock] for the transaction at index
    [i]; [None] is [return DISCONNECT_FAILED]. *)
Definition DisconnectBlock_tx (env : Env) (pindex : CBlockIndex)
  (blockUndo : CBlockUndo) (vUndoData : list (TokenUndo env)) (i : nat)
  (tx : CTransaction) (acc : DisconnectAcc env) : option (DisconnectAcc env) :=
  (* Check that all outputs are available and match the outputs in the
     block itself exactly. *)
  let '(view1, tempCache1, fClean1) :=
    disconnect_outputs env tx (nHeight pindex) 0 (vout tx)
      (d_view acc) (d_tempCache acc) (d_fClean acc) in
  tokens1 ←
    (if AreTokensDeployed env
     then tok_DisconnectTx env (d_tokens acc) tx vUndoData
     else Some (d_tokens acc));
  (* restore inputs *)
  if bool_decide (i = 0%nat) then
    Some {| d_view := view1; d_tokens := tokens1; d_tempCache := tempCache1;
            d_fClean := fClean1 |}
  else
    (* not coinbases *)
    match blockUndo !! (i - 1)%nat with
    | None => None
    | Some txundo =>
        if negb (length txundo =? length (vin tx))%nat then None
        else
          '(view2, tokens2, fClean2) ←
            restore_inputs env (rev (vin tx)) (rev txundo) view1 tokens1 fClean1;
          Some {| d_view := view2; d_tokens := tokens2;
                  d_tempCache := tempCache1; d_fClean := fClean2 |}
    end.

(** [for (int i = block.vtx.size() - 1; i >= 0; i--)]; [txs] is the reversed
    [block.vtx] and [i] the index after the one of its head. *)
Fixpoint DisconnectBlock_loop (env : Env) (pindex : CBlockIndex)
  (blockUndo : CBlockUndo) (vUndoData : list (TokenUndo env)) (i : nat)
  (txs : list CTransaction) (acc : DisconnectAcc env)
  : option (DisconnectAcc env) :=
  match txs, i with
  | tx :: rest, S i' =>
      acc' ← DisconnectBlock_tx env pindex blockUndo vUndoData i' tx acc;
      DisconnectBlock_loop env pindex blockUndo vUndoData i' rest acc'
  | _, _ => Some acc
  end.

(** [DisconnectBlock(block, pindex, view, tokensCache)].  [diskUndo] is what
    [UndoReadFromDisk] finds at [pindex->GetUndoPos()] ([None] when the read
    fails) and [diskTokenUndo] what [ReadBlockUndoTokenData] returns.  When
    [DISCONNECT_FAILED] is returned the source leaves the view in an
    indeterminate state; the model hands back the view and the token cache
    it was given, except after a failed [EraseIndexes]. *)
Definition DisconnectBlock (env : Env) (block : CBlock) (pindex : CBlockIndex)
  (pprev : option CBlockIndex) (diskUndo : option CBlockUndo)
  (diskTokenUndo : option (list (TokenUndo env)))
  (view : CCoinsViewCache) (tokens : TokenState env)
  : DisconnectResult * CCoinsViewCache * TokenState env :=
  if GetUndoPos_IsNull pindex then (DISCONNECT_FAILED, view, tokens)
  else
    match diskUndo, diskTokenUndo with
    | Some blockUndo, Some vUndoData =>
        if negb (length blockUndo + 1 =? length (vtx block))%nat
        then (DISCONNECT_FAILED, view, tokens)
        else
          (* undo transactions in reverse order *)
          match DisconnectBlock_loop env pindex blockUndo vUndoData
                  (length (vtx block)) (rev (vtx block))
                  {| d_view := view; d_tokens := tokens; d_tempCache := tokens;
                     d_fClean := true |} with
          | None => (DISCONNECT_FAILED, view, tokens)
          | Some acc =>
              (* move best block pointer to prevout block *)
              let view' :=
                SetBestBlock (d_view acc)
                  (match pprev with Some p => GetIndexHash p | None => 0 end) in
              if EraseIndexes env block
              then (if d_fClean acc then DISCONNECT_OK else DISCONNECT_UNCLEAN,
                    view', d_tokens acc)
              else (DISCONNECT_FAILED, view', d_tokens acc)
          end
    | _, _ => (DISCONNECT_FAILED, view, tokens)
    end.

(** ** A concrete environment

    An environment in which the external checks succeed, the fee of a
    transaction is what its inputs hold beyond its outputs (nothing for a
    coinstake), and the token cache is a single balance: the units held by
    unspent outputs whose script starts with the byte [0xc0]. *)

Definition demo_token_units (o : CTxOut) : Z :=
  match scriptPubKey o with
  | 192 :: units :: _ => units
  | _ => 0
  end.

Definition demo_CheckTxInputs (tx : CTransaction) (view : CCoinsViewCache)
  (height : Z) : Result CAmount :=
  if forallb (fun i => HaveCoin view (prevout i)) (vin tx) then
    if IsCoinStake tx then Ok 0
    else if GetValueIn view tx <? GetValueOut tx
    then Reject 100 REJECT_INVALID "bad-txns-in-belowout"
    else Ok (GetValueIn view tx - GetValueOut tx)
  else Reject 100 REJECT_INVALID "bad-txns-inputs-missingorspent".

(** [AccessByTxid]: the first unspent output of a transaction among the
    output indices below 16. *)
Definition demo_AccessByTxid (view : CCoinsViewCache) (txid : uint256) : option Coin :=
  foldr (fun n acc =>
           match AccessCoin view {| op_hash := txid; op_n := Z.of_nat n |} with
           | Some c => Some c
           | None => acc
           end) None (seq 0 16).

Definition demo_env : Env := {|
  COIN := 100000000;
  hashGenesisBlock := 1;
  nTxMessages := 0;
  COINSTAKE_MATURITY := 50;
  MAX_BLOCK_SIGOPS_COST := 80000;
  fCheckpointsEnabled := true;
  IsUnspendable := fun s => match s with 106 :: _ => true | _ => false end;
  IsOfflineStaking := fun s => match s with 99 :: _ => true | _ => false end;
  IsTokenScript := fun s => match s with 192 :: _ => true | _ => false end;
  IsNullToken := fun _ => false;
  CheckHardened := fun _ _ => true;
  CheckBlock := fun _ _ => BlockValid;
  GetNextTargetRequired := fun _ b => blk_nBits b;
  ComputeStakeModifier := fun _ kernel => kernel;
  GetTransaction := fun _ => true;
  CheckStakeKernelHash := fun _ _ _ _ => true;
  CheckTxInputs := demo_CheckTxInputs;
  GetTransactionSigOpCost := fun tx _ => Z.of_nat (length (vout tx));
  CheckInputs := fun _ _ => Ok tt;
  AccessByTxid := demo_AccessByTxid;
  FindUndoPos := fun _ _ => Some 8;
  UndoWriteToDisk := fun _ => true;
  WriteIndexes := fun _ => true;
  EraseIndexes := fun _ => true;
  TokenState := Z;
  TokenUndo := unit;
  AreTokensDeployed := true;
  coin_IsToken := fun c => negb (demo_token_units (out c) =? 0);
  CheckTxTokens := fun _ _ _ => Ok tt;
  tok_SpendCoin := fun t _ c => t - demo_token_units (out c);
  tok_AddCoins := fun t tx _ =>
    (t + foldr (fun o acc => demo_token_units o + acc) 0 (vout tx), None);
  UndoTokenCoin := fun t c _ => (true, t + demo_token_units (out c));
  tok_DisconnectTx := fun t tx _ =>
    Some (t - foldr (fun o acc => demo_token_units o + acc) 0 (vout tx));
  WriteBlockUndoTokenData := fun _ => true |}.

(** A block index entry at the given height with the given hash, data and
    predecessor. *)
Definition demo_index (hash : uint256) (prev : option BlockHandle) (height : Z)
  : CBlockIndex := {|
  phashBlock := Some hash; pprev := prev; nHeight := height;
  nChainWork := height + 1; nTx := 1; nChainTx := height + 1;
  nStatus := {| VALID_LEVEL := BLOCK_VALID_TRANSACTIONS; HAVE_DATA := true;
                HAVE_UNDO := false; FAILED_VALID := false;
                FAILED_CHILD := false; OPT_WITNESS := false |};
  nSequenceId := 0; nTime := 0; nTimeMax := 0; nFile := 0; nDataPos := 0;
  nUndoPos := 0; fProofOfStake := false; nStakeModifier := 0 |}.

Definition demo_coin (value : CAmount) (script : CScript) (height : Z) : Coin :=
  {| out := {| nValue := value; scriptPubKey := script |};
     coin_nHeight := height; fCoinBase := false; fCoinStake := false;
     coin_nTime := 0 |}.

Definition demo_coinbase (hash : uint256) (value : CAmount) : CTransaction := {|
  tx_hash := hash; tx_nVersion := 1; tx_nTime := 0;
  vin := [ {| prevout := {| op_hash := 0; op_n := 4294967295 |} |} ];
  vout := [ {| nValue := value; scriptPubKey := [118; 1] |} ];
  IsCoinBase := true; IsCoinStake := false |}.

Definition demo_tx (hash : uint256) (ins : list COutPoint) (outs : list CTxOut)
  : CTransaction := {|
  tx_hash := hash; tx_nVersion := 1; tx_nTime := 0;
  vin := map Build_CTxIn ins; vout := outs;
  IsCoinBase := false; IsCoinStake := false |}.

(** The view before the demonstration blocks: the tip is block [7]; the
    outpoint [(20, 0)] holds 1000 units, [(21, 0)] a staked coin of 5000
    coins under the offline staking script [[99; 7]]. *)
Definition demo_view : CCoinsViewCache := {|
  cacheCoins :=
    <[ {| op_hash := 20; op_n := 0 |} := demo_coin 1000 [118; 2] 10 ]>
    (<[ {| op_hash := 21; op_n := 0 |} := demo_coin 500000000000 [99; 7] 10 ]> ∅);
  hashBlock := 7 |}.

(** A proof-of-work block at height 100 on top of block [7], whose coinbase
    claims [reward] and whose one transaction pays a fee of 5 units. *)
Definition demo_pow_block (reward : CAmount) : CBlock := {|
  blk_hash := 8; blk_nBits := 486604799; blk_nTime := 0;
  vtx := [ demo_coinbase 30 reward;
           demo_tx 31 [ {| op_hash := 20; op_n := 0 |} ]
                      [ {| nValue := 995; scriptPubKey := [118; 3] |} ] ];
  IsProofOfStake := false; IsProofOfWork := true |}.

(** A proof-of-stake block at height 100 on top of block [7]: the coinstake
    spends the staked coin, returns it with [returned] more to the staking
    script and pays [operator] to another script; one more transaction pays
    a fee of 5 units. *)
Definition demo_pos_block (returned operator : CAmount) : CBlock := {|
  blk_hash := 8; blk_nBits := 486604799; blk_nTime := 0;
  vtx := [ {| tx_hash := 30; tx_nVersion := 1; tx_nTime := 0;
              vin := [ {| prevout := {| op_hash := 0; op_n := 4294967295 |} |} ];
              vout := [ {| nValue := 0; scriptPubKey := [] |} ];
              IsCoinBase := true; IsCoinStake := false |};
           {| tx_hash := 32; tx_nVersion := 1; tx_nTime := 0;
              vin := [ {| prevout := {| op_hash := 21; op_n := 0 |} |} ];
              vout := [ {| nValue := 0; scriptPubKey := [] |};
                        {| nValue := 500000000000 + returned;
                           scriptPubKey := [99; 7] |};
                        {| nValue := operator; scriptPubKey := [118; 9] |} ];
              IsCoinBase := false; IsCoinStake := true |};
           demo_tx 31 [ {| op_hash := 20; op_n := 0 |} ]
                      [ {| nValue := 995; scriptPubKey := [118; 3] |} ] ];
  IsProofOfStake := true; IsProofOfWork := false |}.

(** ** The offline staking split in the words of the specification *)

(** What a list of outputs pays to [script], and what it pays to every other
    script. *)
Definition value_to_script (script : CScript) (outs : list CTxOut) : CAmount :=
  foldr (fun o acc => if bool_decide (scriptPubKey o = script)
                      then nValue o + acc else acc) 0 outs.

Definition value_to_others (script : CScript) (outs : list CTxOut) : CAmount :=
  foldr (fun o acc => if bool_decide (scriptPubKey o = script)
                      then acc else nValue o + acc) 0 outs.

(** The value the coinstake returns to the staking script beyond the staked
    coin, and the value it pays to the operator's outputs; output 0 of a
    coinstake is its empty marker. *)
Definition stake_returned (coin : Coin) (coinstake : CTransaction) : CAmount :=
  value_to_script (scriptPubKey (out coin)) (drop 1 (vout coinstake))
  - nValue (out coin).

Definition stake_operator (coin : Coin) (coinstake : CTransaction) : CAmount :=
  value_to_others (scriptPubKey (out coin)) (drop 1 (vout coinstake)).

(** ** The mempool *)

(** [CTxMemPoolEntry]: a transaction with the fee and the size
    ([GetTxSize]) recorded when it entered the pool. *)
Record CTxMemPoolEntry := {
  entry_tx : CTransaction;
  entry_nFee : CAmount;
  entry_nTxSize : Z }.

(** Modelled from the spec: [CTxMemPool] of [txmempool.h]/[txmempool.cpp],
    which is not part of the sources at hand.  Section 3 of the
    specification has the pool as a set of entries indexed by hash, with
    the ancestors and descendants of an entry counted as transitive
    closures; [mapNextTx] is the conflict tracking that
    [AcceptToMemoryPoolWorker] consults: the in-pool transaction that spends
    an outpoint. *)
Record CTxMemPool := {
  mapTx : gmap uint256 CTxMemPoolEntry;
  mapNextTx : gmap COutPoint uint256 }.

Definition pool_exists (pool : CTxMemPool) (hash : uint256) : bool :=
  bool_decide (is_Some (mapTx pool !! hash)).

(** The in-pool parents of a transaction: the pool entries it spends from. *)
Definition in_pool_parents (pool : CTxMemPool) (tx : CTransaction) : gset uint256 :=
  list_to_set (filter (fun h => is_Some (mapTx pool !! h))
                 (map (fun i => op_hash (prevout i)) (vin tx))).

Definition parents_of_set (pool : CTxMemPool) (s : gset uint256) : gset uint256 :=
  foldr (fun h acc => match mapTx pool !! h with
                      | Some e => in_pool_parents pool (entry_tx e) ∪ acc
                      | None => acc
                      end) ∅ (elements s).

(** Modelled from the spec: the transitive in-pool ancestors of a
    transaction.  A chain of parents inside the pool is no longer than the
    pool, so as many rounds as the pool has entries reach all of them. *)
Definition pool_ancestors (pool : CTxMemPool) (tx : CTransaction) : gset uint256 :=
  Nat.iter (size (mapTx pool)) (fun s => s ∪ parents_of_set pool s)
    (in_pool_parents pool tx).

(** The in-pool children of the transaction [hash]: the entries with an
    input that spends one of its outputs. *)
Definition in_pool_children (pool : CTxMemPool) (hash : uint256) : gset uint256 :=
  dom (filter (fun kv => hash ∈ map (fun i => op_hash (prevout i))
                                   (vin (entry_tx (snd kv))))
         (mapTx pool)).

Definition children_of_set (pool : CTxMemPool) (s : gset uint256) : gset uint256 :=
  foldr (fun h acc => in_pool_children pool h ∪ acc) ∅ (elements s).

(** Modelled from the spec: the transitive in-pool descendants. *)
Definition pool_descendants (pool : CTxMemPool) (hash : uint256) : gset uint256 :=
  Nat.iter (size (mapTx pool)) (fun s => s ∪ children_of_set pool s)
    (in_pool_children pool hash).

Definition pool_size_of (pool : CTxMemPool) (s : gset uint256) : Z :=
  foldr (fun h acc => match mapTx pool !! h with
                      | Some e => entry_nTxSize e + acc
                      | None => acc
                      end) 0 (elements s).

(** [GetCountWithDescendants] and [GetSizeWithDescendants] of the entry
    [hash]: the entry itself and its descendants. *)
Definition GetCountWithDescendants (pool : CTxMemPool) (hash : uint256) : Z :=
  1 + Z.of_nat (size (pool_descendants pool hash)).

Definition GetSizeWithDescendants (pool : CTxMemPool) (hash : uint256) : Z :=
  pool_size_of pool ({[hash]} ∪ pool_descendants pool hash).

(** Modelled from the spec: [CalculateMemPoolAncestors] of [txmempool.cpp].
    Section 4.4, step 5: compute transitive in-pool ancestors; reject if
    count or virtual size exceeds configured caps, or if admitting this tx
    would push any ancestor's descendant count/size over.  The counts include
    the transaction itself.  [None] is the failure. *)
Definition CalculateMemPoolAncestors (pool : CTxMemPool) (entry : CTxMemPoolEntry)
  (limitAncestorCount limitAncestorSize limitDescendantCount limitDescendantSize : Z)
  : option (gset uint256) :=
  let setAncestors := pool_ancestors pool (entry_tx entry) in
  if Z.of_nat (size setAncestors) + 1 >? limitAncestorCount then None
  else if pool_size_of pool setAncestors + entry_nTxSize entry >? limitAncestorSize
  then None
  else if existsb (fun a =>
                     (GetCountWithDescendants pool a + 1 >? limitDescendantCount)
                     || (GetSizeWithDescendants pool a + entry_nTxSize entry
                         >? limitDescendantSize))
            (elements setAncestors)
  then None
  else Some setAncestors.

(** Modelled from the spec: [addUnchecked]: insert the entry and record the
    outpoints it spends. *)
Definition addUnchecked (pool : CTxMemPool) (hash : uint256) (entry : CTxMemPoolEntry)
  : CTxMemPool :=
  {| mapTx := <[hash := entry]> (mapTx pool);
     mapNextTx := foldr (fun i m => <[prevout i := hash]> m) (mapNextTx pool)
                    (vin (entry_tx entry)) |}.

(** Modelled from the spec: [removeRecursive]: the transaction, when it is in
    the pool, and every in-pool transaction that depends on it leave the
    pool. *)
Definition removeRecursive (pool : CTxMemPool) (tx : CTransaction) : CTxMemPool :=
  let gone := {[tx_hash tx]} ∪ pool_descendants pool (tx_hash tx) in
  {| mapTx := filter (fun kv => fst kv ∉ gone) (mapTx pool);
     mapNextTx := filter (fun kv => snd kv ∉ gone) (mapNextTx pool) |}.

(** The coin view of the accept path, [CCoinsViewMemPool(pcoinsTip, pool)]:
    an outpoint resolves to an output of an in-pool transaction or to a coin
    of the tip view. *)
Definition pool_HaveCoin (pcoinsTip : CCoinsViewCache) (pool : CTxMemPool)
  (o : COutPoint) : bool :=
  match mapTx pool !! op_hash o with
  | Some e => (0 <=? op_n o) && (op_n o <? Z.of_nat (length (vout (entry_tx e))))
  | None => HaveCoin pcoinsTip o
  end.

(** Node state, settings and checks of other translation units that the
    accept path consults. *)
Record PoolEnv := {
  mp_CheckTransaction : CTransaction -> Result unit;
  mp_HasWitness : CTransaction -> bool;
  mp_witnessEnabled : bool;
  mp_prematurewitness : bool;
  mp_fRequireStandard : bool;
  mp_IsStandardTx : CTransaction -> option string;
  mp_CheckFinalTx : CTransaction -> bool;
  mp_FutureDrift : Z;
  mp_tip_nHeight : Z;
  mp_nTxMessages : Z;
  mp_pcoinsTip : CCoinsViewCache;
  mp_HaveCoinInCache : COutPoint -> bool;
  mp_CheckSequenceLocks : CTransaction -> bool;
  mp_CheckTxInputs : CTransaction -> CTxMemPool -> Result CAmount;
  mp_AreTokensDeployed : bool;
  mp_IsTokenScript : CScript -> bool;
  mp_CheckTxTokens : CTransaction -> CTxMemPool -> Result unit;
  mp_AreInputsStandard : CTransaction -> bool;
  mp_IsWitnessStandard : CTransaction -> bool;
  mp_GetTransactionSigOpCost : CTransaction -> Z;
  MAX_STANDARD_TX_SIGOPS_COST : Z;
  mp_GetTxSize : CTransaction -> Z;
  nLimitAncestors : Z;
  nLimitAncestorSize : Z;
  nLimitDescendants : Z;
  nLimitDescendantSize : Z;
  mp_ReplacementPolicy : CTxMemPool -> CTxMemPoolEntry -> gset uint256 -> Result unit;
  mp_CheckInputs : CTransaction -> CTxMemPool -> Result unit;
  mp_CheckInputsFromMempoolAndCache : CTransaction -> CTxMemPool -> Result unit;
  mp_LimitMempoolSize : CTxMemPool -> CTxMemPool;
  mp_TrackTokens : CTransaction -> CTxMemPool -> Result unit;
  mp_UpdateTransactionsFromBlock : list uint256 -> CTxMemPool -> CTxMemPool;
  mp_removeForReorg : CTxMemPool -> CTxMemPool;
  mp_tx_usage : CTransaction -> Z;
  MAX_DISCONNECTED_TX_POOL_SIZE : Z }.

(** ** [AcceptToMemoryPoolWorker] *)

(** The checks before the conflict detection. *)
Definition ATMP_prechecks (env : PoolEnv) (pool : CTxMemPool) (tx : CTransaction)
  : Result unit :=
  mp_CheckTransaction env tx;;
  (* Coinbase is only valid in a block, not as a loose transaction *)
  reject_if (IsCoinBase tx) 100 REJECT_INVALID "coinbase";;
  reject_if (negb (mp_prematurewitness env) && mp_HasWitness env tx
             && negb (mp_witnessEnabled env))
    0 REJECT_NONSTANDARD "no-witness-yet";;
  (* ppcoin: coinstake is also only valid in a block *)
  reject_if (IsCoinStake tx) 100 REJECT_INVALID "coinstake";;
  (* Rather not work on nonstandard transactions *)
  (if mp_fRequireStandard env then
     match mp_IsStandardTx env tx with
     | Some reason => Reject 0 REJECT_NONSTANDARD reason
     | None => Ok tt
     end
   else Ok tt);;
  reject_if (negb (mp_CheckFinalTx env tx)) 0 REJECT_NONSTANDARD "non-final";;
  reject_if (tx_nTime tx >? mp_FutureDrift env) 0 REJECT_NONSTANDARD "time-too-new";;
  (* Check TX version here *)
  reject_if ((mp_tip_nHeight env <? mp_nTxMessages env) && (tx_nVersion tx >? 1))
    0 REJECT_NONSTANDARD "bad-transaction-v2-not-active";;
  (* is it already in the memory pool? *)
  reject_if (pool_exists pool (tx_hash tx)) 0 REJECT_DUPLICATE "txn-already-in-mempool".

(** Check for conflicts with in-memory transactions: the loop over [tx.vin]
    with its local [fReplacementOptOut = true]. *)
Fixpoint ATMP_conflicts (pool : CTxMemPool) (ins : list CTxIn)
  (setConflicts : gset uint256) : Result (gset uint256) :=
  match ins with
  | [] => Ok setConflicts
  | txin :: rest =>
      match mapNextTx pool !! prevout txin with
      | Some hashConflicting =>
          if bool_decide (hashConflicting ∈ setConflicts)
          then ATMP_conflicts pool rest setConflicts
          else
            let fReplacementOptOut := true in
            if fReplacementOptOut
            then Reject 0 REJECT_DUPLICATE "txn-mempool-conflict"
            else ATMP_conflicts pool rest ({[hashConflicting]} ∪ setConflicts)
      | None => ATMP_conflicts pool rest setConflicts
      end
  end.

(** do all inputs exist? *)
Fixpoint ATMP_inputs (env : PoolEnv) (pool : CTxMemPool) (tx : CTransaction)
  (ins : list CTxIn) : Result unit :=
  match ins with
  | [] => Ok tt
  | txin :: rest =>
      if pool_HaveCoin (mp_pcoinsTip env) pool (prevout txin)
      then ATMP_inputs env pool tx rest
      else
        (* Are inputs missing because we already have the tx? *)
        if existsb (fun n => mp_HaveCoinInCache env
                               {| op_hash := tx_hash tx; op_n := Z.of_nat n |})
             (seq 0 (length (vout tx)))
        then Reject 0 REJECT_DUPLICATE "txn-already-known"
        else Error "missing inputs"
  end.

Fixpoint tokens_not_active_pool (env : PoolEnv) (outs : list CTxOut) : Result unit :=
  match outs with
  | [] => Ok tt
  | o :: rest =>
      if mp_IsTokenScript env (scriptPubKey o)
      then Reject 100 REJECT_INVALID "bad-txns-contained-token-when-not-active"
      else tokens_not_active_pool env rest
  end.

(** From the input checks to the mempool entry. *)
Definition ATMP_entry (env : PoolEnv) (pool : CTxMemPool) (tx : CTransaction)
  : Result CTxMemPoolEntry :=
  ATMP_inputs env pool tx (vin tx);;
  reject_if (negb (mp_CheckSequenceLocks env tx)) 0 REJECT_NONSTANDARD "non-BIP68-final";;
  nFees ← mp_CheckTxInputs env tx pool;
  (if mp_AreTokensDeployed env then mp_CheckTxTokens env tx pool
   else tokens_not_active_pool env (vout tx));;
  (* Check for non-standard pay-to-script-hash in inputs *)
  reject_if (mp_fRequireStandard env && negb (mp_AreInputsStandard env tx))
    0 REJECT_NONSTANDARD "bad-txns-nonstandard-inputs";;
  (* Check for non-standard witness in P2WSH *)
  reject_if (mp_HasWitness env tx && mp_fRequireStandard env
             && negb (mp_IsWitnessStandard env tx))
    0 REJECT_NONSTANDARD "bad-witness-nonstandard";;
  reject_if (mp_GetTransactionSigOpCost env tx >? MAX_STANDARD_TX_SIGOPS_COST env)
    0 REJECT_NONSTANDARD "bad-txns-too-many-sigops";;
  Ok {| entry_tx := tx; entry_nFee := nFees; entry_nTxSize := mp_GetTxSize env tx |}.

(** Calculate in-mempool ancestors, up to a limit. *)
Definition ATMP_ancestors (env : PoolEnv) (pool : CTxMemPool) (entry : CTxMemPoolEntry)
  : Result (gset uint256) :=
  match CalculateMemPoolAncestors pool entry (nLimitAncestors env)
          (nLimitAncestorSize env) (nLimitDescendants env)
          (nLimitDescendantSize env) with
  | None => Reject 0 REJECT_NONSTANDARD "too-long-mempool-chain"
  | Some setAncestors => Ok setAncestors
  end.

(** [AcceptToMemoryPoolWorker]: the result and the pool it leaves. *)
Definition AcceptToMemoryPoolWorker (env : PoolEnv) (pool : CTxMemPool)
  (tx : CTransaction) (bypass_limits test_accept : bool)
  : Result unit * CTxMemPool :=
  let checked :=
    ATMP_prechecks env pool tx;;
    setConflicts ← ATMP_conflicts pool (vin tx) ∅;
    entry ← ATMP_entry env pool tx;
    setAncestors ← ATMP_ancestors env pool entry;
    (* A transaction that spends outputs that would be replaced by it is
       invalid. *)
    reject_if (bool_decide (setAncestors ∩ setConflicts ≠ ∅))
      10 REJECT_INVALID "bad-txns-spends-conflicting-tx";;
    (if bool_decide (setConflicts ≠ ∅)
     then mp_ReplacementPolicy env pool entry setConflicts
     else Ok tt);;
    (* Check against previous transactions *)
    mp_CheckInputs env tx pool;;
    mp_CheckInputsFromMempoolAndCache env tx pool;;
    Ok entry in
  match checked with
  | Ok entry =>
      if test_accept then (Ok tt, pool)  (* Tx was accepted, but not added *)
      else
        (* Store transaction in memory *)
        let pool1 := addUnchecked pool (tx_hash tx) entry in
        (* trim mempool and check if tx was trimmed *)
        let pool2 := if bypass_limits then pool1 else mp_LimitMempoolSize env pool1 in
        if negb bypass_limits && negb (pool_exists pool2 (tx_hash tx))
        then (Reject 0 REJECT_INSUFFICIENTFEE "mempool full", pool2)
        else (mp_TrackTokens env tx pool2, pool2)
  | Reject d c r => (Reject d c r, pool)
  | Error w => (Error w, pool)
  | Abort m => (Abort m, pool)
  | Crash w => (Crash w, pool)
  end.

(** [AcceptToMemoryPool(pool, state, tx, pfMissingInputs, plTxnReplaced,
    bypass_limits, nAbsurdFee)], with [test_accept] at its default. *)
Definition AcceptToMemoryPool (env : PoolEnv) (pool : CTxMemPool) (tx : CTransaction)
  (bypass_limits : bool) : bool * CTxMemPool :=
  let '(res, pool') := AcceptToMemoryPoolWorker env pool tx bypass_limits false in
  (is_ok res, pool').

(** ** The disconnect pool, [DisconnectTip] and [UpdateMempoolForReorg] *)

(** Modelled from the spec: [DisconnectedBlockTransactions] of
    [txmempool.h]: an insertion-ordered multiset of transactions evicted
    from a disconnected block, bounded by bytes.  The head of [queuedTx] is
    the oldest entry. *)
Record DisconnectedBlockTransactions := { queuedTx : list CTransaction }.

Definition addTransaction (dp : DisconnectedBlockTransactions) (tx : CTransaction)
  : DisconnectedBlockTransactions :=
  {| queuedTx := queuedTx dp ++ [tx] |}.

Definition DynamicMemoryUsage (env : PoolEnv) (dp : DisconnectedBlockTransactions) : Z :=
  foldr (fun tx acc => mp_tx_usage env tx + acc) 0 (queuedTx dp).

(** [while (disconnectpool->DynamicMemoryUsage() > MAX_DISCONNECTED_TX_POOL_SIZE * 1000)]:
    drop the earliest entry, and remove its children from the mempool. *)
Fixpoint trim_disconnectpool (env : PoolEnv) (queue : list CTransaction)
  (pool : CTxMemPool) : list CTransaction * CTxMemPool :=
  match queue with
  | [] => ([], pool)
  | tx :: rest =>
      if DynamicMemoryUsage env {| queuedTx := queue |}
         >? MAX_DISCONNECTED_TX_POOL_SIZE env * 1000
      then trim_disconnectpool env rest (removeRecursive pool tx)
      else (queue, pool)
  end.

(** The part of [DisconnectTip] that follows a successful [DisconnectBlock]
    and flush: save transactions to re-add to mempool at end of reorg. *)
Definition DisconnectTip_save (env : PoolEnv) (block : CBlock)
  (dp : DisconnectedBlockTransactions) (pool : CTxMemPool)
  : DisconnectedBlockTransactions * CTxMemPool :=
  let dp1 := foldl addTransaction dp (rev (vtx block)) in
  let '(queue, pool') := trim_disconnectpool env (queuedTx dp1) pool in
  ({| queuedTx := queue |}, pool').

(** The chain state that [DisconnectTip] works on: the tip view and token
    cache, the active tip, the mempool. *)
Record TipState (cenv : Env) := {
  ts_view : CCoinsViewCache;
  ts_tokens : TokenState cenv;
  ts_tip : option BlockHandle;
  ts_mempool : CTxMemPool }.

Arguments ts_view {cenv} _.
Arguments ts_tokens {cenv} _.
Arguments ts_tip {cenv} _.
Arguments ts_mempool {cenv} _.

(** [DisconnectTip(state, chainparams, disconnectpool)].  [block] is the tip
    block as [ReadBlockFromDisk] returns it ([None] when the read fails),
    [pindexDelete] its index entry and [pindexPrev] the entry that
    [pindexDelete->pprev] points to, [flushOk] the result of
    [FlushStateToDisk]; [disconnectpool] may be a null pointer. *)
Definition DisconnectTip (cenv : Env) (env : PoolEnv) (block : option CBlock)
  (pindexDelete : CBlockIndex) (pindexPrev : option CBlockIndex)
  (diskUndo : option CBlockUndo) (diskTokenUndo : option (list (TokenUndo cenv)))
  (flushOk : bool) (disconnectpool : option DisconnectedBlockTransactions)
  (st : TipState cenv)
  : Result (option DisconnectedBlockTransactions * TipState cenv) :=
  match block with
  | None => Error "DisconnectTip() : Failed to read block"
  | Some block =>
      assert (bool_decide (GetBestBlock (ts_view st) = GetIndexHash pindexDelete))
        "view.GetBestBlock() == pindexDelete->GetIndexHash()";;
      match DisconnectBlock cenv block pindexDelete pindexPrev diskUndo diskTokenUndo
              (ts_view st) (ts_tokens st) with
      | (DISCONNECT_OK, view', tokens') =>
          if negb flushOk then Error "FlushStateToDisk"
          else
            let '(dp', pool') :=
              match disconnectpool with
              | Some dp =>
                  let '(dp', pool') := DisconnectTip_save env block dp (ts_mempool st) in
                  (Some dp', pool')
              | None => (None, ts_mempool st)
              end in
            (* Update chainActive and related variables. *)
            Ok (dp', {| ts_view := view'; ts_tokens := tokens';
                        ts_tip := pprev pindexDelete; ts_mempool := pool' |})
      | _ => Error "DisconnectTip(): DisconnectBlock failed"
      end
  end.

(** What [UpdateMempoolForReorg] did with one queued transaction: whether it
    was handed to [AcceptToMemoryPool], with which [bypass_limits], whether
    it was accepted, and whether [removeRecursive] was called for it. *)
Record ReplayStep := {
  r_tx : CTransaction;
  r_submitted : bool;
  r_bypass_limits : bool;
  r_accepted : bool;
  r_removed : bool }.

(** The body of the loop of [UpdateMempoolForReorg]. *)
Definition replay_one (env : PoolEnv) (fAddToMempool : bool) (tx : CTransaction)
  (pool : CTxMemPool) (vHashUpdate : list uint256)
  : CTxMemPool * list uint256 * ReplayStep :=
  if negb fAddToMempool || IsCoinBase tx || IsCoinStake tx then
    (* remove any transactions that depend on it (which would now be
       orphans) *)
    (removeRecursive pool tx, vHashUpdate,
     {| r_tx := tx; r_submitted := false; r_bypass_limits := false;
        r_accepted := false; r_removed := true |})
  else
    let bypass_limits := true in
    let '(accepted, pool1) := AcceptToMemoryPool env pool tx bypass_limits in
    if negb accepted then
      (removeRecursive pool1 tx, vHashUpdate,
       {| r_tx := tx; r_submitted := true; r_bypass_limits := bypass_limits;
          r_accepted := false; r_removed := true |})
    else
      (pool1,
       if pool_exists pool1 (tx_hash tx) then vHashUpdate ++ [tx_hash tx]
       else vHashUpdate,
       {| r_tx := tx; r_submitted := true; r_bypass_limits := bypass_limits;
          r_accepted := true; r_removed := false |}).

(** The loop of [UpdateMempoolForReorg] over the transactions [txs]. *)
Fixpoint replay_disconnectpool (env : PoolEnv) (fAddToMempool : bool)
  (txs : list CTransaction) (pool : CTxMemPool) (vHashUpdate : list uint256)
  : CTxMemPool * list uint256 * list ReplayStep :=
  match txs with
  | [] => (pool, vHashUpdate, [])
  | tx :: rest =>
      let '(pool1, vHashUpdate1, step) :=
        replay_one env fAddToMempool tx pool vHashUpdate in
      let '(pool2, vHashUpdate2, steps) :=
        replay_disconnectpool env fAddToMempool rest pool1 vHashUpdate1 in
      (pool2, vHashUpdate2, step :: steps)
  end.

(** [UpdateMempoolForReorg(disconnectpool, fAddToMempool)]: iterate
    [disconnectpool] in reverse, clear it, and clean the mempool up.  The
    steps taken are returned with the pools. *)
Definition UpdateMempoolForReorg (env : PoolEnv)
  (disconnectpool : DisconnectedBlockTransactions) (fAddToMempool : bool)
  (pool : CTxMemPool)
  : DisconnectedBlockTransactions * CTxMemPool * list ReplayStep :=
  let '(pool1, vHashUpdate, steps) :=
    replay_disconnectpool env fAddToMempool (rev (queuedTx disconnectpool))
      pool [] in
  let pool2 := mp_UpdateTransactionsFromBlock env vHashUpdate pool1 in
  (* We also need to remove any now-immature transactions *)
  let pool3 := mp_removeForReorg env pool2 in
  (* Re-limit mempool size, in case we added any transactions *)
  let pool4 := mp_LimitMempoolSize env pool3 in
  ({| queuedTx := [] |}, pool4, steps).

(** A concrete accept path: the external checks succeed, every transaction
    has size 200 and fee 1000, the chain limits are 25 transactions and
    101000 bytes for ancestors and for descendants, and the tip view is
    [demo_view]. *)
Definition demo_pool_env : PoolEnv := {|
  mp_CheckTransaction := fun _ => Ok tt;
  mp_HasWitness := fun _ => false;
  mp_witnessEnabled := true;
  mp_prematurewitness := false;
  mp_fRequireStandard := true;
  mp_IsStandardTx := fun _ => None;
  mp_CheckFinalTx := fun _ => true;
  mp_FutureDrift := 1000;
  mp_tip_nHeight := 99;
  mp_nTxMessages := 0;
  mp_pcoinsTip := demo_view;
  mp_HaveCoinInCache := fun _ => false;
  mp_CheckSequenceLocks := fun _ => true;
  mp_CheckTxInputs := fun _ _ => Ok 1000;
  mp_AreTokensDeployed := true;
  mp_IsTokenScript := fun _ => false;
  mp_CheckTxTokens := fun _ _ => Ok tt;
  mp_AreInputsStandard := fun _ => true;
  mp_IsWitnessStandard := fun _ => true;
  mp_GetTransactionSigOpCost := fun _ => 4;
  MAX_STANDARD_TX_SIGOPS_COST := 16000;
  mp_GetTxSize := fun _ => 200;
  nLimitAncestors := 25;
  nLimitAncestorSize := 101 * 1000;
  nLimitDescendants := 25;
  nLimitDescendantSize := 101 * 1000;
  mp_ReplacementPolicy := fun _ _ _ => Ok tt;
  mp_CheckInputs := fun _ _ => Ok tt;
  mp_CheckInputsFromMempoolAndCache := fun _ _ => Ok tt;
  mp_LimitMempoolSize := fun pool => pool;
  mp_TrackTokens := fun _ _ => Ok tt;
  mp_UpdateTransactionsFromBlock := fun _ pool => pool;
  mp_removeForReorg := fun pool => pool;
  mp_tx_usage := fun _ => 500;
  MAX_DISCONNECTED_TX_POOL_SIZE := 20000 |}.

Definition empty_pool : CTxMemPool := {| mapTx := ∅; mapNextTx := ∅ |}.

(** The [k]-th transaction of a chain of dependent transactions: the first
    spends the confirmed outpoint [(20, 0)], every later one the only output
    of its predecessor. *)
Definition chain_tx (k : nat) : CTransaction :=
  demo_tx (100 + Z.of_nat k)
    [ if bool_decide (k = 1%nat) then {| op_hash := 20; op_n := 0 |}
      else {| op_hash := 100 + Z.of_nat k - 1; op_n := 0 |} ]
    [ {| nValue := 1000 - Z.of_nat k; scriptPubKey := [118; 5] |} ].

(** Submit the transactions one after the other; the results in order. *)
Fixpoint submit_all (env : PoolEnv) (pool : CTxMemPool) (txs : list CTransaction)
  : list (Result unit) * CTxMemPool :=
  match txs with
  | [] => ([], pool)
  | tx :: rest =>
      let '(res, pool') := AcceptToMemoryPoolWorker env pool tx false false in
      let '(results, pool'') := submit_all env pool' rest in
      (res :: results, pool'')
  end.

(** ** The chain limits in the words of the specification *)

(** [h] is an in-pool ancestor of [tx]: an in-pool parent of [tx], or an
    in-pool parent of an in-pool ancestor. *)
Inductive is_ancestor (pool : CTxMemPool) (tx : CTransaction) : uint256 -> Prop :=
| ancestor_parent (h : uint256) :
    h ∈ in_pool_parents pool tx -> is_ancestor pool tx h
| ancestor_step (c h : uint256) (e : CTxMemPoolEntry) :
    is_ancestor pool tx c ->
    mapTx pool !! c = Some e ->
    h ∈ in_pool_parents pool (entry_tx e) ->
    is_ancestor pool tx h.

(** The caps of the accept path are exceeded for a transaction of size
    [txsize]: by the number or the size of the transaction with its in-pool
    ancestors, or by the number or size that one of the ancestors would
    reach with its descendants. *)
Definition chain_limits_exceeded (env : PoolEnv) (pool : CTxMemPool)
  (tx : CTransaction) (txsize : Z) : Prop :=
  Z.of_nat (size (pool_ancestors pool tx)) + 1 > nLimitAncestors env
  \/ pool_size_of pool (pool_ancestors pool tx) + txsize > nLimitAncestorSize env
  \/ exists a, a ∈ pool_ancestors pool tx
               /\ (GetCountWithDescendants pool a + 1 > nLimitDescendants env
                   \/ GetSizeWithDescendants pool a + txsize
                      > nLimitDescendantSize env).

(** The chain state after [demo_pow_block] has been connected on top of
    [demo_view], as [DisconnectTip] finds it: the connected view, the entry
    of the block with its undo position, the undo records on disk. *)
Definition demo_connected : Result (Connected demo_env) :=
  ConnectBlock demo_env (demo_pow_block 1000000005)
    (demo_index 8 (Some 1%positive) 100) (Some (demo_index 7 None 99))
    demo_view 0 false.

Definition demo_tip_state : TipState demo_env :=
  match demo_connected with
  | Ok c => Build_TipState demo_env (c_view c) (c_tokens c)
              (Some 2%positive) empty_pool
  | _ => Build_TipState demo_env demo_view 0 None empty_pool
  end.

Definition demo_tip_index : CBlockIndex :=
  match demo_connected with
  | Ok c => c_pindex c
  | _ => demo_index 8 (Some 1%positive) 100
  end.

Definition demo_disk_undo : option CBlockUndo :=
  match demo_connected with
  | Ok c => Some (c_blockundo c)
  | _ => None
  end.

Definition demo_disconnect_tip
  : Result (option DisconnectedBlockTransactions * TipState demo_env) :=
  DisconnectTip demo_env demo_pool_env (Some (demo_pow_block 1000000005))
    demo_tip_index (Some (demo_index 7 None 99)) demo_disk_undo (Some [])
    true (Some {| queuedTx := [] |}) demo_tip_state.

(** The transactions of a block that are neither coinbase nor coinstake. *)
Definition loose_transactions (txs : list CTransaction) : list CTransaction :=
  filter (fun tx => IsCoinBase tx || IsCoinStake tx = false) txs.

(** ** The block index and the candidate set *)

Record CBlockHeader := {
  hashPrevBlock : uint256;
  hdr_nTime : Z;
  hdr_nBits : Z }.

(** The globals of [validation.cpp] that hold the block tree.  The
    [CBlockIndex] objects live in [blocks], at the handles that
    [new CBlockIndex] returns ([next_block] is the next one); [chainTip] is
    [chainActive.Tip()], the active chain being the chain of [pprev] links
    that ends at the tip; [mapBlocksUnlinked] lists the pairs of the multimap in insertion order.
    Chain work is not reduced modulo [2^256]. *)
Record ChainState := {
  mapBlockIndex : gmap uint256 BlockHandle;
  blocks : gmap BlockHandle CBlockIndex;
  next_block : BlockHandle;
  chainTip : option BlockHandle;
  pindexBestHeader : option BlockHandle;
  pindexBestInvalid : option BlockHandle;
  setBlockIndexCandidates : gset BlockHandle;
  mapBlocksUnlinked : list (BlockHandle * BlockHandle);
  nBlockSequenceId : Z;
  g_failed_blocks : gset BlockHandle;
  setDirtyBlockIndex : gset BlockHandle }.

(** Blocks loaded from disk are assigned id 0, so start the counter at 1. *)
Definition initial_chain_state : ChainState := {|
  mapBlockIndex := ∅; blocks := ∅; next_block := 1%positive; chainTip := None;
  pindexBestHeader := None; pindexBestInvalid := None;
  setBlockIndexCandidates := ∅; mapBlocksUnlinked := [];
  nBlockSequenceId := 1; g_failed_blocks := ∅; setDirtyBlockIndex := ∅ |}.

Definition set_blocks (st : ChainState) (b : gmap BlockHandle CBlockIndex) : ChainState :=
  {| mapBlockIndex := mapBlockIndex st; blocks := b; next_block := next_block st;
     chainTip := chainTip st; pindexBestHeader := pindexBestHeader st;
     pindexBestInvalid := pindexBestInvalid st;
     setBlockIndexCandidates := setBlockIndexCandidates st;
     mapBlocksUnlinked := mapBlocksUnlinked st;
     nBlockSequenceId := nBlockSequenceId st;
     g_failed_blocks := g_failed_blocks st;
     setDirtyBlockIndex := setDirtyBlockIndex st |}.

Definition set_candidates (st : ChainState) (c : gset BlockHandle) : ChainState :=
  {| mapBlockIndex := mapBlockIndex st; blocks := blocks st;
     next_block := next_block st; chainTip := chainTip st;
     pindexBestHeader := pindexBestHeader st;
     pindexBestInvalid := pindexBestInvalid st;
     setBlockIndexCandidates := c;
     mapBlocksUnlinked := mapBlocksUnlinked st;
     nBlockSequenceId := nBlockSequenceId st;
     g_failed_blocks := g_failed_blocks st;
     setDirtyBlockIndex := setDirtyBlockIndex st |}.

Definition set_unlinked (st : ChainState) (u : list (BlockHandle * BlockHandle))
  : ChainState :=
  {| mapBlockIndex := mapBlockIndex st; blocks := blocks st;
     next_block := next_block st; chainTip := chainTip st;
     pindexBestHeader := pindexBestHeader st;
     pindexBestInvalid := pindexBestInvalid st;
     setBlockIndexCandidates := setBlockIndexCandidates st;
     mapBlocksUnlinked := u;
     nBlockSequenceId := nBlockSequenceId st;
     g_failed_blocks := g_failed_blocks st;
     setDirtyBlockIndex := setDirtyBlockIndex st |}.

Definition set_chainTip (st : ChainState) (t : option BlockHandle) : ChainState :=
  {| mapBlockIndex := mapBlockIndex st; blocks := blocks st;
     next_block := next_block st; chainTip := t;
     pindexBestHeader := pindexBestHeader st;
     pindexBestInvalid := pindexBestInvalid st;
     setBlockIndexCandidates := setBlockIndexCandidates st;
     mapBlocksUnlinked := mapBlocksUnlinked st;
     nBlockSequenceId := nBlockSequenceId st;
     g_failed_blocks := g_failed_blocks st;
     setDirtyBlockIndex := setDirtyBlockIndex st |}.

Definition set_pindexBestInvalid (st : ChainState) (p : option BlockHandle)
  : ChainState :=
  {| mapBlockIndex := mapBlockIndex st; blocks := blocks st;
     next_block := next_block st; chainTip := chainTip st;
     pindexBestHeader := pindexBestHeader st;
     pindexBestInvalid := p;
     setBlockIndexCandidates := setBlockIndexCandidates st;
     mapBlocksUnlinked := mapBlocksUnlinked st;
     nBlockSequenceId := nBlockSequenceId st;
     g_failed_blocks := g_failed_blocks st;
     setDirtyBlockIndex := setDirtyBlockIndex st |}.

Definition set_nBlockSequenceId (st : ChainState) (n : Z) : ChainState :=
  {| mapBlockIndex := mapBlockIndex st; blocks := blocks st;
     next_block := next_block st; chainTip := chainTip st;
     pindexBestHeader := pindexBestHeader st;
     pindexBestInvalid := pindexBestInvalid st;
     setBlockIndexCandidates := setBlockIndexCandidates st;
     mapBlocksUnlinked := mapBlocksUnlinked st;
     nBlockSequenceId := n;
     g_failed_blocks := g_failed_blocks st;
     setDirtyBlockIndex := setDirtyBlockIndex st |}.

Definition set_g_failed_blocks (st : ChainState) (f : gset BlockHandle) : ChainState :=
  {| mapBlockIndex := mapBlockIndex st; blocks := blocks st;
     next_block := next_block st; chainTip := chainTip st;
     pindexBestHeader := pindexBestHeader st;
     pindexBestInvalid := pindexBestInvalid st;
     setBlockIndexCandidates := setBlockIndexCandidates st;
     mapBlocksUnlinked := mapBlocksUnlinked st;
     nBlockSequenceId := nBlockSequenceId st;
     g_failed_blocks := f;
     setDirtyBlockIndex := setDirtyBlockIndex st |}.

(** Write the entry [e] at [p] and put [p] into [setDirtyBlockIndex]. *)
Definition store_dirty (st : ChainState) (p : BlockHandle) (e : CBlockIndex) : ChainState :=
  {| mapBlockIndex := mapBlockIndex st; blocks := <[p := e]> (blocks st);
     next_block := next_block st; chainTip := chainTip st;
     pindexBestHeader := pindexBestHeader st;
     pindexBestInvalid := pindexBestInvalid st;
     setBlockIndexCandidates := setBlockIndexCandidates st;
     mapBlocksUnlinked := mapBlocksUnlinked st;
     nBlockSequenceId := nBlockSequenceId st;
     g_failed_blocks := g_failed_blocks st;
     setDirtyBlockIndex := {[p]} ∪ setDirtyBlockIndex st |}.

(** Dereferencing a pointer to a block index entry. *)
Definition deref (st : ChainState) (p : BlockHandle) : Result CBlockIndex :=
  match blocks st !! p with
  | Some e => Ok e
  | None => Crash "dangling CBlockIndex*"
  end.

(** [nStatus |= BLOCK_FAILED_VALID], [nStatus |= BLOCK_FAILED_CHILD],
    [nStatus |= BLOCK_HAVE_DATA], [nStatus |= BLOCK_OPT_WITNESS]. *)
Definition or_FAILED_VALID (e : CBlockIndex) : CBlockIndex :=
  set_nStatus e {| VALID_LEVEL := VALID_LEVEL (nStatus e);
                   HAVE_DATA := HAVE_DATA (nStatus e);
                   HAVE_UNDO := HAVE_UNDO (nStatus e);
                   FAILED_VALID := true;
                   FAILED_CHILD := FAILED_CHILD (nStatus e);
                   OPT_WITNESS := OPT_WITNESS (nStatus e) |}.

Definition or_FAILED_CHILD (e : CBlockIndex) : CBlockIndex :=
  set_nStatus e {| VALID_LEVEL := VALID_LEVEL (nStatus e);
                   HAVE_DATA := HAVE_DATA (nStatus e);
                   HAVE_UNDO := HAVE_UNDO (nStatus e);
                   FAILED_VALID := FAILED_VALID (nStatus e);
                   FAILED_CHILD := true;
                   OPT_WITNESS := OPT_WITNESS (nStatus e) |}.

Definition or_HAVE_DATA (e : CBlockIndex) (witness : bool) : CBlockIndex :=
  set_nStatus e {| VALID_LEVEL := VALID_LEVEL (nStatus e);
                   HAVE_DATA := true;
                   HAVE_UNDO := HAVE_UNDO (nStatus e);
                   FAILED_VALID := FAILED_VALID (nStatus e);
                   FAILED_CHILD := FAILED_CHILD (nStatus e);
                   OPT_WITNESS := OPT_WITNESS (nStatus e) || witness |}.

(** [CBlockIndexWorkComparator]: [pa] sorts before [pb]. *)
Definition CBlockIndexWorkComparator (pa : BlockHandle) (a : CBlockIndex)
  (pb : BlockHandle) (b : CBlockIndex) : bool :=
  (* First sort by most total work, ... *)
  if nChainWork a >? nChainWork b then false
  else if nChainWork a <? nChainWork b then true
  (* ... then by earliest time received, ... *)
  else if nSequenceId a <? nSequenceId b then false
  else if nSequenceId a >? nSequenceId b then true
  (* Use pointer address as tie breaker *)
  else if (pa <? pb)%positive then false
  else if (pb <? pa)%positive then true
  (* Identical blocks. *)
  else false.

(** [setBlockIndexCandidates.value_comp()(pa, pb)]. *)
Definition value_comp (st : ChainState) (pa pb : BlockHandle) : bool :=
  match blocks st !! pa, blocks st !! pb with
  | Some a, Some b => CBlockIndexWorkComparator pa a pb b
  | _, _ => false
  end.

(** [chainActive.Tip()]. *)
Definition Tip (st : ChainState) : option BlockHandle := chainTip st.

(** Walk the [pprev] links from [from] looking for [p]. *)
Fixpoint on_chain (fuel : nat) (st : ChainState) (from : option BlockHandle)
  (p : BlockHandle) : bool :=
  match from with
  | None => false
  | Some q =>
      if bool_decide (q = p) then true
      else
        match fuel, blocks st !! q with
        | S fuel', Some e => on_chain fuel' st (pprev e) p
        | _, _ => false
        end
  end.

(** Modelled from the spec: [chainActive.Contains(pindex)] of [chain.h]: the
    entry is on the active chain, the chain that ends at the tip. *)
Definition Contains (st : ChainState) (p : BlockHandle) : bool :=
  on_chain (size (blocks st)) st (chainTip st) p.

(** [*setBlockIndexCandidates.rbegin()] and [*setBlockIndexCandidates.begin()]:
    the last and the first candidate in the order of the comparator. *)
Definition best_candidate (st : ChainState) : option BlockHandle :=
  foldr (fun p acc => match acc with
                      | Some q => if value_comp st q p then Some p else Some q
                      | None => Some p
                      end) None (elements (setBlockIndexCandidates st)).

Definition worst_candidate (st : ChainState) : option BlockHandle :=
  foldr (fun p acc => match acc with
                      | Some q => if value_comp st p q then Some p else Some q
                      | None => Some p
                      end) None (elements (setBlockIndexCandidates st)).

(** What the block index needs from other translation units. *)
Record IndexEnv := {
  idx_hashGenesisBlock : uint256;
  GetBlockProof : CBlockHeader -> Z;
  CheckBlockHeader : CBlockHeader -> Result unit;
  ContextualCheckBlockHeader : CBlockHeader -> ChainState -> BlockHandle -> Result unit;
  IsWitnessEnabled : ChainState -> option BlockHandle -> bool }.

(** ** [AddToBlockIndex] *)

(** [AddToBlockIndex(block, hash)]: the entry for the header and the state
    with it. *)
Definition AddToBlockIndex (env : IndexEnv) (block : CBlockHeader) (hash : uint256)
  (st : ChainState) : BlockHandle * ChainState :=
  (* Check for duplicate *)
  match mapBlockIndex st !! hash with
  | Some p => (p, st)
  | None =>
      (* Construct new block index object *)
      let pindexNew := next_block st in
      let miPrev := mapBlockIndex st !! hashPrevBlock block in
      let prev := match miPrev with
                  | Some q => blocks st !! q
                  | None => None
                  end in
      let entry :=
        {| phashBlock := Some hash;
           pprev := match prev with Some _ => miPrev | None => None end;
           nHeight := match prev with Some e => nHeight e + 1 | None => 0 end;
           nChainWork := match prev with Some e => nChainWork e | None => 0 end
                         + GetBlockProof env block;
           nTx := 0; nChainTx := 0;
           nStatus := {| VALID_LEVEL := BLOCK_VALID_UNKNOWN; HAVE_DATA := false;
                         HAVE_UNDO := false; FAILED_VALID := false;
                         FAILED_CHILD := false; OPT_WITNESS := false |};
           (* We assign the sequence id to blocks only when the full data
              is available *)
           nSequenceId := 0;
           nTime := hdr_nTime block;
           nTimeMax := match prev with
                       | Some e => Z.max (nTimeMax e) (hdr_nTime block)
                       | None => hdr_nTime block
                       end;
           nFile := 0; nDataPos := 0; nUndoPos := 0; fProofOfStake := false;
           nStakeModifier := 0 |} in
      let entry := RaiseValidity entry BLOCK_VALID_TREE in
      let best :=
        match pindexBestHeader st with
        | None => Some pindexNew
        | Some h =>
            match blocks st !! h with
            | Some he => if nChainWork he <? nChainWork entry
                         then Some pindexNew else Some h
            | None => Some h
            end
        end in
      (pindexNew,
       {| mapBlockIndex := <[hash := pindexNew]> (mapBlockIndex st);
          blocks := <[pindexNew := entry]> (blocks st);
          next_block := Pos.succ pindexNew;
          chainTip := chainTip st;
          pindexBestHeader := best;
          pindexBestInvalid := pindexBestInvalid st;
          setBlockIndexCandidates := setBlockIndexCandidates st;
          mapBlocksUnlinked := mapBlocksUnlinked st;
          nBlockSequenceId := nBlockSequenceId st;
          g_failed_blocks := g_failed_blocks st;
          setDirtyBlockIndex := {[pindexNew]} ∪ setDirtyBlockIndex st |})
  end.

(** ** [ReceivedBlockTransactions] *)

(** The fields that [ReceivedBlockTransactions] writes first. *)
Definition receive_data (e : CBlockIndex) (isProofOfStake : bool) (ntx : Z)
  (file pos : Z) (witness : bool) : CBlockIndex :=
  let e1 :=
    {| phashBlock := phashBlock e; pprev := pprev e; nHeight := nHeight e;
       nChainWork := nChainWork e; nTx := ntx; nChainTx := 0;
       nStatus := nStatus e; nSequenceId := nSequenceId e; nTime := nTime e;
       nTimeMax := nTimeMax e; nFile := file; nDataPos := pos; nUndoPos := 0;
       fProofOfStake := fProofOfStake e || isProofOfStake;
       nStakeModifier := nStakeModifier e |} in
  RaiseValidity (or_HAVE_DATA e1 witness) BLOCK_VALID_TRANSACTIONS.

(** [pindex->nChainTx = ...; pindex->nSequenceId = nBlockSequenceId++;] *)
Definition link_entry (e : CBlockIndex) (prevChainTx : Z) (seq : Z) : CBlockIndex :=
  {| phashBlock := phashBlock e; pprev := pprev e; nHeight := nHeight e;
     nChainWork := nChainWork e; nTx := nTx e;
     nChainTx := prevChainTx + nTx e;
     nStatus := nStatus e; nSequenceId := seq; nTime := nTime e;
     nTimeMax := nTimeMax e; nFile := nFile e; nDataPos := nDataPos e;
     nUndoPos := nUndoPos e; fProofOfStake := fProofOfStake e;
     nStakeModifier := nStakeModifier e |}.

(** [while (!queue.empty())]: recursively process any descendant blocks that
    now may be eligible to be connected.  Every round takes one entry from
    the queue and moves its children from [mapBlocksUnlinked] to the queue;
    the entries processed are returned in order with the state. *)
Fixpoint link_descendants (fuel : nat) (queue : list BlockHandle) (st : ChainState)
  : Result (ChainState * list BlockHandle) :=
  match queue with
  | [] => Ok (st, [])
  | pindex :: rest =>
      match fuel with
      | O => Crash "out of fuel"
      | S fuel' =>
          e ← deref st pindex;
          prevChainTx ←
            match pprev e with
            | Some q => pe ← deref st q; Ok (nChainTx pe)
            | None => Ok 0
            end;
          let st1 :=
            set_nBlockSequenceId
              (set_blocks st
                 (<[pindex := link_entry e prevChainTx (nBlockSequenceId st)]>
                    (blocks st)))
              (nBlockSequenceId st + 1) in
          let st2 :=
            match Tip st1 with
            | None => set_candidates st1 ({[pindex]} ∪ setBlockIndexCandidates st1)
            | Some tip =>
                if negb (value_comp st1 pindex tip)
                then set_candidates st1 ({[pindex]} ∪ setBlockIndexCandidates st1)
                else st1
            end in
          let children :=
            map snd (filter (fun kv => fst kv = pindex) (mapBlocksUnlinked st2)) in
          let st3 :=
            set_unlinked st2
              (filter (fun kv => fst kv <> pindex) (mapBlocksUnlinked st2)) in
          '(st', visited) ← link_descendants fuel' (rest ++ children) st3;
          Ok (st', pindex :: visited)
      end
  end.

(** [ReceivedBlockTransactions(block, state, pindexNew, pos, consensusParams)]:
    mark a block as having its data received and checked (up to
    [BLOCK_VALID_TRANSACTIONS]).  [ntx] is [block.vtx.size()].  The entries
    that were linked, in order, are returned with the state. *)
Definition ReceivedBlockTransactions (env : IndexEnv) (isProofOfStake : bool)
  (ntx : Z) (pindexNew : BlockHandle) (file pos : Z) (st : ChainState)
  : Result (ChainState * list BlockHandle) :=
  e ← deref st pindexNew;
  let e1 := receive_data e isProofOfStake ntx file pos
              (IsWitnessEnabled env st (pprev e)) in
  let st1 := store_dirty st pindexNew e1 in
  match pprev e1 with
  | Some q =>
      pe ← deref st1 q;
      if negb (nChainTx pe =? 0) then
        (* all parents are BLOCK_VALID_TRANSACTIONS *)
        link_descendants (S (length (mapBlocksUnlinked st1))) [pindexNew] st1
      else if IsValid pe BLOCK_VALID_TREE then
        Ok (set_unlinked st1 (mapBlocksUnlinked st1 ++ [(q, pindexNew)]), [])
      else Ok (st1, [])
  | None =>
      (* pindexNew is the genesis block *)
      link_descendants (S (length (mapBlocksUnlinked st1))) [pindexNew] st1
  end.

(** ** [InvalidBlockFound], [FindMostWorkChain], [PruneBlockIndexCandidates] *)

(** [InvalidChainFound(pindexNew)], without its log lines. *)
Definition InvalidChainFound (st : ChainState) (pindexNew : BlockHandle)
  : Result ChainState :=
  e ← deref st pindexNew;
  better ←
    (match pindexBestInvalid st with
     | None => Ok true
     | Some b => be ← deref st b; Ok (nChainWork e >? nChainWork be)
     end : Result bool);
  assert (bool_decide (is_Some (Tip st))) "tip";;
  Ok (if (better : bool) then set_pindexBestInvalid st (Some pindexNew) else st).

(** [InvalidBlockFound(pindex, state)]. *)
Definition InvalidBlockFound (st : ChainState) (pindex : BlockHandle)
  (corruptionPossible : bool) : Result ChainState :=
  if corruptionPossible then Ok st
  else
    e ← deref st pindex;
    let st1 := store_dirty st pindex (or_FAILED_VALID e) in
    let st2 := set_g_failed_blocks st1 ({[pindex]} ∪ g_failed_blocks st1) in
    let st3 := set_candidates st2 (setBlockIndexCandidates st2 ∖ {[pindex]}) in
    InvalidChainFound st3 pindex.

(** The inner loop of [FindMostWorkChain]: walk from the candidate towards
    the active chain; report the first entry that is failed or lacks data. *)
Fixpoint find_invalid_ancestor (fuel : nat) (st : ChainState)
  (pindexTest : option BlockHandle) : Result (option (BlockHandle * bool * bool)) :=
  match pindexTest with
  | None => Ok None
  | Some t =>
      if Contains st t then Ok None
      else
        match fuel with
        | O => Crash "out of fuel"
        | S fuel' =>
            e ← deref st t;
            assert (negb (nChainTx e =? 0) || (nHeight e =? 0))
              "pindexTest->nChainTx || pindexTest->nHeight == 0";;
            let fFailedChain := FAILED_MASK (nStatus e) in
            let fMissingData := negb (HAVE_DATA (nStatus e)) in
            if fFailedChain || fMissingData
            then Ok (Some (t, fFailedChain, fMissingData))
            else find_invalid_ancestor fuel' st (pprev e)
        end
  end.

(** [while (pindexTest != pindexFailed)]: remove the entire chain from the
    set. *)
Fixpoint remove_failed_chain (fuel : nat) (st : ChainState)
  (pindexFailed pindexTest : BlockHandle) (fFailedChain fMissingData : bool)
  : Result ChainState :=
  if bool_decide (pindexTest = pindexFailed) then Ok st
  else
    match fuel with
    | O => Crash "out of fuel"
    | S fuel' =>
        e ← deref st pindexFailed;
        match pprev e with
        | None => Crash "pindexFailed->pprev"
        | Some q =>
            let st1 :=
              if fFailedChain
              then set_blocks st (<[pindexFailed := or_FAILED_CHILD e]> (blocks st))
              else if fMissingData
              then set_unlinked st (mapBlocksUnlinked st ++ [(q, pindexFailed)])
              else st in
            let st2 :=
              set_candidates st1 (setBlockIndexCandidates st1 ∖ {[pindexFailed]}) in
            remove_failed_chain fuel' st2 q pindexTest fFailedChain fMissingData
        end
    end.

(** The [do ... while (true)] of [FindMostWorkChain]. *)
Fixpoint FindMostWorkChain_loop (fuel : nat) (st : ChainState)
  : Result (option BlockHandle * ChainState) :=
  (* Find the best candidate header. *)
  match best_candidate st with
  | None => Ok (None, st)
  | Some pindexNew =>
      match fuel with
      | O => Crash "out of fuel"
      | S fuel' =>
          found ← find_invalid_ancestor (S (size (blocks st))) st (Some pindexNew);
          match found with
          | None => Ok (Some pindexNew, st)
          | Some (pindexTest, fFailedChain, fMissingData) =>
              (* Candidate chain is not usable (either invalid or missing
                 data) *)
              st1 ←
                (if fFailedChain then
                   match pindexBestInvalid st with
                   | None => Ok (set_pindexBestInvalid st (Some pindexNew))
                   | Some b =>
                       e ← deref st pindexNew;
                       be ← deref st b;
                       Ok (if nChainWork e >? nChainWork be
                           then set_pindexBestInvalid st (Some pindexNew)
                           else st)
                   end
                 else Ok st);
              st2 ← remove_failed_chain (S (size (blocks st))) st1 pindexNew
                      pindexTest fFailedChain fMissingData;
              let st3 :=
                set_candidates st2 (setBlockIndexCandidates st2 ∖ {[pindexTest]}) in
              FindMostWorkChain_loop fuel' st3
          end
      end
  end.

(** [FindMostWorkChain()]: the tip of the chain with the most work in it,
    that isn't known to be invalid. *)
Definition FindMostWorkChain (st : ChainState) : Result (option BlockHandle * ChainState) :=
  FindMostWorkChain_loop (S (size (setBlockIndexCandidates st))) st.

(** The loop of [PruneBlockIndexCandidates]: erase from the front of the set
    while the front sorts before the tip. *)
Fixpoint prune_candidates (fuel : nat) (st : ChainState) (tip : BlockHandle)
  : ChainState :=
  match fuel with
  | O => st
  | S fuel' =>
      match worst_candidate st with
      | Some p =>
          if value_comp st p tip
          then prune_candidates fuel'
                 (set_candidates st (setBlockIndexCandidates st ∖ {[p]})) tip
          else st
      | None => st
      end
  end.

(** [PruneBlockIndexCandidates()]: delete all entries in
    [setBlockIndexCandidates] that are worse than the current tip. *)
Definition PruneBlockIndexCandidates (st : ChainState) : Result ChainState :=
  match Tip st with
  | None => Crash "chainActive.Tip()"
  | Some tip =>
      let st' := prune_candidates (size (setBlockIndexCandidates st)) st tip in
      (* Either the current tip or a successor of it we're working towards
         is left in setBlockIndexCandidates. *)
      assert (negb (bool_decide (setBlockIndexCandidates st' = ∅)))
        "!setBlockIndexCandidates.empty()";;
      Ok st'
  end.

(** ** Moving the tip *)

(** What [ConnectBlock] may change in the entry of the block it connects:
    the stake modifier, the undo position with [BLOCK_HAVE_UNDO], and the
    validity level, which it raises. *)
Definition connect_updates (old new : CBlockIndex) : Prop :=
  phashBlock new = phashBlock old /\ pprev new = pprev old
  /\ nHeight new = nHeight old /\ nChainWork new = nChainWork old
  /\ nTx new = nTx old /\ nChainTx new = nChainTx old
  /\ nSequenceId new = nSequenceId old
  /\ validity_rank (VALID_LEVEL (nStatus old))
     <= validity_rank (VALID_LEVEL (nStatus new))
  /\ HAVE_DATA (nStatus new) = HAVE_DATA (nStatus old)
  /\ FAILED_VALID (nStatus new) = FAILED_VALID (nStatus old)
  /\ FAILED_CHILD (nStatus new) = FAILED_CHILD (nStatus old).

(** The block index side of a successful [ConnectTip(pindexNew)] followed by
    the [PruneBlockIndexCandidates()] of [ActivateBestChainStep]:
    [connected] is the entry as [ConnectBlock] leaves it. *)
Definition ConnectTip_index (st : ChainState) (pindexNew : BlockHandle)
  (connected : CBlockIndex) : Result ChainState :=
  e ← deref st pindexNew;
  assert (bool_decide (pprev e = Tip st)) "pindexNew->pprev == chainActive.Tip()";;
  (* Update chainActive & related variables. *)
  let st1 := set_chainTip (store_dirty st pindexNew connected) (Some pindexNew) in
  PruneBlockIndexCandidates st1.

(** The block index side of a [ConnectTip(pindexNew)] that fails in
    [ConnectBlock] with an invalid state. *)
Definition ConnectTip_invalid (st : ChainState) (pindexNew : BlockHandle)
  (corruptionPossible : bool) : Result ChainState :=
  e ← deref st pindexNew;
  assert (bool_decide (pprev e = Tip st)) "pindexNew->pprev == chainActive.Tip()";;
  InvalidBlockFound st pindexNew corruptionPossible.

(** The block index side of [DisconnectTip]: [UpdateTip(pindexDelete->pprev)]. *)
Definition DisconnectTip_index (st : ChainState) : Result ChainState :=
  match Tip st with
  | None => Crash "assert(pindexDelete)"
  | Some pindexDelete =>
      e ← deref st pindexDelete;
      Ok (set_chainTip st (pprev e))
  end.

(** ** [AcceptBlockHeader] *)

(** Modelled from the spec: [CBlockIndex::GetAncestor(height)] of
    [chain.cpp]: the ancestor at height [h] (section 4.1), a null pointer
    when [h] is negative or above the entry. *)
Fixpoint GetAncestor (fuel : nat) (st : ChainState) (p : BlockHandle) (height : Z)
  : option BlockHandle :=
  match blocks st !! p with
  | None => None
  | Some e =>
      if (height <? 0) || (nHeight e <? height) then None
      else if nHeight e =? height then Some p
      else
        match fuel, pprev e with
        | S fuel', Some q => GetAncestor fuel' st q height
        | _, _ => None
        end
  end.

(** [while (invalid_walk != failedit)]: mark the chain from the predecessor
    up to the failed block. *)
Fixpoint mark_failed_children (fuel : nat) (st : ChainState)
  (invalid_walk failedit : BlockHandle) : Result ChainState :=
  if bool_decide (invalid_walk = failedit) then Ok st
  else
    match fuel with
    | O => Crash "out of fuel"
    | S fuel' =>
        e ← deref st invalid_walk;
        let st1 := store_dirty st invalid_walk (or_FAILED_CHILD e) in
        match pprev e with
        | None => Crash "invalid_walk->pprev"
        | Some q => mark_failed_children fuel' st1 q failedit
        end
    end.

(** [for (const CBlockIndex* failedit : g_failed_blocks)]: the first failed
    block, in the order of the set, that is an ancestor of [pindexPrev]. *)
Fixpoint find_failed_ancestor (st : ChainState) (pindexPrev : BlockHandle)
  (failed : list BlockHandle) : Result (option BlockHandle) :=
  match failed with
  | [] => Ok None
  | failedit :: rest =>
      fe ← deref st failedit;
      if bool_decide (GetAncestor (size (blocks st)) st pindexPrev (nHeight fe)
                      = Some failedit)
      then Ok (Some failedit)
      else find_failed_ancestor st pindexPrev rest
  end.

(** [AcceptBlockHeader(block, state, hash, chainparams, ppindex)]: the
    result and the state it leaves. *)
Definition AcceptBlockHeader (env : IndexEnv) (block : CBlockHeader) (hash : uint256)
  (st : ChainState) : Result BlockHandle * ChainState :=
  let add := let '(p, st') := AddToBlockIndex env block hash st in (Ok p, st') in
  if bool_decide (hash = idx_hashGenesisBlock env) then add
  else
    (* Check for duplicate *)
    match mapBlockIndex st !! hash with
    | Some pindex =>
        (* Block header is already known. *)
        match blocks st !! pindex with
        | None => (Crash "dangling CBlockIndex*", st)
        | Some e =>
            if FAILED_MASK (nStatus e) then (Reject 0 REJECT_ZERO "duplicate", st)
            else (Ok pindex, st)
        end
    | None =>
        match CheckBlockHeader env block with
        | Ok _ =>
            (* Get prev block index *)
            match mapBlockIndex st !! hashPrevBlock block with
            | None => (Reject 10 REJECT_ZERO "prev-blk-not-found", st)
            | Some pindexPrev =>
                match blocks st !! pindexPrev with
                | None => (Crash "dangling CBlockIndex*", st)
                | Some pe =>
                    if FAILED_MASK (nStatus pe)
                    then (Reject 100 REJECT_INVALID "bad-prevblk", st)
                    else
                      match ContextualCheckBlockHeader env block st pindexPrev with
                      | Ok _ =>
                          if IsValid pe BLOCK_VALID_SCRIPTS then add
                          else
                            match find_failed_ancestor st pindexPrev
                                    (merge_sort Pos.le (elements (g_failed_blocks st))) with
                            | Ok None => add
                            | Ok (Some failedit) =>
                                match blocks st !! failedit with
                                | Some fe =>
                                    if FAILED_VALID (nStatus fe) then
                                      match mark_failed_children (size (blocks st))
                                              st pindexPrev failedit with
                                      | Ok st' =>
                                          (Reject 100 REJECT_INVALID "bad-prevblk", st')
                                      | _ => (Crash "invalid_walk", st)
                                      end
                                    else (Crash "failedit->nStatus & BLOCK_FAILED_VALID", st)
                                | None => (Crash "dangling CBlockIndex*", st)
                                end
                            | _ => (Crash "dangling CBlockIndex*", st)
                            end
                      | Reject d c r => (Reject d c r, st)
                      | Error w => (Error w, st)
                      | Abort m => (Abort m, st)
                      | Crash w => (Crash w, st)
                      end
                end
            end
        | Reject d c r => (Reject d c r, st)
        | Error w => (Error w, st)
        | Abort m => (Abort m, st)
        | Crash w => (Crash w, st)
        end
    end.

(** ** Well-formed block trees, and the states the node can reach *)

(** No pointer of the block index dangles: every [pprev] and every entry of
    [mapBlocksUnlinked] points to an entry. *)
Definition index_closed (st : ChainState) : Prop :=
  (forall p e q, blocks st !! p = Some e -> pprev e = Some q ->
                 is_Some (blocks st !! q))
  /\ (forall k c, (k, c) ∈ mapBlocksUnlinked st -> is_Some (blocks st !! c)).

(** [l] lists the entries from [p] down the [pprev] links to [q], [q] not
    included. *)
Inductive pprev_path (st : ChainState) : BlockHandle -> list BlockHandle -> BlockHandle -> Prop :=
| pprev_path_nil (p : BlockHandle) : pprev_path st p [] p
| pprev_path_cons (p q r : BlockHandle) (e : CBlockIndex) (l : list BlockHandle) :
    p <> r ->
    blocks st !! p = Some e ->
    pprev e = Some q ->
    pprev_path st q l r ->
    pprev_path st p (p :: l) r.

(** The steps of the block index: a header is accepted (or refused), the
    data of a block that is not marked failed is received, the best
    candidate is looked up, the tip is connected, found invalid, or
    disconnected. *)
Inductive index_step (env : IndexEnv) (st : ChainState) : ChainState -> Prop :=
| step_AcceptBlockHeader (block : CBlockHeader) (hash : uint256)
    (r : Result BlockHandle) (st' : ChainState) :
    AcceptBlockHeader env block hash st = (r, st') ->
    index_step env st st'
| step_ReceivedBlockTransactions (isProofOfStake : bool) (ntx : Z)
    (p : BlockHandle) (file pos : Z) (e : CBlockIndex) (st' : ChainState)
    (visited : list BlockHandle) :
    blocks st !! p = Some e ->
    FAILED_MASK (nStatus e) = false ->
    ReceivedBlockTransactions env isProofOfStake ntx p file pos st = Ok (st', visited) ->
    index_step env st st'
| step_FindMostWorkChain (r : option BlockHandle) (st' : ChainState) :
    FindMostWorkChain st = Ok (r, st') ->
    index_step env st st'
| step_ConnectTip (p : BlockHandle) (e e' : CBlockIndex) (st' : ChainState) :
    blocks st !! p = Some e ->
    connect_updates e e' ->
    ConnectTip_index st p e' = Ok st' ->
    index_step env st st'
| step_ConnectTip_invalid (p : BlockHandle) (corruptionPossible : bool)
    (st' : ChainState) :
    ConnectTip_invalid st p corruptionPossible = Ok st' ->
    index_step env st st'
| step_DisconnectTip (st' : ChainState) :
    DisconnectTip_index st = Ok st' ->
    index_step env st st'.

Definition reachable (env : IndexEnv) (st : ChainState) : Prop :=
  rtc (index_step env) initial_chain_state st.

(** ** A three block tree *)

Definition demo_index_env : IndexEnv := {|
  idx_hashGenesisBlock := 1;
  GetBlockProof := fun _ => 1;
  CheckBlockHeader := fun _ => Ok tt;
  ContextualCheckBlockHeader := fun _ _ _ => Ok tt;
  IsWitnessEnabled := fun _ _ => false |}.

Definition demo_header (prev : uint256) : CBlockHeader :=
  {| hashPrevBlock := prev; hdr_nTime := 0; hdr_nBits := 0 |}.

(** The genesis block (hash 1, handle 1) is received and connected. *)
Definition demo_chain_1 : ChainState :=
  let st1 := snd (AcceptBlockHeader demo_index_env (demo_header 0) 1
                    initial_chain_state) in
  match ReceivedBlockTransactions demo_index_env false 1 1%positive 0 0 st1 with
  | Ok (st2, _) =>
      match blocks st2 !! 1%positive with
      | Some e =>
          match ConnectTip_index st2 1%positive e with
          | Ok st3 => st3
          | _ => st2
          end
      | None => st2
      end
  | _ => st1
  end.

(** Block [a] (hash 2, handle 2) is received on top of the genesis block,
    and the header of its child [b] (hash 3, handle 3) is accepted. *)
Definition demo_chain_2 : ChainState :=
  let st1 := snd (AcceptBlockHeader demo_index_env (demo_header 1) 2 demo_chain_1) in
  match ReceivedBlockTransactions demo_index_env false 1 2%positive 0 100 st1 with
  | Ok (st2, _) => snd (AcceptBlockHeader demo_index_env (demo_header 2) 3 st2)
  | _ => st1
  end.

(** [a] fails to connect and is marked, then the data of [b] arrives. *)
Definition demo_chain_3 : ChainState :=
  match ConnectTip_invalid demo_chain_2 2%positive false with
  | Ok st1 => st1
  | _ => demo_chain_2
  end.

Definition demo_chain_4 : ChainState :=
  match ReceivedBlockTransactions demo_index_env false 1 3%positive 0 200
          demo_chain_3 with
  | Ok (st1, _) => st1
  | _ => demo_chain_3
  end.

(** What [link_descendants] has done when it returns [st'] and the entries
    [visited], from the state [st] and the queue [queue]. *)
Definition linked (st : ChainState) (queue : list BlockHandle) (st' : ChainState)
  (visited : list BlockHandle) : Prop :=
  nBlockSequenceId st' = nBlockSequenceId st + Z.of_nat (length visited)
  /\ (exists more, visited = queue ++ more)
  /\ (forall v, v ∈ visited ->
        v ∈ queue \/ exists k, k ∈ visited /\ (k, v) ∈ mapBlocksUnlinked st)
  /\ (forall v, v ∈ visited ->
        exists e', blocks st' !! v = Some e'
                   /\ nBlockSequenceId st <= nSequenceId e' < nBlockSequenceId st')
  /\ (forall v, v ∉ visited -> blocks st' !! v = blocks st !! v)
  /\ (forall v e', blocks st' !! v = Some e' ->
        exists e, blocks st !! v = Some e
                  /\ (e' = e \/ exists c s, e' = link_entry e c s))
  /\ (forall c, c ∈ setBlockIndexCandidates st' ->
        c ∈ setBlockIndexCandidates st
        \/ (c ∈ visited
            /\ forall t e' te', chainTip st = Some t ->
                 blocks st' !! c = Some e' -> blocks st' !! t = Some te' ->
                 nChainWork te' <= nChainWork e'))
  /\ setBlockIndexCandidates st ⊆ setBlockIndexCandidates st'
  /\ (forall kc, kc ∈ mapBlocksUnlinked st' -> kc ∈ mapBlocksUnlinked st)
  /\ chainTip st' = chainTip st
  /\ mapBlockIndex st' = mapBlockIndex st
  /\ next_block st' = next_block st
  /\ g_failed_blocks st' = g_failed_blocks st.

(** [index_closed], decided. *)
Definition index_closedb (st : ChainState) : bool :=
  forallb (fun pe : BlockHandle * CBlockIndex =>
             match pprev (snd pe) with
             | Some q => bool_decide (is_Some (blocks st !! q))
             | None => true
             end) (map_to_list (blocks st))
  && forallb (fun kc : BlockHandle * BlockHandle =>
                bool_decide (is_Some (blocks st !! snd kc)))
       (mapBlocksUnlinked st).

(** Every entry of [g_failed_blocks] is an entry of the block index that is
    marked [BLOCK_FAILED_VALID], which is what [AcceptBlockHeader] asserts
    of the entry it finds. *)
Definition failed_blocks_marked (st : ChainState) : bool :=
  forallb (fun f => match blocks st !! f with
                    | Some fe => FAILED_VALID (nStatus fe)
                    | None => false
                    end) (elements (g_failed_blocks st)).

(** ** The invariant of the block index *)

(** Predecessors are entries with no more work; the tip is an entry; an
    entry with [BLOCK_HAVE_DATA] has reached [BLOCK_VALID_TRANSACTIONS]; the
    entries that wait in [mapBlocksUnlinked] and the candidates have their
    data; new entries get fresh handles. *)
Definition index_inv0 (st : ChainState) : Prop :=
  (forall p e q, blocks st !! p = Some e -> pprev e = Some q ->
     exists qe, blocks st !! q = Some qe /\ nChainWork qe <= nChainWork e)
  /\ (forall t, chainTip st = Some t -> is_Some (blocks st !! t))
  /\ (forall p e, blocks st !! p = Some e -> HAVE_DATA (nStatus e) = true ->
        validity_rank BLOCK_VALID_TRANSACTIONS
        <= validity_rank (VALID_LEVEL (nStatus e)))
  /\ (forall k c, (k, c) ∈ mapBlocksUnlinked st ->
        exists e, blocks st !! c = Some e /\ HAVE_DATA (nStatus e) = true)
  /\ (forall c, c ∈ setBlockIndexCandidates st ->
        exists e, blocks st !! c = Some e /\ HAVE_DATA (nStatus e) = true)
  /\ (forall p, is_Some (blocks st !! p) -> (p < next_block st)%positive).

(** No candidate has less work than the tip. *)
Definition candidates_work (st : ChainState) : Prop :=
  forall c e t te,
    c ∈ setBlockIndexCandidates st -> blocks st !! c = Some e ->
    chainTip st = Some t -> blocks st !! t = Some te ->
    nChainWork te <= nChainWork e.

Definition index_inv (st : ChainState) : Prop :=
  index_inv0 st /\ candidates_work st.

(** An entry after an update that keeps the predecessor, the work and the
    data flag. *)
Definition entry_kept (e e' : CBlockIndex) : Prop :=
  pprev e' = pprev e
  /\ nChainWork e' = nChainWork e
  /\ (HAVE_DATA (nStatus e) = true -> HAVE_DATA (nStatus e') = true)
  /\ (HAVE_DATA (nStatus e') = true ->
      validity_rank BLOCK_VALID_TRANSACTIONS
      <= validity_rank (VALID_LEVEL (nStatus e'))).

(** A state after updates that keep the entries in that sense, add no
    entry, and add nothing to the candidates or to [mapBlocksUnlinked]. *)
Definition index_kept (st st' : ChainState) : Prop :=
  (forall v e, blocks st !! v = Some e ->
     exists e', blocks st' !! v = Some e' /\ entry_kept e e')
  /\ (forall v, blocks st !! v = None -> blocks st' !! v = None)
  /\ chainTip st' = chainTip st
  /\ (forall kc, kc ∈ mapBlocksUnlinked st' -> kc ∈ mapBlocksUnlinked st)
  /\ setBlockIndexCandidates st' ⊆ setBlockIndexCandidates st
  /\ next_block st' = next_block st.

(** ** The undo round trip: what it needs from the state before the block *)

(** The coins that [AddCoins] stores for the outputs [outs] of [tx],
    numbered from [i]: one for each output that is not unspendable. *)
Fixpoint new_coins (env : Env) (tx : CTransaction) (height : Z) (i : Z)
  (outs : list CTxOut) : list (COutPoint * Coin) :=
  match outs with
  | [] => []
  | o :: rest =>
      if IsUnspendable env (scriptPubKey o)
      then new_coins env tx height (i + 1) rest
      else ({| op_hash := tx_hash tx; op_n := i |},
            {| out := o; coin_nHeight := height; fCoinBase := IsCoinBase tx;
               fCoinStake := IsCoinStake tx; coin_nTime := tx_nTime tx |})
           :: new_coins env tx height (i + 1) rest
  end.

(** Every coin of the view carries its height (as every coin written since
    the undo format has had it) and a script that is not unspendable
    ([AddCoin] stores no other). *)
Definition view_spendable (env : Env) (coins : gmap COutPoint Coin) : Prop :=
  forall o c, coins !! o = Some c ->
    coin_nHeight c <> 0 /\ IsUnspendable env (scriptPubKey (out c)) = false.

(** What the round trip needs from the token cache, which is not part of
    the sources at hand: spending a coin does nothing to it unless tokens
    are deployed and the coin holds a token, and then [UndoTokenCoin] takes
    it back; the removals that [DisconnectBlock] performs for a transaction
    take back what [AddCoins] did for it, given the undo entry that
    [AddCoins] produced. *)
Record TokenLaws (env : Env) : Prop := {
  spend_other :
    forall t o c, AreTokensDeployed env && coin_IsToken env c = false ->
                  tok_SpendCoin env t o c = t;
  spend_undo :
    forall t o c, AreTokensDeployed env && coin_IsToken env c = true ->
                  UndoTokenCoin env (tok_SpendCoin env t o c) c o = (true, t);
  add_inactive :
    forall t tx h, AreTokensDeployed env = false ->
                   fst (tok_AddCoins env t tx h) = t;
  add_undo :
    forall t tx h vUndoData,
      AreTokensDeployed env = true ->
      (forall u, snd (tok_AddCoins env t tx h) = Some u -> u ∈ vUndoData) ->
      tok_DisconnectTx env (fst (tok_AddCoins env t tx h)) tx vUndoData = Some t }.
(* ===================================================================== *)
(** * Part II: theorems *)
(* ===================================================================== *)

(** ** Proof of work *)

(** C9: [CheckProofOfWork] returns [true] exactly when the target decoded
    from [nBits] is non-negative, non-zero, non-overflowing and at most
    [powLimit], and the hash, read as an unsigned 256-bit number, is at most
    that target; it returns [false] for every other input. *)
Theorem CheckProofOfWork_iff (SetCompact : Z -> CompactTarget)
  (hash nBits powLimit : Z) :
  CheckProofOfWork SetCompact hash nBits powLimit = true
  <-> (fNegative (SetCompact nBits) = false
       /\ bnTarget (SetCompact nBits) <> 0
       /\ fOverflow (SetCompact nBits) = false
       /\ bnTarget (SetCompact nBits) <= powLimit
       /\ hash <= bnTarget (SetCompact nBits)).
Proof.
  unfold CheckProofOfWork.
  destruct (SetCompact nBits) as [t neg ov]; simpl.
  destruct neg, ov; simpl;
    destruct (Z.eqb_spec t 0); simpl;
    destruct (Z.gtb_spec t powLimit); simpl;
    destruct (Z.gtb_spec hash t); simpl;
    intuition (try discriminate; try lia).
Qed.

(** The genesis-style target [0x1d00ffff] accepts a hash below it and
    refuses a negative, a zero and an overflowing encoding. *)
Example CheckProofOfWork_examples :
  CheckProofOfWork SetCompact_std (2 ^ 200) 486604799 (2 ^ 224) = true
  /\ CheckProofOfWork SetCompact_std (2 ^ 224) 486604799 (2 ^ 224) = false
  /\ CheckProofOfWork SetCompact_std 1 (486604799 + 8388608) (2 ^ 224) = false
  /\ CheckProofOfWork SetCompact_std 0 0 (2 ^ 224) = false
  /\ CheckProofOfWork SetCompact_std 1 (Z.shiftl 35 24 + 65536) (2 ^ 256) = false.
Proof. vm_compute. repeat split. Qed.

(** ** Block subsidy and reward checks of [ConnectBlock] *)

Lemma bind_Ok {A B : Type} (r : Result A) (k : A -> Result B) (a : A) :
  r = Ok a -> (r ≫= k) = k a.
Proof. intros ->. reflexivity. Qed.

Lemma reject_if_false (d : Z) (c : RejectCode) (s : string) :
  reject_if false d c s = Ok tt.
Proof. reflexivity. Qed.

Lemma reject_if_true (d : Z) (c : RejectCode) (s : string) :
  reject_if true d c s = Reject d c s.
Proof. reflexivity. Qed.

Lemma GetBlockSubsidy_premine (coin : CAmount) :
  GetBlockSubsidy coin 1 = 1000000000 * coin.
Proof. reflexivity. Qed.

Lemma GetBlockSubsidy_other (coin : CAmount) (height : Z) :
  height <> 1 -> GetBlockSubsidy coin height = 10 * coin.
Proof.
  intros Hne. unfold GetBlockSubsidy.
  destruct (Z.eqb_spec height 1); [contradiction | reflexivity].
Qed.

(** The entry that [ConnectBlock_front] reports differs from the one it was
    given in the stake modifier only. *)
Lemma ConnectBlock_front_height (env : Env) (block : CBlock)
  (pindex : CBlockIndex) (pprev : option CBlockIndex) (view : CCoinsViewCache)
  (tokens : TokenState env) (fJustCheck : bool) (pindex' : CBlockIndex)
  (off : OfflineStake) (acc : ConnectAcc env) :
  ConnectBlock_front env block pindex pprev view tokens fJustCheck
    = Ok (Some (pindex', off, acc)) ->
  exists m, pindex' = set_nStakeModifier pindex m.
Proof.
  unfold ConnectBlock_front.
  destruct (ConnectBlock_checks env block pindex pprev view fJustCheck);
    simpl; try discriminate.
  case_bool_decide; [discriminate |].
  destruct (reject_if _ _ _ _); simpl; try discriminate.
  match goal with |- context [?k ≫= _] =>
    destruct k as [kernel | | | |] end; simpl; try discriminate.
  destruct (ConnectBlock_stake _ _ _ _ _); simpl; try discriminate.
  destruct (ConnectBlock_loop _ _ _ _ _); simpl; try discriminate.
  intros [= <- _ _]. eauto.
Qed.



(** ** The offline staking split *)

Lemma offline_split_sums (script : CScript) (outs : list CTxOut) (a b : CAmount) :
  offline_split script outs (a, b)
  = (a + value_to_script script outs, b + value_to_others script outs).
Proof.
  revert a b. induction outs as [| o outs IH]; intros a b; simpl.
  - f_equal; lia.
  - case_bool_decide; simpl; rewrite IH; f_equal; lia.
Qed.

(** For a proof-of-stake block with an offline staking kernel, the
    accumulators that [ConnectBlock] compares are the value returned to the
    staking script beyond the staked coin and the value paid to the other
    outputs of the coinstake. *)
Lemma ConnectBlock_stake_offline (env : Env) (block : CBlock)
  (pindex : CBlockIndex) (pprev : option CBlockIndex) (view : CCoinsViewCache)
  (coinstake : CTransaction) (txin : CTxIn) (coin : Coin) (off : OfflineStake) :
  IsProofOfStake block = true ->
  vtx block !! 1%nat = Some coinstake ->
  vin coinstake !! 0%nat = Some txin ->
  AccessCoin view (prevout txin) = Some coin ->
  IsOfflineStaking env (scriptPubKey (out coin)) = true ->
  ConnectBlock_stake env block pindex pprev view = Ok off ->
  off = {| nRewardOffline := stake_returned coin coinstake;
           nRewardStaker := stake_operator coin coinstake;
           fCheckOffline := true |}.
Proof.
  intros Hpos Hcs Hin Hcoin Hoff.
  unfold ConnectBlock_stake. rewrite Hpos, Hcs, Hin, Hcoin.
  destruct (reject_if (nHeight pindex - coin_nHeight coin <? _) _ _ _);
    simpl; try discriminate.
  destruct (reject_if (negb (GetTransaction _ _)) _ _ _); simpl; try discriminate.
  destruct (reject_if (negb (CheckStakeKernelHash _ _ _ _ _)) _ _ _);
    simpl; try discriminate.
  rewrite Hoff, offline_split_sums. intros [= <-].
  unfold stake_returned, stake_operator. f_equal; lia.
Qed.

Lemma ConnectBlock_front_stake (env : Env) (block : CBlock)
  (pindex : CBlockIndex) (pprev : option CBlockIndex) (view : CCoinsViewCache)
  (tokens : TokenState env) (fJustCheck : bool) (pindex' : CBlockIndex)
  (off : OfflineStake) (acc : ConnectAcc env) :
  ConnectBlock_front env block pindex pprev view tokens fJustCheck
    = Ok (Some (pindex', off, acc)) ->
  ConnectBlock_stake env block pindex' pprev view = Ok off.
Proof.
  unfold ConnectBlock_front.
  destruct (ConnectBlock_checks env block pindex pprev view fJustCheck);
    simpl; try discriminate.
  case_bool_decide; [discriminate |].
  destruct (reject_if _ _ _ _); simpl; try discriminate.
  match goal with |- context [?k ≫= _] =>
    destruct k as [kernel | | | |] end; simpl; try discriminate.
  destruct (ConnectBlock_stake _ _ _ _ _) eqn:Hstake; simpl; try discriminate.
  destruct (ConnectBlock_loop _ _ _ _ _); simpl; try discriminate.
  intros [= <- <- _]. exact Hstake.
Qed.

(** C4 (as the code has it): for a proof-of-stake block whose kernel coin is
    under an offline staking script and which has passed the transaction
    loop and the reward limit, [ConnectBlock] compares the value returned to
    the staking script (beyond the staked coin) with [nSubsidyOffline], the
    double precision product [blockReward * 0.9] truncated to an integer, and
    the value paid to the other coinstake outputs with [nSubsidyStaker], the
    truncated [blockReward * 0.1]: below the first the block is rejected
    with [bad-offline-stake], else above the second with
    [bad-offline-stake-greed], else the block goes on to be connected. *)
Theorem ConnectBlock_offline_split (env : Env) (block : CBlock)
  (pindex : CBlockIndex) (pprev : option CBlockIndex) (view : CCoinsViewCache)
  (tokens : TokenState env) (fJustCheck : bool) (pindex' : CBlockIndex)
  (off : OfflineStake) (acc : ConnectAcc env)
  (coinstake : CTransaction) (txin : CTxIn) (coin : Coin) :
  ConnectBlock_front env block pindex pprev view tokens fJustCheck
    = Ok (Some (pindex', off, acc)) ->
  IsProofOfStake block = true ->
  IsProofOfWork block = false ->
  vtx block !! 1%nat = Some coinstake ->
  vin coinstake !! 0%nat = Some txin ->
  AccessCoin view (prevout txin) = Some coin ->
  IsOfflineStaking env (scriptPubKey (out coin)) = true ->
  let blockReward := a_nFees acc + GetBlockSubsidy (COIN env) (nHeight pindex) in
  a_nActualStakeReward acc <= blockReward ->
  (stake_returned coin coinstake < nSubsidyOffline_of blockReward ->
   ConnectBlock env block pindex pprev view tokens fJustCheck
     = Reject 100 REJECT_INVALID "bad-offline-stake")
  /\ (nSubsidyOffline_of blockReward <= stake_returned coin coinstake ->
      stake_operator coin coinstake > nSubsidyStaker_of blockReward ->
      ConnectBlock env block pindex pprev view tokens fJustCheck
        = Reject 100 REJECT_INVALID "bad-offline-stake-greed")
  /\ (nSubsidyOffline_of blockReward <= stake_returned coin coinstake ->
      stake_operator coin coinstake <= nSubsidyStaker_of blockReward ->
      ConnectBlock env block pindex pprev view tokens fJustCheck
        = ConnectBlock_finish env block pindex' acc fJustCheck).
Proof.
  intros Hfront Hpos Hpow Hcs Hin Hcoin Hoff blockReward Hcap.
  pose proof (ConnectBlock_front_stake _ _ _ _ _ _ _ _ _ _ Hfront) as Hstake.
  pose proof (ConnectBlock_stake_offline _ _ _ _ _ _ _ _ _
                Hpos Hcs Hin Hcoin Hoff Hstake) as ->.
  destruct (ConnectBlock_front_height _ _ _ _ _ _ _ _ _ _ Hfront) as [m ->].
  assert (Hhead : forall k : unit -> Result (Connected env),
            ConnectBlock env block pindex pprev view tokens fJustCheck
            = (ConnectBlock_rewards env block (set_nStakeModifier pindex m)
                 {| nRewardOffline := stake_returned coin coinstake;
                    nRewardStaker := stake_operator coin coinstake;
                    fCheckOffline := true |}
                 (a_nFees acc) (a_nActualStakeReward acc)
               ≫= fun _ => ConnectBlock_finish env block
                             (set_nStakeModifier pindex m) acc fJustCheck)).
  { intros _. unfold ConnectBlock. rewrite Hfront. reflexivity. }
  rewrite (Hhead (fun _ => Crash "")). clear Hhead.
  unfold ConnectBlock_rewards. simpl. rewrite Hpow, Hpos. simpl.
  fold blockReward.
  destruct (Z.gtb_spec (a_nActualStakeReward acc) blockReward); [lia |].
  simpl.
  repeat split.
  - intros Hlt.
    destruct (Z.ltb_spec (stake_returned coin coinstake)
                (nSubsidyOffline_of blockReward)); [reflexivity | lia].
  - intros Hge Hgt.
    destruct (Z.ltb_spec (stake_returned coin coinstake)
                (nSubsidyOffline_of blockReward)); [lia |].
    simpl.
    destruct (Z.gtb_spec (stake_operator coin coinstake)
                (nSubsidyStaker_of blockReward)); [reflexivity | lia].
  - intros Hge Hle.
    destruct (Z.ltb_spec (stake_returned coin coinstake)
                (nSubsidyOffline_of blockReward)); [lia |].
    simpl.
    destruct (Z.gtb_spec (stake_operator coin coinstake)
                (nSubsidyStaker_of blockReward)); [lia | reflexivity].
Qed.

(** With no fees the thresholds are nine tenths and one tenth of the ten
    coin subsidy; with a fee sum of 5 units they are [900000004] and
    [100000000], the products rounded down. *)
Example offline_thresholds :
  nSubsidyOffline_of (10 * 100000000) = 9 * 100000000
  /\ nSubsidyStaker_of (10 * 100000000) = 100000000
  /\ nSubsidyOffline_of 1000000005 = 900000004
  /\ nSubsidyStaker_of 1000000005 = 100000000.
Proof. vm_compute. repeat split. Qed.

(** C4, counterexample to the claim as stated: with a block reward of
    [1000000005] units (subsidy of ten coins, fee sum 5) the coinstake
    returns [900000004] units to the staking script, less than 90% of the
    reward, and the block is connected. *)
Lemma ConnectBlock_offline_below_90_percent :
  10 * stake_returned (demo_coin 500000000000 [99; 7] 10)
         {| tx_hash := 32; tx_nVersion := 1; tx_nTime := 0;
            vin := [ {| prevout := {| op_hash := 21; op_n := 0 |} |} ];
            vout := [ {| nValue := 0; scriptPubKey := [] |};
                      {| nValue := 500000000000 + 900000004;
                         scriptPubKey := [99; 7] |};
                      {| nValue := 100000000; scriptPubKey := [118; 9] |} ];
            IsCoinBase := false; IsCoinStake := true |}
    < 9 * (5 + GetBlockSubsidy (COIN demo_env) 100)
  /\ match ConnectBlock_front demo_env (demo_pos_block 900000004 100000000)
             (demo_index 8 (Some 1%positive) 100)
             (Some (demo_index 7 None 99)) demo_view 0 false with
     | Ok (Some (_, _, acc)) => a_nFees acc
     | _ => -1
     end = 5
  /\ is_ok (ConnectBlock demo_env (demo_pos_block 900000004 100000000)
              (demo_index 8 (Some 1%positive) 100)
              (Some (demo_index 7 None 99)) demo_view 0 false) = true.
Proof. repeat split; vm_compute; reflexivity. Qed.

(** The offline staking checks at work on that block: one unit less to the
    staking script, or one unit more to the operator, and it is rejected. *)
Lemma ConnectBlock_offline_split_witness :
  ConnectBlock demo_env (demo_pos_block 900000003 100000000)
    (demo_index 8 (Some 1%positive) 100) (Some (demo_index 7 None 99))
    demo_view 0 false = Reject 100 REJECT_INVALID "bad-offline-stake"
  /\ ConnectBlock demo_env (demo_pos_block 900000004 100000001)
       (demo_index 8 (Some 1%positive) 100) (Some (demo_index 7 None 99))
       demo_view 0 false = Reject 100 REJECT_INVALID "bad-offline-stake-greed".
Proof.
  split.
  - pose proof (ConnectBlock_offline_split demo_env (demo_pos_block 900000003 100000000)
                  (demo_index 8 (Some 1%positive) 100)
                  (Some (demo_index 7 None 99)) demo_view 0 false) as Hsplit.
    assert (Hacc :
              match ConnectBlock_front demo_env (demo_pos_block 900000003 100000000)
                      (demo_index 8 (Some 1%positive) 100)
                      (Some (demo_index 7 None 99)) demo_view 0 false with
              | Ok (Some (_, _, acc)) =>
                  (a_nFees acc =? 5) && (a_nActualStakeReward acc =? 1000000003)
              | _ => false
              end = true) by reflexivity.
    destruct (ConnectBlock_front demo_env (demo_pos_block 900000003 100000000)
                (demo_index 8 (Some 1%positive) 100)
                (Some (demo_index 7 None 99)) demo_view 0 false)
      as [[[[pindex' off] acc] |] | | | |]; try discriminate Hacc.
    apply andb_prop in Hacc. destruct Hacc as [Hfees Hreward].
    apply Z.eqb_eq in Hfees. apply Z.eqb_eq in Hreward.
    specialize (Hsplit pindex' off acc _ _ (demo_coin 500000000000 [99; 7] 10)
                  eq_refl eq_refl eq_refl eq_refl eq_refl eq_refl eq_refl).
    simpl in Hsplit. rewrite Hfees, Hreward in Hsplit.
    apply Hsplit; vm_compute; first [reflexivity | discriminate].
  - pose proof (ConnectBlock_offline_split demo_env (demo_pos_block 900000004 100000001)
                  (demo_index 8 (Some 1%positive) 100)
                  (Some (demo_index 7 None 99)) demo_view 0 false) as Hsplit.
    assert (Hacc :
              match ConnectBlock_front demo_env (demo_pos_block 900000004 100000001)
                      (demo_index 8 (Some 1%positive) 100)
                      (Some (demo_index 7 None 99)) demo_view 0 false with
              | Ok (Some (_, _, acc)) =>
                  (a_nFees acc =? 5) && (a_nActualStakeReward acc =? 1000000005)
              | _ => false
              end = true) by reflexivity.
    destruct (ConnectBlock_front demo_env (demo_pos_block 900000004 100000001)
                (demo_index 8 (Some 1%positive) 100)
                (Some (demo_index 7 None 99)) demo_view 0 false)
      as [[[[pindex' off] acc] |] | | | |]; try discriminate Hacc.
    apply andb_prop in Hacc. destruct Hacc as [Hfees Hreward].
    apply Z.eqb_eq in Hfees. apply Z.eqb_eq in Hreward.
    specialize (Hsplit pindex' off acc _ _ (demo_coin 500000000000 [99; 7] 10)
                  eq_refl eq_refl eq_refl eq_refl eq_refl eq_refl eq_refl).
    simpl in Hsplit. rewrite Hfees, Hreward in Hsplit.
    apply Hsplit; vm_compute; first [reflexivity | discriminate].
Defined.

(** ** The mempool accept path: conflicts *)

Lemma ATMP_conflicts_none (pool : CTxMemPool) (ins : list CTxIn) :
  (forall txin, txin ∈ ins -> mapNextTx pool !! prevout txin = None) ->
  ATMP_conflicts pool ins ∅ = Ok ∅.
Proof.
  induction ins as [| txin ins IH]; intros Hnone; simpl; [reflexivity |].
  rewrite (Hnone txin) by apply list_elem_of_here.
  apply IH. intros t Ht. apply Hnone. by apply list_elem_of_further.
Qed.

Lemma ATMP_conflicts_some (pool : CTxMemPool) (ins : list CTxIn) (txin : CTxIn) :
  txin ∈ ins ->
  is_Some (mapNextTx pool !! prevout txin) ->
  ATMP_conflicts pool ins ∅ = Reject 0 REJECT_DUPLICATE "txn-mempool-conflict".
Proof.
  induction ins as [| t ins IH]; intros Hin [h Hh].
  - by apply elem_of_nil in Hin.
  - simpl. destruct (mapNextTx pool !! prevout t) as [h' |] eqn:Ht.
    + rewrite bool_decide_eq_false_2 by set_solver. reflexivity.
    + apply IH; [| by exists h].
      apply elem_of_cons in Hin as [-> | Hin]; [congruence | done].
Qed.

(** The conflict loop never collects anything: it either rejects or leaves
    [setConflicts] empty, so the replacement branch is never entered. *)
Lemma ATMP_conflicts_empty (pool : CTxMemPool) (ins : list CTxIn)
  (setConflicts : gset uint256) :
  ATMP_conflicts pool ins ∅ = Ok setConflicts -> setConflicts = ∅.
Proof.
  induction ins as [| t ins IH]; simpl.
  - by intros [= <-].
  - destruct (mapNextTx pool !! prevout t) as [h' |]; [| exact IH].
    rewrite bool_decide_eq_false_2 by set_solver. discriminate.
Qed.

(** C5: a transaction with an input that an in-pool transaction already
    spends is never admitted and the pool is left as it was, whatever fee
    the transaction pays; the reject reason is [txn-mempool-conflict] as soon
    as the transaction gets past the checks that precede the conflict
    detection (otherwise it is the rejection of the first of those checks
    that fails). *)
Theorem AcceptToMemoryPoolWorker_conflict (env : PoolEnv) (pool : CTxMemPool)
  (tx : CTransaction) (bypass_limits test_accept : bool) (txin : CTxIn) :
  txin ∈ vin tx ->
  is_Some (mapNextTx pool !! prevout txin) ->
  is_ok (fst (AcceptToMemoryPoolWorker env pool tx bypass_limits test_accept)) = false
  /\ snd (AcceptToMemoryPoolWorker env pool tx bypass_limits test_accept) = pool
  /\ (ATMP_prechecks env pool tx = Ok tt ->
      fst (AcceptToMemoryPoolWorker env pool tx bypass_limits test_accept)
      = Reject 0 REJECT_DUPLICATE "txn-mempool-conflict")
  /\ (ATMP_prechecks env pool tx <> Ok tt ->
      fst (AcceptToMemoryPoolWorker env pool tx bypass_limits test_accept)
      = ATMP_prechecks env pool tx).
Proof.
  intros Hin Hspent.
  unfold AcceptToMemoryPoolWorker.
  rewrite (ATMP_conflicts_some pool (vin tx) txin Hin Hspent).
  destruct (ATMP_prechecks env pool tx) as [[] | d c r | w | m | w];
    simpl; repeat split; congruence.
Qed.

(** [chain_tx 1] is in the pool and spends the outpoint [(20, 0)]; a second
    transaction spending the same outpoint is refused. *)
Lemma AcceptToMemoryPoolWorker_conflict_witness :
  fst (AcceptToMemoryPoolWorker demo_pool_env
         (snd (AcceptToMemoryPoolWorker demo_pool_env empty_pool (chain_tx 1)
                 false false))
         (demo_tx 200 [ {| op_hash := 20; op_n := 0 |} ]
            [ {| nValue := 1; scriptPubKey := [118; 6] |} ])
         false false)
  = Reject 0 REJECT_DUPLICATE "txn-mempool-conflict".
Proof.
  refine (proj1 (proj2 (proj2
    (AcceptToMemoryPoolWorker_conflict demo_pool_env _
       (demo_tx 200 [ {| op_hash := 20; op_n := 0 |} ]
          [ {| nValue := 1; scriptPubKey := [118; 6] |} ])
       false false {| prevout := {| op_hash := 20; op_n := 0 |} |} _ _))) _).
  - apply list_elem_of_here.
  - vm_compute. eexists. reflexivity.
  - vm_compute. reflexivity.
Defined.

(** ** The mempool accept path: chain limits *)

(** Iterating [s ∪ g s] inside a finite universe [U] for [size U] rounds
    reaches a set closed under [g]. *)
Lemma iter_union_closed (U : gset uint256) (g : gset uint256 -> gset uint256)
  (s0 : gset uint256) :
  s0 ⊆ U ->
  (forall s, s ⊆ U -> g s ⊆ U) ->
  g (Nat.iter (size U) (fun s => s ∪ g s) s0)
    ⊆ Nat.iter (size U) (fun s => s ∪ g s) s0.
Proof.
  intros Hs0 Hg.
  set (S := fun k => Nat.iter k (fun s => s ∪ g s) s0).
  assert (Hsub : forall k, S k ⊆ U).
  { induction k as [| k IH]; simpl; [done |].
    apply union_least; [done | by apply Hg]. }
  assert (Hinv : forall k, g (S k) ⊆ S k \/ (k <= size (S k))%nat).
  { induction k as [| k IH]; [right; lia |].
    destruct (decide (g (S k) ⊆ S k)) as [Hclosed | Hopen].
    - left. change (S (Datatypes.S k)) with (S k ∪ g (S k)).
      assert (Heq : S k ∪ g (S k) = S k) by set_solver.
      rewrite Heq. done.
    - destruct IH as [Hclosed | Hsize]; [contradiction |].
      right. change (S (Datatypes.S k)) with (S k ∪ g (S k)).
      assert (Hstrict : S k ⊂ S k ∪ g (S k)).
      { split; [set_solver |]. intros Hback. apply Hopen. set_solver. }
      apply subset_size in Hstrict. lia. }
  destruct (Hinv (size U)) as [Hclosed | Hsize]; [exact Hclosed |].
  fold (S (size U)) in *.
  assert (Heq : S (size U) = U).
  { apply set_subseteq_size_eq; [apply Hsub | lia]. }
  rewrite Heq. apply Hg. done.
Qed.

Lemma in_pool_parents_dom (pool : CTxMemPool) (tx : CTransaction) :
  in_pool_parents pool tx ⊆ dom (mapTx pool).
Proof.
  intros h. unfold in_pool_parents. rewrite elem_of_list_to_set.
  rewrite list_elem_of_filter. intros [Hsome _]. by apply elem_of_dom.
Qed.

Lemma elem_of_parents_of_set (pool : CTxMemPool) (s : gset uint256) (h : uint256) :
  h ∈ parents_of_set pool s
  <-> exists c e, c ∈ s /\ mapTx pool !! c = Some e
                  /\ h ∈ in_pool_parents pool (entry_tx e).
Proof.
  unfold parents_of_set.
  assert (Hgen : forall l : list uint256,
    h ∈ foldr (fun c acc => match mapTx pool !! c with
                            | Some e => in_pool_parents pool (entry_tx e) ∪ acc
                            | None => acc
                            end) (∅ : gset uint256) l
    <-> exists c e, c ∈ l /\ mapTx pool !! c = Some e
                    /\ h ∈ in_pool_parents pool (entry_tx e)).
  { induction l as [| c l IH]; simpl.
    - split; [set_solver |]. intros (c & e & Hc & _). by apply elem_of_nil in Hc.
    - destruct (mapTx pool !! c) as [e |] eqn:Hc.
      + rewrite elem_of_union, IH. split.
        * intros [Hh | (c' & e' & Hc' & He' & Hh)].
          -- exists c, e. split; [apply list_elem_of_here | done].
          -- exists c', e'. split; [by apply list_elem_of_further | done].
        * intros (c' & e' & Hc' & He' & Hh).
          apply elem_of_cons in Hc' as [-> | Hc'].
          -- left. congruence.
          -- right. eauto.
      + rewrite IH. split.
        * intros (c' & e' & Hc' & He' & Hh).
          exists c', e'. split; [by apply list_elem_of_further | done].
        * intros (c' & e' & Hc' & He' & Hh).
          apply elem_of_cons in Hc' as [-> | Hc']; [congruence | eauto]. }
  rewrite Hgen. setoid_rewrite elem_of_elements. done.
Qed.

Lemma parents_of_set_dom (pool : CTxMemPool) (s : gset uint256) :
  parents_of_set pool s ⊆ dom (mapTx pool).
Proof.
  intros h. rewrite elem_of_parents_of_set. intros (c & e & _ & _ & Hh).
  by apply in_pool_parents_dom in Hh.
Qed.

(** [pool_ancestors] is the transitive closure of the parent relation. *)
Lemma pool_ancestors_transitive (pool : CTxMemPool) (tx : CTransaction) (h : uint256) :
  h ∈ pool_ancestors pool tx <-> is_ancestor pool tx h.
Proof.
  split.
  - unfold pool_ancestors. generalize (size (mapTx pool)) as k.
    intros k. revert h. induction k as [| k IH]; intros h; simpl.
    + apply ancestor_parent.
    + rewrite elem_of_union, elem_of_parents_of_set.
      intros [Hh | (c & e & Hc & He & Hh)]; [by apply IH |].
      eapply ancestor_step; [apply IH, Hc | exact He | exact Hh].
  - assert (Hclosed : parents_of_set pool (pool_ancestors pool tx)
                        ⊆ pool_ancestors pool tx).
    { unfold pool_ancestors. rewrite <- size_dom.
      apply (iter_union_closed (dom (mapTx pool)) (parents_of_set pool)).
      - apply in_pool_parents_dom.
      - intros s _. apply parents_of_set_dom. }
    assert (Hbase : in_pool_parents pool tx ⊆ pool_ancestors pool tx).
    { unfold pool_ancestors. generalize (size (mapTx pool)) as k.
      induction k as [| k IH]; simpl; set_solver. }
    induction 1 as [h Hh | c h e _ IH He Hh].
    + by apply Hbase.
    + apply Hclosed. apply elem_of_parents_of_set. eauto.
Qed.

Lemma ATMP_entry_tx (env : PoolEnv) (pool : CTxMemPool) (tx : CTransaction)
  (entry : CTxMemPoolEntry) :
  ATMP_entry env pool tx = Ok entry ->
  entry_tx entry = tx /\ entry_nTxSize entry = mp_GetTxSize env tx.
Proof.
  unfold ATMP_entry.
  repeat match goal with
  | |- context [@mbind Result _ _ _ _ ?r] =>
      lazymatch r with
      | Ok _ => fail
      | _ => destruct r; simpl; try discriminate
      end
  end.
  intros [= <-]. done.
Qed.

Lemma CalculateMemPoolAncestors_None (env : PoolEnv) (pool : CTxMemPool)
  (entry : CTxMemPoolEntry) :
  CalculateMemPoolAncestors pool entry (nLimitAncestors env)
    (nLimitAncestorSize env) (nLimitDescendants env) (nLimitDescendantSize env)
  = None
  <-> chain_limits_exceeded env pool (entry_tx entry) (entry_nTxSize entry).
Proof.
  unfold CalculateMemPoolAncestors, chain_limits_exceeded.
  set (anc := pool_ancestors pool (entry_tx entry)).
  destruct (Z.gtb_spec (Z.of_nat (size anc) + 1) (nLimitAncestors env)) as [H1 | H1].
  { split; [intros _; left; lia | done]. }
  destruct (Z.gtb_spec (pool_size_of pool anc + entry_nTxSize entry)
              (nLimitAncestorSize env)) as [H2 | H2].
  { split; [intros _; right; left; lia | done]. }
  destruct (existsb _ (elements anc)) eqn:Hex.
  - split; [intros _ | done]. right. right.
    apply existsb_exists in Hex as (a & Ha & Hover).
    exists a. split; [apply elem_of_elements, list_elem_of_In, Ha |].
    apply orb_true_iff in Hover as [Hover | Hover];
      [left | right]; apply Z.gtb_lt in Hover; lia.
  - split; [discriminate |].
    intros [H | [H | (a & Ha & Hover)]]; [lia | lia |].
    assert (Hex' : existsb
              (fun a => (GetCountWithDescendants pool a + 1 >? nLimitDescendants env)
                        || (GetSizeWithDescendants pool a + entry_nTxSize entry
                            >? nLimitDescendantSize env)) (elements anc) = true).
    { apply existsb_exists. exists a.
      split; [apply list_elem_of_In, elem_of_elements, Ha |].
      apply orb_true_iff.
      destruct Hover as [Hover | Hover]; [left | right]; apply Z.gtb_lt; lia. }
    congruence.
Qed.

(** C6: the ancestor set that the accept path computes is the transitive
    closure of the in-pool parent relation; a transaction that reaches the
    chain limit check is rejected with [too-long-mempool-chain], the pool
    unchanged, when the number or the size of the transaction with its
    ancestors exceeds the limit or when one of the ancestors would exceed its
    descendant count or size, and it passes the check otherwise; and of a
    chain of 26 dependent transactions, submitted in order with limits of 25,
    the first 25 are accepted and the 26th is rejected. *)
Theorem AcceptToMemoryPoolWorker_chain_limits (env : PoolEnv) (pool : CTxMemPool)
  (tx : CTransaction) (bypass_limits test_accept : bool) (entry : CTxMemPoolEntry) :
  ATMP_prechecks env pool tx = Ok tt ->
  (forall txin, txin ∈ vin tx -> mapNextTx pool !! prevout txin = None) ->
  ATMP_entry env pool tx = Ok entry ->
  (forall h, h ∈ pool_ancestors pool tx <-> is_ancestor pool tx h)
  /\ (chain_limits_exceeded env pool tx (mp_GetTxSize env tx) ->
      AcceptToMemoryPoolWorker env pool tx bypass_limits test_accept
      = (Reject 0 REJECT_NONSTANDARD "too-long-mempool-chain", pool))
  /\ (~ chain_limits_exceeded env pool tx (mp_GetTxSize env tx) ->
      ATMP_ancestors env pool entry = Ok (pool_ancestors pool tx))
  /\ fst (submit_all demo_pool_env empty_pool (map chain_tx (seq 1 26)))
     = replicate 25 (Ok tt)
       ++ [Reject 0 REJECT_NONSTANDARD "too-long-mempool-chain"].
Proof.
  intros Hpre Hnone Hentry.
  destruct (ATMP_entry_tx _ _ _ _ Hentry) as [Htx Hsize].
  split; [apply pool_ancestors_transitive |].
  split; [| split].
  - intros Hover.
    unfold AcceptToMemoryPoolWorker.
    rewrite Hpre, (ATMP_conflicts_none _ _ Hnone). simpl.
    rewrite Hentry. simpl. unfold ATMP_ancestors.
    rewrite (proj2 (CalculateMemPoolAncestors_None env pool entry));
      [reflexivity |].
    by rewrite Htx, Hsize.
  - intros Hok. unfold ATMP_ancestors.
    destruct (CalculateMemPoolAncestors _ _ _ _ _ _) as [anc |] eqn:Hcalc.
    + unfold CalculateMemPoolAncestors in Hcalc. rewrite Htx in Hcalc.
      repeat match type of Hcalc with
             | (if ?c then _ else _) = _ => destruct c; try discriminate
             end.
      by injection Hcalc as <-.
    + apply CalculateMemPoolAncestors_None in Hcalc.
      rewrite Htx, Hsize in Hcalc. contradiction.
  - vm_compute. reflexivity.
Qed.

(** The 26th transaction of the chain against the pool that holds the first
    25. *)
Lemma AcceptToMemoryPoolWorker_chain_limits_witness :
  AcceptToMemoryPoolWorker demo_pool_env
    (snd (submit_all demo_pool_env empty_pool (map chain_tx (seq 1 25))))
    (chain_tx 26) false false
  = (Reject 0 REJECT_NONSTANDARD "too-long-mempool-chain",
     snd (submit_all demo_pool_env empty_pool (map chain_tx (seq 1 25)))).
Proof.
  refine (proj1 (proj2
    (AcceptToMemoryPoolWorker_chain_limits demo_pool_env
       (snd (submit_all demo_pool_env empty_pool (map chain_tx (seq 1 25))))
       (chain_tx 26) false false
       {| entry_tx := chain_tx 26; entry_nFee := 1000; entry_nTxSize := 200 |}
       _ _ _)) _).
  - vm_compute. reflexivity.
  - intros txin Hin. apply list_elem_of_singleton in Hin as ->.
    vm_compute. reflexivity.
  - vm_compute. reflexivity.
  - left. vm_compute. reflexivity.
Defined.

(** ** Reorganisation: the disconnect pool and its replay *)

Lemma foldl_addTransaction (dp : DisconnectedBlockTransactions) (txs : list CTransaction) :
  queuedTx (foldl addTransaction dp txs) = queuedTx dp ++ txs.
Proof.
  revert dp. induction txs as [| tx txs IH]; intros dp; simpl.
  - by rewrite app_nil_r.
  - rewrite IH. simpl. by rewrite <- app_assoc.
Qed.

Lemma trim_disconnectpool_suffix (env : PoolEnv) (queue : list CTransaction)
  (pool : CTxMemPool) :
  exists dropped, queue = dropped ++ fst (trim_disconnectpool env queue pool).
Proof.
  revert pool. induction queue as [| tx queue IH]; intros pool.
  - exists []. reflexivity.
  - cbn [trim_disconnectpool].
    destruct (_ >? _).
    + destruct (IH (removeRecursive pool tx)) as [dropped Hd].
      exists (tx :: dropped). simpl. by rewrite <- Hd.
    + exists []. reflexivity.
Qed.

Lemma trim_disconnectpool_within (env : PoolEnv) (queue : list CTransaction)
  (pool : CTxMemPool) :
  DynamicMemoryUsage env {| queuedTx := queue |}
    <= MAX_DISCONNECTED_TX_POOL_SIZE env * 1000 ->
  trim_disconnectpool env queue pool = (queue, pool).
Proof.
  intros Hle. destruct queue as [| tx queue]; [reflexivity |].
  cbn [trim_disconnectpool].
  destruct (Z.gtb_spec (DynamicMemoryUsage env {| queuedTx := tx :: queue |})
              (MAX_DISCONNECTED_TX_POOL_SIZE env * 1000)); [lia | reflexivity].
Qed.

(** What [DisconnectTip] leaves in the disconnect pool: the transactions
    that were queued before, then all transactions of the block, coinbase
    and coinstake included, from the last to the first; when the byte bound
    is exceeded the oldest entries are dropped. *)
Lemma DisconnectTip_save_queue (env : PoolEnv) (block : CBlock)
  (dp : DisconnectedBlockTransactions) (pool : CTxMemPool) :
  (exists dropped,
      queuedTx dp ++ rev (vtx block)
      = dropped ++ queuedTx (fst (DisconnectTip_save env block dp pool)))
  /\ (DynamicMemoryUsage env {| queuedTx := queuedTx dp ++ rev (vtx block) |}
        <= MAX_DISCONNECTED_TX_POOL_SIZE env * 1000 ->
      DisconnectTip_save env block dp pool
      = ({| queuedTx := queuedTx dp ++ rev (vtx block) |}, pool)).
Proof.
  unfold DisconnectTip_save. rewrite foldl_addTransaction. split.
  - destruct (trim_disconnectpool_suffix env (queuedTx dp ++ rev (vtx block)) pool)
      as [dropped Hd].
    exists dropped.
    destruct (trim_disconnectpool env _ pool) as [queue pool']. exact Hd.
  - intros Hle. by rewrite trim_disconnectpool_within.
Qed.

Lemma elem_of_in_pool_children (pool : CTxMemPool) (parent h : uint256) :
  h ∈ in_pool_children pool parent
  <-> exists e, mapTx pool !! h = Some e
                /\ parent ∈ map (fun i => op_hash (prevout i)) (vin (entry_tx e)).
Proof.
  unfold in_pool_children. rewrite elem_of_dom. split.
  - intros [e He]. apply map_lookup_filter_Some in He as [He Hp]. eauto.
  - intros (e & He & Hp). exists e. by apply map_lookup_filter_Some.
Qed.

Lemma elem_of_children_of_set (pool : CTxMemPool) (s : gset uint256) (h : uint256) :
  h ∈ children_of_set pool s
  <-> exists p, p ∈ s /\ h ∈ in_pool_children pool p.
Proof.
  unfold children_of_set.
  assert (Hgen : forall l : list uint256,
    h ∈ foldr (fun p acc => in_pool_children pool p ∪ acc) (∅ : gset uint256) l
    <-> exists p, p ∈ l /\ h ∈ in_pool_children pool p).
  { induction l as [| p l IH]; simpl.
    - split; [set_solver |]. intros (p & Hp & _). by apply elem_of_nil in Hp.
    - rewrite elem_of_union, IH. split.
      + intros [Hh | (p' & Hp' & Hh)].
        * exists p. split; [apply list_elem_of_here | done].
        * exists p'. split; [by apply list_elem_of_further | done].
      + intros (p' & Hp' & Hh).
        apply elem_of_cons in Hp' as [-> | Hp']; [by left | right; eauto]. }
  rewrite Hgen. setoid_rewrite elem_of_elements. done.
Qed.

Lemma pool_descendants_closed (pool : CTxMemPool) (hash : uint256) :
  in_pool_children pool hash ⊆ pool_descendants pool hash
  /\ children_of_set pool (pool_descendants pool hash) ⊆ pool_descendants pool hash.
Proof.
  split.
  - unfold pool_descendants. generalize (size (mapTx pool)) as k.
    induction k as [| k IH]; simpl; set_solver.
  - unfold pool_descendants. rewrite <- size_dom.
    apply (iter_union_closed (dom (mapTx pool)) (children_of_set pool)).
    + intros h Hh. apply elem_of_in_pool_children in Hh as (e & He & _).
      by apply elem_of_dom.
    + intros s _ h Hh. apply elem_of_children_of_set in Hh as (p & _ & Hh).
      apply elem_of_in_pool_children in Hh as (e & He & _).
      by apply elem_of_dom.
Qed.

(** [removeRecursive] takes the transaction out of the pool together with
    everything in the pool that depends on it: no entry that stays spends
    from the transaction or from an entry that left, and the entries that
    stay are unchanged. *)
Lemma removeRecursive_dependents (pool : CTxMemPool) (tx : CTransaction) :
  mapTx (removeRecursive pool tx) !! tx_hash tx = None
  /\ (forall h e txin,
        mapTx (removeRecursive pool tx) !! h = Some e ->
        txin ∈ vin (entry_tx e) ->
        mapTx pool !! h = Some e
        /\ op_hash (prevout txin) <> tx_hash tx
        /\ (is_Some (mapTx pool !! op_hash (prevout txin)) ->
            is_Some (mapTx (removeRecursive pool tx) !! op_hash (prevout txin)))).
Proof.
  destruct (pool_descendants_closed pool (tx_hash tx)) as [Hbase Hclosed].
  unfold removeRecursive. cbn [mapTx]. split.
  - apply map_lookup_filter_None. right. intros e _ Hnot.
    apply Hnot. simpl. set_solver.
  - intros h e txin He Hin.
    apply map_lookup_filter_Some in He as [He Hkeep]. simpl in Hkeep.
    assert (Hparent : op_hash (prevout txin)
                      ∈ map (fun i => op_hash (prevout i)) (vin (entry_tx e))).
    { apply list_elem_of_fmap. eauto. }
    assert (Hchild : h ∈ in_pool_children pool (op_hash (prevout txin))).
    { apply elem_of_in_pool_children. eauto. }
    split; [exact He |]. split.
    + intros Heq. apply Hkeep. rewrite Heq in Hchild. set_solver.
    + intros [e' He']. exists e'. apply map_lookup_filter_Some.
      split; [exact He' |]. simpl. intros Hgone. apply Hkeep.
      apply elem_of_union in Hgone as [Hgone | Hgone].
      * apply elem_of_singleton in Hgone. rewrite Hgone in Hchild. set_solver.
      * apply elem_of_union_r. apply Hclosed.
        apply elem_of_children_of_set. eauto.
Qed.

Lemma replay_disconnectpool_steps (env : PoolEnv) (txs : list CTransaction)
  (pool : CTxMemPool) (vHashUpdate : list uint256) :
  let steps := snd (replay_disconnectpool env true txs pool vHashUpdate) in
  map r_tx steps = txs
  /\ Forall (fun s =>
       r_submitted s = negb (IsCoinBase (r_tx s) || IsCoinStake (r_tx s))
       /\ (r_submitted s = true -> r_bypass_limits s = true)
       /\ r_removed s = negb (r_submitted s && r_accepted s)) steps.
Proof.
  revert pool vHashUpdate. induction txs as [| tx txs IH]; intros pool vh.
  - simpl. split; [reflexivity | constructor].
  - cbn [replay_disconnectpool].
    destruct (replay_one env true tx pool vh) as [[pool1 vh1] step] eqn:Hone.
    specialize (IH pool1 vh1).
    destruct (replay_disconnectpool env true txs pool1 vh1) as [[pool2 vh2] steps].
    simpl in *. destruct IH as [IHtx IHall].
    unfold replay_one in Hone. simpl in Hone.
    destruct (IsCoinBase tx || IsCoinStake tx) eqn:Hcb.
    + injection Hone as <- <- <-. simpl. rewrite IHtx. split; [reflexivity |].
      constructor; [| exact IHall]. simpl. rewrite Hcb. done.
    + destruct (AcceptToMemoryPool env pool tx true) as [accepted pool'].
      destruct accepted; simpl in Hone; injection Hone as <- <- <-; simpl;
        rewrite IHtx; (split; [reflexivity |]);
        (constructor; [| exact IHall]); simpl; rewrite Hcb; done.
Qed.

(** One step of the replay that ends in [removeRecursive]: the transaction
    was a coinbase or a coinstake or was refused by [AcceptToMemoryPool], and
    the pool after the step is the pool after the attempt with the
    transaction removed recursively. *)
Lemma replay_one_removed (env : PoolEnv) (tx : CTransaction) (pool : CTxMemPool)
  (vHashUpdate : list uint256) :
  let '(pool', _, step) := replay_one env true tx pool vHashUpdate in
  r_removed step = true ->
  pool' = removeRecursive
            (if r_submitted step then snd (AcceptToMemoryPool env pool tx true)
             else pool) tx.
Proof.
  unfold replay_one. simpl.
  destruct (IsCoinBase tx || IsCoinStake tx); [done |].
  destruct (AcceptToMemoryPool env pool tx true) as [[] pool1]; simpl; done.
Qed.

Lemma DisconnectTip_pool (cenv : Env) (env : PoolEnv) (block : CBlock)
  (pindexDelete : CBlockIndex) (pindexPrev : option CBlockIndex)
  (diskUndo : option CBlockUndo) (diskTokenUndo : option (list (TokenUndo cenv)))
  (flushOk : bool) (dp dp1 : DisconnectedBlockTransactions)
  (st st1 : TipState cenv) :
  DisconnectTip cenv env (Some block) pindexDelete pindexPrev diskUndo
    diskTokenUndo flushOk (Some dp) st = Ok (Some dp1, st1) ->
  DisconnectTip_save env block dp (ts_mempool st) = (dp1, ts_mempool st1).
Proof.
  unfold DisconnectTip.
  destruct (assert _ _); simpl; try discriminate.
  destruct (DisconnectBlock _ _ _ _ _ _ _ _) as [[[] view'] tokens'];
    try discriminate.
  destruct flushOk; simpl; try discriminate.
  destruct (DisconnectTip_save env block dp (ts_mempool st)) as [dp' pool'].
  by intros [= <- <-].
Qed.




(** ** Sequence ids: [AddToBlockIndex] and [ReceivedBlockTransactions] *)

Lemma link_entry_again (e : CBlockIndex) (c c' s s' : Z) :
  link_entry (link_entry e c s) c' s' = link_entry e c' s'.
Proof. reflexivity. Qed.

Lemma deref_Some (st : ChainState) (p : BlockHandle) (e : CBlockIndex) :
  blocks st !! p = Some e -> deref st p = Ok e.
Proof. intros H. unfold deref. by rewrite H. Qed.

Lemma deref_Ok (st : ChainState) (p : BlockHandle) (e : CBlockIndex) :
  deref st p = Ok e -> blocks st !! p = Some e.
Proof. unfold deref. destruct (blocks st !! p); [by intros [= ->] | discriminate]. Qed.

Lemma filter_split_length {A : Type} (P : A -> Prop) `{forall x, Decision (P x)}
  (l : list A) :
  (length (filter P l) + length (filter (fun x => ~ P x) l) = length l)%nat.
Proof.
  induction l as [| x l IH]; [reflexivity |].
  rewrite !filter_cons. destruct (decide (P x)); destruct (decide (~ P x));
    simpl; try lia; contradiction.
Qed.

Lemma CBlockIndexWorkComparator_work (pa pb : BlockHandle) (a b : CBlockIndex) :
  CBlockIndexWorkComparator pa a pb b = false -> nChainWork b <= nChainWork a.
Proof.
  unfold CBlockIndexWorkComparator.
  destruct (Z.gtb_spec (nChainWork a) (nChainWork b)); [lia |].
  destruct (Z.ltb_spec (nChainWork a) (nChainWork b)); [discriminate | lia].
Qed.

(** The queue loop of [ReceivedBlockTransactions] ends, for a block tree
    without dangling pointers, within [length queue + length
    mapBlocksUnlinked] rounds. *)
Lemma link_descendants_linked (fuel : nat) :
  forall (queue : list BlockHandle) (st : ChainState),
    index_closed st ->
    (forall p, p ∈ queue -> is_Some (blocks st !! p)) ->
    (length queue + length (mapBlocksUnlinked st) <= fuel)%nat ->
    exists st' visited,
      link_descendants fuel queue st = Ok (st', visited)
      /\ linked st queue st' visited.
Proof.
  induction fuel as [| fuel IH]; intros queue st Hclosed Hqueue Hfuel.
  - destruct queue as [| p rest]; [| simpl in Hfuel; lia].
    exists st, []. split; [reflexivity |].
    unfold linked. simpl. repeat split; try done.
    + lia.
    + by exists [].
    + intros v Hv. by apply elem_of_nil in Hv.
    + intros v Hv. by apply elem_of_nil in Hv.
    + intros v e' Hv. exists e'. by split; [| left].
    + intros c Hc. by left.
  - destruct queue as [| pindex rest].
    { exists st, []. split; [reflexivity |].
      unfold linked. simpl. repeat split; try done.
      + lia.
      + by exists [].
      + intros v Hv. by apply elem_of_nil in Hv.
      + intros v Hv. by apply elem_of_nil in Hv.
      + intros v e' Hv. exists e'. by split; [| left].
      + intros c Hc. by left. }
    destruct Hclosed as [Hprev Hunl].
    destruct (Hqueue pindex) as [e He]; [by left |].
    assert (Hpc : exists prevChainTx,
               match pprev e with
               | Some q => deref st q ≫= (fun pe => Ok (nChainTx pe))
               | None => Ok 0
               end = Ok prevChainTx).
    { destruct (pprev e) as [q |] eqn:Hq; [| by eexists].
      destruct (Hprev _ _ _ He Hq) as [qe Hqe].
      unfold deref. rewrite Hqe. by eexists. }
    destruct Hpc as [prevChainTx Hpc].
    set (e1 := link_entry e prevChainTx (nBlockSequenceId st)).
    set (st1 := set_nBlockSequenceId
                  (set_blocks st (<[pindex := e1]> (blocks st)))
                  (nBlockSequenceId st + 1)).
    set (st2 := match Tip st1 with
                | None => set_candidates st1 ({[pindex]} ∪ setBlockIndexCandidates st1)
                | Some tip =>
                    if negb (value_comp st1 pindex tip)
                    then set_candidates st1 ({[pindex]} ∪ setBlockIndexCandidates st1)
                    else st1
                end).
    set (children := map snd (filter (fun kv => fst kv = pindex) (mapBlocksUnlinked st2))).
    set (st3 := set_unlinked st2
                  (filter (fun kv => fst kv <> pindex) (mapBlocksUnlinked st2))).
    assert (Hst2 : blocks st2 = <[pindex := e1]> (blocks st)
                   /\ mapBlocksUnlinked st2 = mapBlocksUnlinked st
                   /\ nBlockSequenceId st2 = nBlockSequenceId st + 1
                   /\ chainTip st2 = chainTip st
                   /\ mapBlockIndex st2 = mapBlockIndex st
                   /\ next_block st2 = next_block st
                   /\ g_failed_blocks st2 = g_failed_blocks st
                   /\ setBlockIndexCandidates st ⊆ setBlockIndexCandidates st2
                   /\ (forall c, c ∈ setBlockIndexCandidates st2 ->
                         c ∈ setBlockIndexCandidates st
                         \/ (c = pindex
                             /\ forall t te, chainTip st = Some t ->
                                  blocks st1 !! t = Some te ->
                                  nChainWork te <= nChainWork e1))).
    { subst st2. unfold Tip. simpl.
      destruct (chainTip st) as [tip |] eqn:Htip.
      - destruct (value_comp st1 pindex tip) eqn:Hcomp; simpl.
        + repeat split; try done. intros c Hc. by left.
        + repeat split; try done; [set_solver |].
          intros c Hc. apply elem_of_union in Hc as [Hc | Hc]; [| by left].
          apply elem_of_singleton in Hc as ->. right. split; [done |].
          intros t te [= <-] Hte.
          unfold value_comp in Hcomp. simpl in Hcomp.
          rewrite lookup_insert_eq in Hcomp. simpl in Hte. rewrite Hte in Hcomp.
          by apply CBlockIndexWorkComparator_work in Hcomp.
      - simpl. repeat split; try done; [set_solver |].
        intros c Hc. apply elem_of_union in Hc as [Hc | Hc]; [| by left].
        apply elem_of_singleton in Hc as ->. right. split; [done |].
        intros t te Ht. discriminate. }
    destruct Hst2 as (Hb2 & Hu2 & Hn2 & Ht2 & Hm2 & Hx2 & Hg2 & Hc2 & Hc2').
    assert (Hb3 : blocks st3 = <[pindex := e1]> (blocks st)) by exact Hb2.
    assert (Hu3 : mapBlocksUnlinked st3
                  = filter (fun kv => fst kv <> pindex) (mapBlocksUnlinked st)).
    { subst st3. simpl. by rewrite Hu2. }
    assert (Hchildren : children
                        = map snd (filter (fun kv => fst kv = pindex) (mapBlocksUnlinked st))).
    { subst children. by rewrite Hu2. }
    assert (Hin3 : forall v, is_Some (blocks st !! v) -> is_Some (blocks st3 !! v)).
    { intros v Hv. rewrite Hb3.
      destruct (decide (pindex = v)) as [-> | Hne];
        [rewrite lookup_insert_eq; eauto | by rewrite lookup_insert_ne]. }
    destruct (IH (rest ++ children) st3) as (st' & visited & Hrun & Hpost).
    { split.
      - intros p e' q Hp Hq. apply Hin3. rewrite Hb3 in Hp.
        destruct (decide (pindex = p)) as [-> | Hne].
        + rewrite lookup_insert_eq in Hp. injection Hp as <-.
          by apply (Hprev _ _ _ He).
        + rewrite lookup_insert_ne in Hp by done. by apply (Hprev _ _ _ Hp).
      - intros k c Hkc. apply Hin3. rewrite Hu3 in Hkc.
        apply list_elem_of_filter in Hkc as [_ Hkc]. by apply (Hunl k c). }
    { intros p Hp. apply Hin3. apply elem_of_app in Hp as [Hp | Hp].
      - apply Hqueue. by right.
      - rewrite Hchildren in Hp. apply list_elem_of_fmap in Hp as [[k c] [-> Hkc]].
        apply list_elem_of_filter in Hkc as [_ Hkc]. by apply (Hunl k c). }
    { rewrite length_app, Hu3, Hchildren, length_map.
      pose proof (filter_split_length (fun kv : BlockHandle * BlockHandle => fst kv = pindex)
                    (mapBlocksUnlinked st)) as Hsplit.
      simpl in Hfuel. lia. }
    exists st', (pindex :: visited). split.
    { unfold link_descendants; fold link_descendants.
      rewrite (deref_Some _ _ _ He). cbn [mbind Result_bind bind].
      rewrite Hpc. cbn [mbind Result_bind bind].
      fold e1. fold st1. fold st2. fold children. fold st3.
      rewrite Hrun. reflexivity. }
    destruct Hpost as (Hn & [more Hmore] & Horigin & Hids & Hsame & Hform & Hcand
                       & Hcsub & Husub & Ht & Hm & Hx & Hg).
    assert (Hn3 : nBlockSequenceId st3 = nBlockSequenceId st + 1) by exact Hn2.
    assert (Hwork : forall v e3 e', blocks st3 !! v = Some e3 ->
                      blocks st' !! v = Some e' -> nChainWork e' = nChainWork e3).
    { intros v e3 e' H3 H'. destruct (Hform _ _ H') as (e0 & H0 & [-> | (c & s & ->)]);
        rewrite H3 in H0; by injection H0 as ->. }
    unfold linked. repeat split.
    + rewrite Hn, Hn3. simpl length. lia.
    + exists (children ++ more). rewrite Hmore. simpl. by rewrite <- app_assoc.
    + intros v Hv. apply elem_of_cons in Hv as [-> | Hv]; [left; by left |].
      destruct (Horigin v Hv) as [Hq | (k & Hk & Hkv)].
      * apply elem_of_app in Hq as [Hq | Hq]; [left; by right |].
        right. exists pindex. split; [by left |].
        rewrite Hchildren in Hq. apply list_elem_of_fmap in Hq as [[k c] [-> Hkc]].
        apply list_elem_of_filter in Hkc as [Hk Hkc]. simpl in Hk. by subst k.
      * right. exists k. split; [by right |].
        rewrite Hu3 in Hkv. by apply list_elem_of_filter in Hkv as [_ Hkv].
    + intros v Hv.
      destruct (decide (v ∈ visited)) as [Hin | Hnotin].
      * destruct (Hids v Hin) as (e' & He' & Hrange).
        exists e'. split; [done |]. rewrite Hn3 in Hrange. lia.
      * apply elem_of_cons in Hv as [-> | Hv]; [| contradiction].
        exists e1. rewrite (Hsame _ Hnotin), Hb3, lookup_insert_eq.
        split; [done |]. simpl. rewrite Hn, Hn3. lia.
    + intros v Hv. apply not_elem_of_cons in Hv as [Hne Hv].
      rewrite (Hsame _ Hv), Hb3. by rewrite lookup_insert_ne.
    + intros v e' Hv. destruct (Hform _ _ Hv) as (e3 & H3 & Hshape).
      rewrite Hb3 in H3. destruct (decide (pindex = v)) as [<- | Hne].
      * rewrite lookup_insert_eq in H3. injection H3 as <-.
        exists e. split; [done |]. right.
        destruct Hshape as [-> | (c & s & ->)]; [by eexists _, _ |].
        exists c, s. apply link_entry_again.
      * rewrite lookup_insert_ne in H3 by done. by exists e3.
    + intros c Hc. destruct (Hcand c Hc) as [Hc3 | [Hv Hw]].
      * destruct (Hc2' c Hc3) as [Hc0 | [-> Hw]]; [by left |].
        right. split; [by left |].
        intros t e' te' Htip He' Hte'.
        destruct (Hform _ _ Hte') as (te3 & Hte3 & _).
        rewrite (Hwork _ _ _ Hte3 Hte').
        assert (He3 : blocks st3 !! pindex = Some e1)
          by (rewrite Hb3; apply lookup_insert_eq).
        rewrite (Hwork _ _ _ He3 He').
        apply (Hw t te3 Htip). rewrite Hb3 in Hte3. exact Hte3.
      * right. split; [by right |].
        intros t e' te' Htip. apply Hw. by rewrite <- Htip.
    + set_solver.
    + intros kc Hkc. apply Husub in Hkc. rewrite Hu3 in Hkc.
      by apply list_elem_of_filter in Hkc as [_ Hkc].
    + by rewrite Ht.
    + by rewrite Hm.
    + by rewrite Hx.
    + by rewrite Hg.
Qed.

Lemma index_closedb_sound (st : ChainState) :
  index_closedb st = true -> index_closed st.
Proof.
  unfold index_closedb. intros H. apply andb_prop in H as [H1 H2].
  rewrite forallb_forall in H1. rewrite forallb_forall in H2. split.
  - intros p e q Hp Hq.
    specialize (H1 (p, e)). simpl in H1. rewrite Hq in H1.
    apply bool_decide_eq_true in H1; [done |].
    apply list_elem_of_In. by apply elem_of_map_to_list.
  - intros k c Hkc. specialize (H2 (k, c)). simpl in H2.
    apply bool_decide_eq_true in H2; [done |]. by apply list_elem_of_In.
Qed.

Lemma RaiseValidity_fields (e : CBlockIndex) (v : BlockValidity) :
  pprev (RaiseValidity e v) = pprev e
  /\ nHeight (RaiseValidity e v) = nHeight e
  /\ nChainWork (RaiseValidity e v) = nChainWork e
  /\ nChainTx (RaiseValidity e v) = nChainTx e
  /\ nTx (RaiseValidity e v) = nTx e
  /\ nSequenceId (RaiseValidity e v) = nSequenceId e
  /\ HAVE_DATA (nStatus (RaiseValidity e v)) = HAVE_DATA (nStatus e)
  /\ FAILED_VALID (nStatus (RaiseValidity e v)) = FAILED_VALID (nStatus e)
  /\ FAILED_CHILD (nStatus (RaiseValidity e v)) = FAILED_CHILD (nStatus e)
  /\ validity_rank (VALID_LEVEL (nStatus e))
     <= validity_rank (VALID_LEVEL (nStatus (RaiseValidity e v)))
  /\ (FAILED_MASK (nStatus e) = false ->
      validity_rank v <= validity_rank (VALID_LEVEL (nStatus (RaiseValidity e v)))).
Proof.
  unfold RaiseValidity.
  destruct (FAILED_MASK (nStatus e)) eqn:Hf;
    [repeat split; try done; lia |].
  destruct (Z.ltb_spec (validity_rank (VALID_LEVEL (nStatus e))) (validity_rank v));
    simpl; repeat split; try done; lia.
Qed.

Lemma receive_data_fields (e : CBlockIndex) (pos : bool) (ntx file dpos : Z) (w : bool) :
  pprev (receive_data e pos ntx file dpos w) = pprev e
  /\ nHeight (receive_data e pos ntx file dpos w) = nHeight e
  /\ nChainWork (receive_data e pos ntx file dpos w) = nChainWork e
  /\ nSequenceId (receive_data e pos ntx file dpos w) = nSequenceId e
  /\ HAVE_DATA (nStatus (receive_data e pos ntx file dpos w)) = true
  /\ FAILED_VALID (nStatus (receive_data e pos ntx file dpos w)) = FAILED_VALID (nStatus e)
  /\ FAILED_CHILD (nStatus (receive_data e pos ntx file dpos w)) = FAILED_CHILD (nStatus e)
  /\ (FAILED_MASK (nStatus e) = false ->
      validity_rank BLOCK_VALID_TRANSACTIONS
      <= validity_rank (VALID_LEVEL (nStatus (receive_data e pos ntx file dpos w)))).
Proof.
  unfold receive_data.
  match goal with |- context [RaiseValidity ?x ?v] =>
    destruct (RaiseValidity_fields x v)
      as (H1 & H2 & H3 & H4 & H5 & H6 & H7 & H8 & H9 & H10 & H11) end.
  rewrite H1, H2, H3, H6, H7, H8, H9. simpl. repeat split; done.
Qed.



(** ** [AcceptBlockHeader]: the predecessor is unknown or failed *)

Lemma GetAncestor_path (fuel : nat) :
  forall (st : ChainState) (p : BlockHandle) (height : Z) (a : BlockHandle),
    GetAncestor fuel st p height = Some a ->
    exists l, pprev_path st p l a /\ (length l <= fuel)%nat.
Proof.
  induction fuel as [| fuel IH]; intros st p height a.
  - simpl. destruct (blocks st !! p) as [e |]; [| discriminate].
    destruct ((height <? 0) || (nHeight e <? height)); [discriminate |].
    destruct (nHeight e =? height); [| discriminate].
    intros [= <-]. exists []. split; [constructor | done].
  - simpl. destruct (blocks st !! p) as [e |] eqn:He; [| discriminate].
    destruct ((height <? 0) || (nHeight e <? height)); [discriminate |].
    destruct (Z.eqb_spec (nHeight e) height) as [Heq | Hne].
    + intros [= <-]. exists []. split; [constructor | simpl; lia].
    + destruct (pprev e) as [q |] eqn:Hq; [| discriminate].
      intros Hanc. destruct (IH _ _ _ _ Hanc) as (l & Hpath & Hlen).
      destruct (decide (p = a)) as [-> | Hpa].
      * exists []. split; [constructor | simpl; lia].
      * exists (p :: l). split; [by econstructor | simpl; lia].
Qed.

Lemma pprev_path_status (st st' : ChainState) (p a : BlockHandle) (l : list BlockHandle) :
  (forall v e, blocks st !! v = Some e ->
               exists e', blocks st' !! v = Some e' /\ pprev e' = pprev e) ->
  pprev_path st p l a -> pprev_path st' p l a.
Proof.
  intros Hsame Hpath. induction Hpath as [| p q r e l Hne He Hq Hpath IH];
    [constructor |].
  destruct (Hsame _ _ He) as (e' & He' & Hp).
  econstructor; [done | exact He' | by rewrite Hp | exact IH].
Qed.

Lemma or_FAILED_CHILD_again (e : CBlockIndex) :
  or_FAILED_CHILD (or_FAILED_CHILD e) = or_FAILED_CHILD e.
Proof. reflexivity. Qed.

(** The walk of [AcceptBlockHeader] from the predecessor to the failed
    block marks the entries of the path, and only them. *)
Lemma mark_failed_children_path (l : list BlockHandle) :
  forall (st : ChainState) (p a : BlockHandle) (fuel : nat),
    pprev_path st p l a ->
    (length l <= fuel)%nat ->
    exists st',
      mark_failed_children fuel st p a = Ok st'
      /\ (forall v e, blocks st !! v = Some e ->
            blocks st' !! v
            = Some (if bool_decide (v ∈ l) then or_FAILED_CHILD e else e))
      /\ (forall v, blocks st !! v = None -> blocks st' !! v = None)
      /\ mapBlockIndex st' = mapBlockIndex st
      /\ setBlockIndexCandidates st' = setBlockIndexCandidates st
      /\ mapBlocksUnlinked st' = mapBlocksUnlinked st
      /\ chainTip st' = chainTip st
      /\ nBlockSequenceId st' = nBlockSequenceId st
      /\ next_block st' = next_block st
      /\ g_failed_blocks st' = g_failed_blocks st.
Proof.
  induction l as [| x l IH]; intros st p a fuel Hpath Hfuel.
  - inversion Hpath; subst. exists st. split.
    { destruct fuel; unfold mark_failed_children;
        by rewrite (bool_decide_eq_true_2 (a = a)). }
    repeat split; done.
  - inversion Hpath as [| p' q r e l' Hne He Hq Hpath']; subst.
    destruct fuel as [| fuel]; [simpl in Hfuel; lia |].
    set (st1 := store_dirty st x (or_FAILED_CHILD e)).
    assert (Hb1 : blocks st1 = <[x := or_FAILED_CHILD e]> (blocks st)) by reflexivity.
    assert (Hpath1 : pprev_path st1 q l a).
    { apply (pprev_path_status st); [| exact Hpath'].
      intros v ev Hv. rewrite Hb1. destruct (decide (x = v)) as [<- | Hpv].
      - rewrite lookup_insert_eq. eexists. split; [done |].
        rewrite He in Hv. by injection Hv as <-.
      - rewrite lookup_insert_ne by done. by exists ev. }
    destruct (IH st1 q a fuel Hpath1) as (st' & Hrun & Hmark & Hnone & Hrest);
      [simpl in Hfuel; lia |].
    exists st'. split.
    { unfold mark_failed_children; fold mark_failed_children.
      rewrite (bool_decide_eq_false_2 (x = a)) by done.
      rewrite (deref_Some _ _ _ He). cbn [mbind Result_bind bind].
      rewrite Hq. exact Hrun. }
    split.
    { intros v ev Hv. destruct (decide (x = v)) as [<- | Hpv].
      - rewrite He in Hv. injection Hv as <-.
        rewrite (Hmark x (or_FAILED_CHILD e)) by (rewrite Hb1; apply lookup_insert_eq).
        rewrite (bool_decide_eq_true_2 (x ∈ x :: l)) by (by left).
        by destruct (bool_decide (x ∈ l)).
      - rewrite (Hmark v ev) by (rewrite Hb1, lookup_insert_ne; done).
        f_equal. rewrite (bool_decide_ext (v ∈ x :: l) (v ∈ l)); [done |].
        rewrite elem_of_cons. naive_solver. }
    split.
    { intros v Hv. apply Hnone. rewrite Hb1.
      rewrite lookup_insert_ne; [done |]. intros <-. by rewrite He in Hv. }
    exact Hrest.
Qed.

Lemma failed_blocks_marked_spec (st : ChainState) (f : BlockHandle) :
  failed_blocks_marked st = true ->
  f ∈ g_failed_blocks st ->
  exists fe, blocks st !! f = Some fe /\ FAILED_VALID (nStatus fe) = true.
Proof.
  unfold failed_blocks_marked. rewrite forallb_forall. intros Hall Hf.
  specialize (Hall f). destruct (blocks st !! f) as [fe |].
  - exists fe. split; [done |]. apply Hall. apply list_elem_of_In.
    by apply elem_of_elements.
  - exfalso. assert (false = true); [| discriminate].
    apply Hall. apply list_elem_of_In. by apply elem_of_elements.
Qed.

Lemma find_failed_ancestor_found (st : ChainState) (pindexPrev : BlockHandle)
  (failed : list BlockHandle) :
  (forall f, f ∈ failed -> is_Some (blocks st !! f)) ->
  (exists f fe, f ∈ failed /\ blocks st !! f = Some fe
                /\ GetAncestor (size (blocks st)) st pindexPrev (nHeight fe) = Some f) ->
  exists failedit fe,
    find_failed_ancestor st pindexPrev failed = Ok (Some failedit)
    /\ failedit ∈ failed /\ blocks st !! failedit = Some fe
    /\ GetAncestor (size (blocks st)) st pindexPrev (nHeight fe) = Some failedit.
Proof.
  induction failed as [| x failed IH]; intros Hall (f & fe & Hf & Hfe & Hanc).
  - by apply elem_of_nil in Hf.
  - destruct (Hall x) as [xe Hxe]; [by left |].
    unfold find_failed_ancestor; fold find_failed_ancestor.
    rewrite (deref_Some _ _ _ Hxe). cbn [mbind Result_bind bind].
    case_bool_decide as Hx.
    + exists x, xe. split; [done |]. split; [by left | done].
    + destruct IH as (failedit & fe' & Hrun & Hin & Hrest).
      * intros g Hg. apply Hall. by right.
      * exists f, fe. split; [| done].
        apply elem_of_cons in Hf as [-> | Hf]; [| done].
        rewrite Hxe in Hfe. injection Hfe as <-. contradiction.
      * exists failedit, fe'. split; [done |]. split; [by right | done].
Qed.

(** C8: for a header that is not known and is not the genesis block,
    [AcceptBlockHeader] fails and leaves the block index as it was when the
    predecessor is not in [mapBlockIndex], with [prev-blk-not-found] (DoS
    score 10) once [CheckBlockHeader] has passed, and when the predecessor
    is marked failed, with [bad-prevblk] (DoS score 100).  When the
    predecessor is not marked, is not valid up to [BLOCK_VALID_SCRIPTS] and
    descends from a block of [g_failed_blocks], it fails with [bad-prevblk],
    every entry from the predecessor down to that failed block (itself not
    included) gets [BLOCK_FAILED_CHILD], nothing else changes in the
    entries, and no entry is added. *)
Theorem AcceptBlockHeader_bad_prev (env : IndexEnv) (block : CBlockHeader)
  (hash : uint256) (st : ChainState) :
  hash <> idx_hashGenesisBlock env ->
  mapBlockIndex st !! hash = None ->
  (mapBlockIndex st !! hashPrevBlock block = None ->
   is_ok (fst (AcceptBlockHeader env block hash st)) = false
   /\ snd (AcceptBlockHeader env block hash st) = st
   /\ (CheckBlockHeader env block = Ok tt ->
       fst (AcceptBlockHeader env block hash st)
       = Reject 10 REJECT_ZERO "prev-blk-not-found"))
  /\ (forall pindexPrev pe,
        mapBlockIndex st !! hashPrevBlock block = Some pindexPrev ->
        blocks st !! pindexPrev = Some pe ->
        (FAILED_MASK (nStatus pe) = true ->
         is_ok (fst (AcceptBlockHeader env block hash st)) = false
         /\ snd (AcceptBlockHeader env block hash st) = st
         /\ (CheckBlockHeader env block = Ok tt ->
             fst (AcceptBlockHeader env block hash st)
             = Reject 100 REJECT_INVALID "bad-prevblk"))
        /\ (FAILED_MASK (nStatus pe) = false ->
            IsValid pe BLOCK_VALID_SCRIPTS = false ->
            CheckBlockHeader env block = Ok tt ->
            ContextualCheckBlockHeader env block st pindexPrev = Ok tt ->
            failed_blocks_marked st = true ->
            (exists f fe, f ∈ g_failed_blocks st /\ blocks st !! f = Some fe
                          /\ GetAncestor (size (blocks st)) st pindexPrev (nHeight fe)
                             = Some f) ->
            exists failedit l,
              failedit ∈ g_failed_blocks st
              /\ pprev_path st pindexPrev l failedit
              /\ fst (AcceptBlockHeader env block hash st)
                 = Reject 100 REJECT_INVALID "bad-prevblk"
              /\ mapBlockIndex (snd (AcceptBlockHeader env block hash st))
                 = mapBlockIndex st
              /\ setBlockIndexCandidates (snd (AcceptBlockHeader env block hash st))
                 = setBlockIndexCandidates st
              /\ (forall v,
                    blocks (snd (AcceptBlockHeader env block hash st)) !! v
                    = (fun e => if bool_decide (v ∈ l) then or_FAILED_CHILD e else e)
                        <$> blocks st !! v))).
Proof.
  intros Hgen Hnew. unfold AcceptBlockHeader.
  rewrite (bool_decide_eq_false_2 _ Hgen), Hnew. split.
  - intros Hprev. rewrite Hprev.
    destruct (CheckBlockHeader env block) as [[] | | | |]; simpl; repeat split; done.
  - intros pindexPrev pe Hprev Hpe. rewrite Hprev, Hpe. split.
    + intros Hfailed. rewrite Hfailed.
      destruct (CheckBlockHeader env block) as [[] | | | |]; simpl; repeat split; done.
    + intros Hunmarked Hscripts Hcheck Hctx Hmarked Hanc.
      rewrite Hcheck, Hunmarked, Hctx, Hscripts.
      destruct (find_failed_ancestor_found st pindexPrev
                  (merge_sort Pos.le (elements (g_failed_blocks st))))
        as (failedit & fe & Hfind & Hin & Hfe & Hanc').
      { intros f Hf. rewrite merge_sort_Permutation in Hf.
        apply elem_of_elements in Hf.
        destruct (failed_blocks_marked_spec st f Hmarked Hf) as (fe & Hfe & _).
        eauto. }
      { destruct Hanc as (f & fe & Hf & Hfe & Hanc). exists f, fe.
        split; [| done]. rewrite merge_sort_Permutation. by apply elem_of_elements. }
      rewrite merge_sort_Permutation in Hin. apply elem_of_elements in Hin.
      destruct (failed_blocks_marked_spec st failedit Hmarked Hin) as (fe' & Hfe' & Hfv).
      rewrite Hfe in Hfe'. injection Hfe' as <-.
      destruct (GetAncestor_path _ _ _ _ _ Hanc') as (l & Hpath & Hlen).
      destruct (mark_failed_children_path l st pindexPrev failedit
                  (size (blocks st)) Hpath Hlen)
        as (st' & Hrun & Hmark & Hnone & Hm & Hc & _).
      exists failedit, l. rewrite Hfind, Hfe, Hfv, Hrun. simpl.
      split; [done |]. split; [done |]. split; [done |]. split; [done |].
      split; [done |]. intros v.
      destruct (blocks st !! v) as [e |] eqn:He; simpl.
      * by apply Hmark.
      * by apply Hnone.
Qed.

(** In the three block tree, with [a] found invalid and [b] known by its
    header only: a header on top of [b] is refused and [b] is marked; a
    header on top of [a] is refused; so is one on top of an unknown block. *)
Lemma AcceptBlockHeader_bad_prev_witness :
  fst (AcceptBlockHeader demo_index_env (demo_header 9) 4 demo_chain_3)
  = Reject 10 REJECT_ZERO "prev-blk-not-found"
  /\ fst (AcceptBlockHeader demo_index_env (demo_header 2) 4 demo_chain_3)
     = Reject 100 REJECT_INVALID "bad-prevblk"
  /\ fst (AcceptBlockHeader demo_index_env (demo_header 3) 4 demo_chain_3)
     = Reject 100 REJECT_INVALID "bad-prevblk"
  /\ (FAILED_CHILD ∘ nStatus)
       <$> blocks (snd (AcceptBlockHeader demo_index_env (demo_header 3) 4
                          demo_chain_3)) !! 3%positive
     = Some true.
Proof.
  assert (Hgen : 4 <> idx_hashGenesisBlock demo_index_env) by discriminate.
  assert (Hnew : mapBlockIndex demo_chain_3 !! 4 = None) by (vm_compute; reflexivity).
  split; [| split].
  - apply (proj1 (AcceptBlockHeader_bad_prev demo_index_env (demo_header 9) 4
                    demo_chain_3 Hgen Hnew)); [vm_compute |]; reflexivity.
  - assert (Ha : match blocks demo_chain_3 !! 2%positive with
                 | Some pe => FAILED_MASK (nStatus pe)
                 | None => false
                 end = true) by (vm_compute; reflexivity).
    destruct (blocks demo_chain_3 !! 2%positive) as [pe |] eqn:Hpe; [| discriminate].
    apply (proj1 (proj2 (AcceptBlockHeader_bad_prev demo_index_env (demo_header 2) 4
                           demo_chain_3 Hgen Hnew) 2%positive pe
                    ltac:(vm_compute; reflexivity) Hpe));
      [exact Ha | reflexivity].
  - assert (Hb : match blocks demo_chain_3 !! 3%positive with
                 | Some pe => negb (FAILED_MASK (nStatus pe))
                              && negb (IsValid pe BLOCK_VALID_SCRIPTS)
                 | None => false
                 end = true) by (vm_compute; reflexivity).
    destruct (blocks demo_chain_3 !! 3%positive) as [pe |] eqn:Hpe; [| discriminate].
    apply andb_prop in Hb as [Hb1 Hb2].
    apply negb_true_iff in Hb1. apply negb_true_iff in Hb2.
    assert (Ha : match blocks demo_chain_3 !! 2%positive with
                 | Some fe => bool_decide
                                (GetAncestor (size (blocks demo_chain_3)) demo_chain_3
                                   3%positive (nHeight fe) = Some 2%positive)
                 | None => false
                 end = true) by (vm_compute; reflexivity).
    destruct (blocks demo_chain_3 !! 2%positive) as [fe |] eqn:Hfe; [| discriminate].
    apply bool_decide_eq_true in Ha.
    destruct (proj2 (proj2 (AcceptBlockHeader_bad_prev demo_index_env (demo_header 3) 4
                              demo_chain_3 Hgen Hnew) 3%positive pe
                       ltac:(vm_compute; reflexivity) Hpe)
                Hb1 Hb2 eq_refl eq_refl ltac:(vm_compute; reflexivity))
      as (failedit & l & Hin & Hpath & Hres & Hm & Hc & Hmark).
    { exists 2%positive, fe. split; [| split; [exact Hfe | exact Ha]].
      apply elem_of_elements. vm_compute. by left. }
    split; [exact Hres |].
    rewrite Hmark. unfold BlockHandle in *. rewrite Hpe. simpl.
    inversion Hpath as [| p q r e l' Hne He Hq Hpath']; subst.
    + exfalso. assert (Hf : 3%positive ∈ elements (g_failed_blocks demo_chain_3))
        by (by apply elem_of_elements).
      vm_compute in Hf. apply list_elem_of_singleton in Hf. discriminate.
    + rewrite bool_decide_eq_true_2 by (by left). reflexivity.
Defined.

(** ** The candidate set *)

Lemma entry_kept_refl (e : CBlockIndex) :
  (HAVE_DATA (nStatus e) = true ->
   validity_rank BLOCK_VALID_TRANSACTIONS <= validity_rank (VALID_LEVEL (nStatus e))) ->
  entry_kept e e.
Proof. intros H. by repeat split. Qed.

Lemma entry_kept_trans (e1 e2 e3 : CBlockIndex) :
  entry_kept e1 e2 -> entry_kept e2 e3 -> entry_kept e1 e3.
Proof.
  intros (Hp & Hw & Hd & _) (Hp' & Hw' & Hd' & Hl').
  repeat split; [congruence | congruence | auto | auto].
Qed.

Lemma index_kept_refl (st : ChainState) : index_inv0 st -> index_kept st st.
Proof.
  intros (_ & _ & Hdata & _). repeat split; try done.
  intros v e Hv. exists e. split; [done |]. apply entry_kept_refl. by apply (Hdata v).
Qed.

Lemma index_kept_trans (st1 st2 st3 : ChainState) :
  index_kept st1 st2 -> index_kept st2 st3 -> index_kept st1 st3.
Proof.
  intros (Hb & Hn & Ht & Hu & Hc & Hx) (Hb' & Hn' & Ht' & Hu' & Hc' & Hx').
  repeat split.
  - intros v e Hv. destruct (Hb _ _ Hv) as (e2 & Hv2 & Hk).
    destruct (Hb' _ _ Hv2) as (e3 & Hv3 & Hk'). exists e3. split; [done |].
    by apply (entry_kept_trans e e2 e3).
  - auto.
  - congruence.
  - auto.
  - set_solver.
  - congruence.
Qed.

Lemma index_kept_inv0 (st st' : ChainState) :
  index_inv0 st -> index_kept st st' -> index_inv0 st'.
Proof.
  intros (Hprev & Htip & Hdata & Hunl & Hcand & Hfresh) (Hb & Hn & Ht & Hu & Hc & Hx).
  assert (Hback : forall v e', blocks st' !! v = Some e' ->
                    exists e, blocks st !! v = Some e /\ entry_kept e e').
  { intros v e' Hv. destruct (blocks st !! v) as [e |] eqn:He.
    - destruct (Hb _ _ He) as (e2 & Hv2 & Hk). rewrite Hv in Hv2.
      injection Hv2 as <-. by exists e.
    - rewrite (Hn _ He) in Hv. discriminate. }
  repeat split.
  - intros p e' q Hp Hq. destruct (Hback _ _ Hp) as (e & He & Hk).
    destruct Hk as (Hpp & Hw & _). rewrite Hpp in Hq.
    destruct (Hprev _ _ _ He Hq) as (qe & Hqe & Hle).
    destruct (Hb _ _ Hqe) as (qe' & Hqe' & (_ & Hw' & _)).
    exists qe'. split; [done |]. lia.
  - intros t Htip'. rewrite Ht in Htip'. destruct (Htip _ Htip') as [te Hte].
    destruct (Hb _ _ Hte) as (te' & Hte' & _). eauto.
  - intros p e' Hp Hd. destruct (Hback _ _ Hp) as (e & He & Hk).
    destruct Hk as (_ & _ & _ & Hl). by apply Hl.
  - intros k c Hkc. destruct (Hunl k c (Hu _ Hkc)) as (e & He & Hd).
    destruct (Hb _ _ He) as (e' & He' & (_ & _ & Hd' & _)). exists e'. auto.
  - intros c Hcc. destruct (Hcand c) as (e & He & Hd); [set_solver |].
    destruct (Hb _ _ He) as (e' & He' & (_ & _ & Hd' & _)). exists e'. auto.
  - intros p [e' Hp]. rewrite Hx. apply Hfresh.
    destruct (Hback _ _ Hp) as (e & He & _). eauto.
Qed.

Lemma index_kept_inv (st st' : ChainState) :
  index_inv st -> index_kept st st' -> index_inv st'.
Proof.
  intros [H0 Hwork] Hkept. split; [by apply (index_kept_inv0 st) |].
  destruct Hkept as (Hb & Hn & Ht & Hu & Hc & Hx).
  intros c e' t te' Hcc He' Htip Hte'. rewrite Ht in Htip.
  assert (Hback : forall v e', blocks st' !! v = Some e' ->
                    exists e, blocks st !! v = Some e /\ nChainWork e' = nChainWork e).
  { intros v x Hv. destruct (blocks st !! v) as [e |] eqn:He.
    - destruct (Hb _ _ He) as (e2 & Hv2 & (_ & Hw & _)). rewrite Hv in Hv2.
      injection Hv2 as <-. by exists e.
    - rewrite (Hn _ He) in Hv. discriminate. }
  destruct (Hback _ _ He') as (e & He & ->).
  destruct (Hback _ _ Hte') as (te & Hte & ->).
  apply (Hwork c e t te); [set_solver | done | done | done].
Qed.

(** Writing an entry that is kept. *)
Lemma store_dirty_kept (st : ChainState) (p : BlockHandle) (e e' : CBlockIndex) :
  index_inv0 st -> blocks st !! p = Some e -> entry_kept e e' ->
  index_kept st (store_dirty st p e').
Proof.
  intros (_ & _ & Hdata & _) He Hk. repeat split; try done.
  - intros v ev Hv. simpl. destruct (decide (p = v)) as [<- | Hne].
    + rewrite lookup_insert_eq. exists e'. split; [done |].
      rewrite He in Hv. by injection Hv as <-.
    + rewrite lookup_insert_ne by done. exists ev. split; [done |].
      apply entry_kept_refl. by apply (Hdata v).
  - intros v Hv. simpl. rewrite lookup_insert_ne; [done |]. intros <-.
    by rewrite He in Hv.
Qed.

Lemma set_blocks_kept (st : ChainState) (p : BlockHandle) (e e' : CBlockIndex) :
  index_inv0 st -> blocks st !! p = Some e -> entry_kept e e' ->
  index_kept st (set_blocks st (<[p := e']> (blocks st))).
Proof.
  intros (_ & _ & Hdata & _) He Hk. repeat split; try done.
  - intros v ev Hv. simpl. destruct (decide (p = v)) as [<- | Hne].
    + rewrite lookup_insert_eq. exists e'. split; [done |].
      rewrite He in Hv. by injection Hv as <-.
    + rewrite lookup_insert_ne by done. exists ev. split; [done |].
      apply entry_kept_refl. by apply (Hdata v).
  - intros v Hv. simpl. rewrite lookup_insert_ne; [done |]. intros <-.
    by rewrite He in Hv.
Qed.

Lemma set_candidates_kept (st : ChainState) (c : gset BlockHandle) :
  index_inv0 st -> c ⊆ setBlockIndexCandidates st ->
  index_kept st (set_candidates st c).
Proof.
  intros H0 Hsub. destruct (index_kept_refl st H0) as (Hb & Hn & Ht & Hu & Hc & Hx).
  repeat split; done.
Qed.

Lemma set_pindexBestInvalid_kept (st : ChainState) (b : option BlockHandle) :
  index_inv0 st -> index_kept st (set_pindexBestInvalid st b).
Proof.
  intros H0. destruct (index_kept_refl st H0) as (Hb & Hn & Ht & Hu & Hc & Hx).
  repeat split; done.
Qed.

Lemma set_g_failed_blocks_kept (st : ChainState) (f : gset BlockHandle) :
  index_inv0 st -> index_kept st (set_g_failed_blocks st f).
Proof.
  intros H0. destruct (index_kept_refl st H0) as (Hb & Hn & Ht & Hu & Hc & Hx).
  repeat split; done.
Qed.

Lemma or_FAILED_CHILD_kept (e : CBlockIndex) :
  (HAVE_DATA (nStatus e) = true ->
   validity_rank BLOCK_VALID_TRANSACTIONS <= validity_rank (VALID_LEVEL (nStatus e))) ->
  entry_kept e (or_FAILED_CHILD e).
Proof. intros H. by repeat split. Qed.

Lemma or_FAILED_VALID_kept (e : CBlockIndex) :
  (HAVE_DATA (nStatus e) = true ->
   validity_rank BLOCK_VALID_TRANSACTIONS <= validity_rank (VALID_LEVEL (nStatus e))) ->
  entry_kept e (or_FAILED_VALID e).
Proof. intros H. by repeat split. Qed.

Lemma AddToBlockIndex_inv (env : IndexEnv) (block : CBlockHeader) (hash : uint256)
  (st : ChainState) :
  (forall b, 0 <= GetBlockProof env b) ->
  index_inv st -> index_inv (snd (AddToBlockIndex env block hash st)).
Proof.
  intros Hproof [H0 Hwork]. unfold AddToBlockIndex.
  destruct (mapBlockIndex st !! hash) as [p |]; [done |]. simpl.
  destruct H0 as (Hprev & Htip & Hdata & Hunl & Hcand & Hfresh).
  assert (Hnew : blocks st !! next_block st = None).
  { destruct (blocks st !! next_block st) eqn:Hn; [| done].
    assert (next_block st < next_block st)%positive by (apply Hfresh; eauto). lia. }
  assert (Hold : forall v e, blocks st !! v = Some e ->
                   <[next_block st := e]> (blocks st) !! v = Some e
                   /\ v <> next_block st).
  { intros v e Hv. assert (v <> next_block st) by (intros ->; congruence).
    by rewrite lookup_insert_ne. }
  match goal with |- index_inv {| blocks := <[_ := ?x]> _ |} => set (entry := x) end.
  assert (Hlook : forall v e, blocks st !! v = Some e ->
                    <[next_block st := entry]> (blocks st) !! v = Some e).
  { intros v e Hv. rewrite lookup_insert_ne; [done |]. intros <-. congruence. }
  assert (Hlook' : forall v e, <[next_block st := entry]> (blocks st) !! v = Some e ->
                     (v = next_block st /\ e = entry) \/ blocks st !! v = Some e).
  { intros v e Hv. destruct (decide (next_block st = v)) as [<- | Hne].
    - rewrite lookup_insert_eq in Hv. injection Hv as <-. by left.
    - rewrite lookup_insert_ne in Hv by done. by right. }
  assert (Hentry : HAVE_DATA (nStatus entry) = false
                   /\ forall q, pprev entry = Some q ->
                        exists qe, blocks st !! q = Some qe
                                   /\ nChainWork qe <= nChainWork entry).
  { subst entry.
    match goal with |- context [RaiseValidity ?x ?v] =>
      destruct (RaiseValidity_fields x v)
        as (H1 & _ & H3 & _ & _ & _ & H7 & _) end.
    rewrite H1, H3, H7. simpl. split; [done |].
    intros q Hq. specialize (Hproof block).
    destruct (mapBlockIndex st !! hashPrevBlock block) as [q' |]; [| done].
    destruct (blocks st !! q') as [qe |] eqn:Hqe; [| done].
    injection Hq as <-. exists qe. split; [done |]. lia. }
  destruct Hentry as [Hnodata Hpprev].
  split; [repeat split |]; simpl.
  - intros p e q Hp Hq. apply Hlook' in Hp as [[-> ->] | Hp].
    + destruct (Hpprev q Hq) as (qe & Hqe & Hle). exists qe. split; [by apply Hlook | done].
    + destruct (Hprev _ _ _ Hp Hq) as (qe & Hqe & Hle). exists qe.
      split; [by apply Hlook | done].
  - intros t Ht. destruct (Htip t Ht) as [te Hte]. exists te. by apply Hlook.
  - intros p e Hp Hd. apply Hlook' in Hp as [[-> ->] | Hp]; [congruence |].
    by apply (Hdata p).
  - intros k c Hkc. destruct (Hunl k c Hkc) as (e & He & Hd). exists e.
    split; [by apply Hlook | done].
  - intros c Hc. destruct (Hcand c Hc) as (e & He & Hd). exists e.
    split; [by apply Hlook | done].
  - intros p [e Hp]. apply Hlook' in Hp as [[-> ->] | Hp]; [lia |].
    assert (p < next_block st)%positive by (apply Hfresh; eauto). lia.
  - intros c e t te Hc He Ht Hte.
    destruct (Hcand c Hc) as (e0 & He0 & _).
    destruct (Htip t Ht) as [te0 Hte0].
    apply Hlook' in He as [[-> _] | He]; [congruence |].
    apply Hlook' in Hte as [[-> _] | Hte]; [congruence |].
    by apply (Hwork c e t te).
Qed.

Lemma mark_failed_children_kept (fuel : nat) :
  forall (st st' : ChainState) (p a : BlockHandle),
    index_inv0 st ->
    mark_failed_children fuel st p a = Ok st' ->
    index_kept st st'.
Proof.
  induction fuel as [| fuel IH]; intros st st' p a H0.
  - simpl. case_bool_decide; [| discriminate].
    intros [= <-]. by apply index_kept_refl.
  - unfold mark_failed_children; fold mark_failed_children.
    case_bool_decide; [intros [= <-]; by apply index_kept_refl |].
    destruct (blocks st !! p) as [e |] eqn:He;
      [rewrite (deref_Some _ _ _ He) | unfold deref; rewrite He; discriminate].
    cbn [mbind Result_bind bind].
    destruct (pprev e) as [q |]; [| discriminate].
    intros Hrun.
    assert (Hk : index_kept st (store_dirty st p (or_FAILED_CHILD e))).
    { apply (store_dirty_kept st p e); [done | done |].
      apply or_FAILED_CHILD_kept. destruct H0 as (_ & _ & Hdata & _). by apply (Hdata p). }
    apply (index_kept_trans _ _ _ Hk).
    apply (IH _ _ _ _ (index_kept_inv0 _ _ H0 Hk) Hrun).
Qed.

Lemma AcceptBlockHeader_inv (env : IndexEnv) (block : CBlockHeader) (hash : uint256)
  (st : ChainState) :
  (forall b, 0 <= GetBlockProof env b) ->
  index_inv st -> index_inv (snd (AcceptBlockHeader env block hash st)).
Proof.
  intros Hproof Hinv. pose proof (AddToBlockIndex_inv env block hash st Hproof Hinv) as Hadd.
  unfold AcceptBlockHeader.
  destruct (AddToBlockIndex env block hash st) as [p stadd]. simpl in Hadd.
  case_bool_decide; [done |].
  destruct (mapBlockIndex st !! hash) as [pindex |].
  { destruct (blocks st !! pindex) as [e |]; [| done].
    by destruct (FAILED_MASK (nStatus e)). }
  destruct (CheckBlockHeader env block); try done.
  destruct (mapBlockIndex st !! hashPrevBlock block) as [pindexPrev |]; [| done].
  destruct (blocks st !! pindexPrev) as [pe |]; [| done].
  destruct (FAILED_MASK (nStatus pe)); [done |].
  destruct (ContextualCheckBlockHeader env block st pindexPrev); try done.
  destruct (IsValid pe BLOCK_VALID_SCRIPTS); [done |].
  destruct (find_failed_ancestor _ _ _) as [[failedit |] | | | |]; try done.
  destruct (blocks st !! failedit) as [fe |]; [| done].
  destruct (FAILED_VALID (nStatus fe)); [| done].
  destruct (mark_failed_children _ _ _ _) as [st' | | | |] eqn:Hmark; try done.
  simpl. apply (index_kept_inv st); [done |].
  apply (mark_failed_children_kept _ _ _ _ _ (proj1 Hinv) Hmark).
Qed.

Lemma InvalidBlockFound_kept (st st' : ChainState) (pindex : BlockHandle)
  (corruptionPossible : bool) :
  index_inv0 st ->
  InvalidBlockFound st pindex corruptionPossible = Ok st' ->
  index_kept st st'.
Proof.
  intros H0. unfold InvalidBlockFound.
  destruct corruptionPossible; [intros [= <-]; by apply index_kept_refl |].
  destruct (blocks st !! pindex) as [e |] eqn:He;
    [rewrite (deref_Some _ _ _ He) | unfold deref; rewrite He; discriminate].
  cbn [mbind Result_bind bind].
  set (st1 := store_dirty st pindex (or_FAILED_VALID e)).
  assert (Hk1 : index_kept st st1).
  { apply (store_dirty_kept st pindex e); [done | done |].
    apply or_FAILED_VALID_kept. destruct H0 as (_ & _ & Hdata & _). by apply (Hdata pindex). }
  pose proof (index_kept_inv0 _ _ H0 Hk1) as H1.
  set (st2 := set_g_failed_blocks st1 ({[pindex]} ∪ g_failed_blocks st1)).
  assert (Hk2 : index_kept st1 st2) by (by apply set_g_failed_blocks_kept).
  pose proof (index_kept_inv0 _ _ H1 Hk2) as H2.
  set (st3 := set_candidates st2 (setBlockIndexCandidates st2 ∖ {[pindex]})).
  assert (Hk3 : index_kept st2 st3) by (apply set_candidates_kept; [done | set_solver]).
  pose proof (index_kept_inv0 _ _ H2 Hk3) as H3.
  unfold InvalidChainFound.
  destruct (deref st3 pindex) as [e3 | | | |]; try discriminate.
  cbn [mbind Result_bind bind].
  intros Hrun.
  assert (Hk4 : index_kept st3 st').
  { destruct (pindexBestInvalid st3) as [b |].
    - destruct (deref st3 b) as [be | | | |]; try discriminate.
      cbn [mbind Result_bind bind] in Hrun.
      destruct (assert _ _); try discriminate. cbn [mbind Result_bind bind] in Hrun.
      injection Hrun as <-.
      destruct (nChainWork e3 >? nChainWork be);
        [by apply set_pindexBestInvalid_kept | by apply index_kept_refl].
    - cbn [mbind Result_bind bind] in Hrun.
      destruct (assert _ _); try discriminate. cbn [mbind Result_bind bind] in Hrun.
      injection Hrun as <-. by apply set_pindexBestInvalid_kept. }
  exact (index_kept_trans _ _ _ Hk1
           (index_kept_trans _ _ _ Hk2 (index_kept_trans _ _ _ Hk3 Hk4))).
Qed.

(** A state with the same entries, tip and handles, whose new
    [mapBlocksUnlinked] entries have their data and which has no new
    candidate. *)
Lemma index_inv_same_blocks (st st' : ChainState) :
  index_inv st ->
  blocks st' = blocks st ->
  chainTip st' = chainTip st ->
  next_block st' = next_block st ->
  (forall kc, kc ∈ mapBlocksUnlinked st' ->
     kc ∈ mapBlocksUnlinked st
     \/ exists e, blocks st !! snd kc = Some e /\ HAVE_DATA (nStatus e) = true) ->
  setBlockIndexCandidates st' ⊆ setBlockIndexCandidates st ->
  index_inv st'.
Proof.
  intros [(Hprev & Htip & Hdata & Hunl & Hcand & Hfresh) Hwork] Hb Ht Hx Hu Hc.
  split; [repeat split |]; try rewrite Hb; try rewrite Ht; try rewrite Hx; try done.
  - intros k c Hkc. destruct (Hu _ Hkc) as [Hold | Hnew]; [by apply (Hunl k) | done].
  - intros c Hcc. apply Hcand. set_solver.
  - intros c e t te Hcc. rewrite Hb, Ht. apply Hwork. set_solver.
Qed.

Lemma find_invalid_ancestor_None (fuel : nat) (st : ChainState) :
  find_invalid_ancestor fuel st None = Ok None.
Proof. by destruct fuel. Qed.

(** The entries that [FindMostWorkChain] has walked over before it stops at
    a failed entry or one without data are not failed and have their data. *)
Lemma find_invalid_ancestor_path (fuel : nat) :
  forall (st : ChainState) (p t : BlockHandle) (ff fm : bool),
    find_invalid_ancestor fuel st (Some p) = Ok (Some (t, ff, fm)) ->
    exists l te,
      pprev_path st p l t
      /\ blocks st !! t = Some te
      /\ ff = FAILED_MASK (nStatus te)
      /\ fm = negb (HAVE_DATA (nStatus te))
      /\ ff || fm = true
      /\ Contains st t = false
      /\ (forall v, v ∈ l ->
            exists e, blocks st !! v = Some e
                      /\ HAVE_DATA (nStatus e) = true
                      /\ FAILED_MASK (nStatus e) = false).
Proof.
  induction fuel as [| fuel IH]; intros st p t ff fm.
  - simpl. destruct (Contains st p); discriminate.
  - unfold find_invalid_ancestor; fold find_invalid_ancestor.
    destruct (Contains st p) eqn:Hcont; [discriminate |].
    destruct (blocks st !! p) as [e |] eqn:He;
      [rewrite (deref_Some _ _ _ He) | unfold deref; rewrite He; discriminate].
    cbn [mbind Result_bind bind].
    destruct (assert _ _); try discriminate. cbn [mbind Result_bind bind].
    destruct (FAILED_MASK (nStatus e) || negb (HAVE_DATA (nStatus e))) eqn:Hflags.
    + intros [= <- <- <-]. exists [], e. repeat split; try done; [constructor |].
      intros v Hv. by apply elem_of_nil in Hv.
    + destruct (pprev e) as [q |] eqn:Hq;
        [| rewrite find_invalid_ancestor_None; discriminate].
      intros Hrec. destruct (IH _ _ _ _ _ Hrec)
        as (l & te & Hpath & Hte & Hff & Hfm & Hbad & Hct & Hgood).
      apply orb_false_elim in Hflags as [Hf Hd]. apply negb_false_iff in Hd.
      assert (Hne : p <> t).
      { intros ->. rewrite He in Hte. injection Hte as <-.
        rewrite Hff, Hfm, Hf, Hd in Hbad. discriminate. }
      exists (p :: l), te. repeat split; try done.
      * by econstructor.
      * intros v Hv. apply elem_of_cons in Hv as [-> | Hv]; [| by apply Hgood].
        by exists e.
Qed.

Lemma remove_failed_chain_failed (fuel : nat) :
  forall (st st' : ChainState) (p t : BlockHandle) (fm : bool),
    index_inv0 st ->
    remove_failed_chain fuel st p t true fm = Ok st' ->
    index_kept st st'.
Proof.
  induction fuel as [| fuel IH]; intros st st' p t fm H0.
  - simpl. case_bool_decide; [| discriminate].
    intros [= <-]. by apply index_kept_refl.
  - unfold remove_failed_chain; fold remove_failed_chain.
    case_bool_decide; [intros [= <-]; by apply index_kept_refl |].
    destruct (blocks st !! p) as [e |] eqn:He;
      [rewrite (deref_Some _ _ _ He) | unfold deref; rewrite He; discriminate].
    cbn [mbind Result_bind bind].
    destruct (pprev e) as [q |]; [| discriminate].
    set (st1 := set_blocks st (<[p := or_FAILED_CHILD e]> (blocks st))).
    assert (Hk1 : index_kept st st1).
    { apply (set_blocks_kept st p e); [done | done |].
      apply or_FAILED_CHILD_kept. destruct H0 as (_ & _ & Hdata & _). by apply (Hdata p). }
    pose proof (index_kept_inv0 _ _ H0 Hk1) as H1.
    set (st2 := set_candidates st1 (setBlockIndexCandidates st1 ∖ {[p]})).
    assert (Hk2 : index_kept st1 st2) by (apply set_candidates_kept; [done | set_solver]).
    intros Hrun.
    apply (index_kept_trans _ _ _ Hk1). apply (index_kept_trans _ _ _ Hk2).
    apply (IH _ _ _ _ _ (index_kept_inv0 _ _ H1 Hk2) Hrun).
Qed.

Lemma remove_failed_chain_missing (l : list BlockHandle) :
  forall (fuel : nat) (st st' : ChainState) (p t : BlockHandle) (fm : bool),
    index_inv st ->
    pprev_path st p l t ->
    (forall v, v ∈ l ->
       exists e, blocks st !! v = Some e /\ HAVE_DATA (nStatus e) = true) ->
    remove_failed_chain fuel st p t false fm = Ok st' ->
    index_inv st'.
Proof.
  induction l as [| x l IH]; intros fuel st st' p t fm Hinv Hpath Hgood.
  - inversion Hpath; subst.
    destruct fuel; unfold remove_failed_chain;
      rewrite (bool_decide_eq_true_2 (t = t)) by done; by intros [= <-].
  - inversion Hpath as [| p' q r e l' Hne He Hq Hpath']; subst.
    destruct fuel as [| fuel];
      unfold remove_failed_chain; fold remove_failed_chain;
      rewrite (bool_decide_eq_false_2 (t = x)) by done; [discriminate |].
    rewrite (deref_Some _ _ _ He). cbn [mbind Result_bind bind]. rewrite Hq.
    set (st1 := if fm then set_unlinked st (mapBlocksUnlinked st ++ [(q, x)]) else st).
    set (st2 := set_candidates st1 (setBlockIndexCandidates st1 ∖ {[x]})).
    assert (Hb2 : blocks st2 = blocks st) by (subst st2 st1; by destruct fm).
    assert (Hinv2 : index_inv st2).
    { apply (index_inv_same_blocks st); [done | done | | | |].
      - subst st2 st1. by destruct fm.
      - subst st2 st1. by destruct fm.
      - intros kc Hkc. subst st2 st1. destruct fm; simpl in Hkc; [| by left].
        apply elem_of_app in Hkc as [Hkc | Hkc]; [by left |].
        apply list_elem_of_singleton in Hkc as ->. right. simpl.
        destruct (Hgood x) as (e' & He' & Hd'); [by left |]. eauto.
      - subst st2 st1. destruct fm; simpl; set_solver. }
    apply (IH fuel st2 st' q t fm Hinv2).
    + apply (pprev_path_status st); [| done]. intros v ev Hv. rewrite Hb2. eauto.
    + intros v Hv. rewrite Hb2. apply Hgood. by right.
Qed.

Lemma FindMostWorkChain_loop_inv (fuel : nat) :
  forall (st st' : ChainState) (r : option BlockHandle),
    index_inv st ->
    FindMostWorkChain_loop fuel st = Ok (r, st') ->
    index_inv st'.
Proof.
  induction fuel as [| fuel IH]; intros st st' r Hinv.
  - simpl. destruct (best_candidate st); [discriminate | by intros [= _ <-]].
  - unfold FindMostWorkChain_loop; fold FindMostWorkChain_loop.
    destruct (best_candidate st) as [pindexNew |]; [| by intros [= _ <-]].
    destruct (find_invalid_ancestor _ st (Some pindexNew))
      as [[[[pindexTest ff] fm] |] | | | |] eqn:Hfind; try discriminate;
      cbn [mbind Result_bind bind]; [| by intros [= _ <-]].
    destruct (find_invalid_ancestor_path _ _ _ _ _ _ Hfind)
      as (l & te & Hpath & Hte & Hff & Hfm & Hbad & _ & Hgood).
    match goal with |- context [?a ≫= _] =>
      match a with
      | (if ff then _ else _) => destruct a as [st1 | | | |] eqn:Hst1
      end
    end; try discriminate. cbn [mbind Result_bind bind].
    assert (Hk1 : index_kept st st1).
    { destruct ff; [| injection Hst1 as <-; by apply index_kept_refl, Hinv].
      destruct (pindexBestInvalid st) as [b |].
      - destruct (deref st pindexNew) as [e | | | |]; try discriminate.
        cbn [mbind Result_bind bind] in Hst1.
        destruct (deref st b) as [be | | | |]; try discriminate.
        cbn [mbind Result_bind bind] in Hst1. injection Hst1 as <-.
        destruct (nChainWork e >? nChainWork be);
          [by apply set_pindexBestInvalid_kept, Hinv | by apply index_kept_refl, Hinv].
      - injection Hst1 as <-. by apply set_pindexBestInvalid_kept, Hinv. }
    pose proof (index_kept_inv _ _ Hinv Hk1) as Hinv1.
    destruct (remove_failed_chain _ st1 pindexNew pindexTest ff fm)
      as [st2 | | | |] eqn:Hrem; try discriminate. cbn [mbind Result_bind bind].
    assert (Hinv2 : index_inv st2).
    { destruct ff.
      - apply (index_kept_inv st1); [done |].
        apply (remove_failed_chain_failed _ _ _ _ _ _ (proj1 Hinv1) Hrem).
      - assert (Hb1 : forall v, blocks st1 !! v = blocks st !! v).
        { injection Hst1 as <-. done. }
        refine (remove_failed_chain_missing l _ st1 st2 pindexNew pindexTest fm
                  Hinv1 _ _ Hrem).
        + apply (pprev_path_status st); [| done]. intros v ev Hv. rewrite Hb1. eauto.
        + intros v Hv. rewrite Hb1. destruct (Hgood v Hv) as (e & He & Hd & _). eauto. }
    set (st3 := set_candidates st2 (setBlockIndexCandidates st2 ∖ {[pindexTest]})).
    intros Hrun. apply (IH st3 st' r); [| exact Hrun].
    apply (index_kept_inv st2); [done |].
    apply set_candidates_kept; [apply Hinv2 | set_solver].
Qed.

Lemma FindMostWorkChain_inv (st st' : ChainState) (r : option BlockHandle) :
  index_inv st -> FindMostWorkChain st = Ok (r, st') -> index_inv st'.
Proof. apply FindMostWorkChain_loop_inv. Qed.

(** [CBlockIndexWorkComparator] is the lexicographic order on the work,
    the sequence id reversed and the handle reversed. *)
Lemma CBlockIndexWorkComparator_spec (pa pb : BlockHandle) (a b : CBlockIndex) :
  CBlockIndexWorkComparator pa a pb b = true <->
  nChainWork a < nChainWork b
  \/ (nChainWork a = nChainWork b
      /\ (nSequenceId a > nSequenceId b
          \/ (nSequenceId a = nSequenceId b /\ (pb < pa)%positive))).
Proof.
  unfold CBlockIndexWorkComparator.
  destruct (Z.gtb_spec (nChainWork a) (nChainWork b));
    destruct (Z.ltb_spec (nChainWork a) (nChainWork b));
    destruct (Z.ltb_spec (nSequenceId a) (nSequenceId b));
    destruct (Z.gtb_spec (nSequenceId a) (nSequenceId b));
    destruct (Pos.ltb_spec pa pb); destruct (Pos.ltb_spec pb pa);
    split; intros; try discriminate; try reflexivity; try lia.
Qed.

Lemma value_comp_false_trans (st : ChainState) (a b c : BlockHandle) :
  is_Some (blocks st !! b) ->
  value_comp st a b = false -> value_comp st b c = false ->
  value_comp st a c = false.
Proof.
  intros [be Hb]. unfold value_comp. rewrite Hb.
  destruct (blocks st !! a) as [ae |]; [| done].
  destruct (blocks st !! c) as [ce |]; [| done].
  intros Hab Hbc.
  apply not_true_iff_false. apply not_true_iff_false in Hab, Hbc.
  rewrite CBlockIndexWorkComparator_spec in *. lia.
Qed.

Lemma value_comp_true_trans (st : ChainState) (a b c : BlockHandle) :
  value_comp st a b = true -> value_comp st b c = true ->
  value_comp st a c = true.
Proof.
  unfold value_comp.
  destruct (blocks st !! a) as [ae |]; [| done].
  destruct (blocks st !! b) as [be |]; [| done].
  destruct (blocks st !! c) as [ce |]; [| done].
  rewrite !CBlockIndexWorkComparator_spec. lia.
Qed.

Lemma value_comp_irrefl (st : ChainState) (a : BlockHandle) :
  value_comp st a a = false.
Proof.
  unfold value_comp. destruct (blocks st !! a) as [ae |]; [| done].
  apply not_true_iff_false. rewrite CBlockIndexWorkComparator_spec. lia.
Qed.

(** The front of the candidate set is a candidate that no candidate sorts
    before. *)
Lemma worst_candidate_front (st : ChainState) (w : BlockHandle) :
  worst_candidate st = Some w ->
  w ∈ setBlockIndexCandidates st
  /\ forall c, c ∈ setBlockIndexCandidates st -> value_comp st c w = false.
Proof.
  unfold worst_candidate. intros Hw.
  assert (Hlist : forall l w,
            foldr (fun p acc => match acc with
                                | Some q => if value_comp st p q then Some p else Some q
                                | None => Some p
                                end) None l = Some w ->
            w ∈ l /\ forall c, c ∈ l -> value_comp st c w = false).
  { clear w Hw. induction l as [| x l IH]; intros w; simpl; [discriminate |].
    destruct (foldr _ None l) as [q |] eqn:Hacc.
    - destruct (IH q eq_refl) as [Hq Hmin].
      destruct (value_comp st x q) eqn:Hxq; intros [= <-].
      + split; [by left |]. intros c Hc.
        apply elem_of_cons in Hc as [-> | Hc]; [apply value_comp_irrefl |].
        destruct (value_comp st c x) eqn:Hcx; [| done].
        rewrite <- (Hmin c Hc). symmetry. by apply (value_comp_true_trans st c x q).
      + split; [by right |]. intros c Hc.
        apply elem_of_cons in Hc as [-> | Hc]; [done | by apply Hmin].
    - intros [= <-]. split; [by left |]. intros c Hc.
      apply elem_of_cons in Hc as [-> | Hc]; [apply value_comp_irrefl |].
      destruct l as [| y l]; [by apply elem_of_nil in Hc |].
      simpl in Hacc. destruct (foldr _ None l); [destruct (value_comp st y _) |];
        discriminate. }
  destruct (Hlist _ _ Hw) as [Hin Hmin]. split.
  - by apply elem_of_elements.
  - intros c Hc. apply Hmin. by apply elem_of_elements.
Qed.

Lemma worst_candidate_None (st : ChainState) :
  worst_candidate st = None -> setBlockIndexCandidates st = ∅.
Proof.
  unfold worst_candidate. intros Hw. apply leibniz_equiv, elements_empty_inv.
  destruct (elements (setBlockIndexCandidates st)) as [| x l]; [done |].
  simpl in Hw. destruct (foldr _ None l); [destruct (value_comp st x _) |];
    discriminate.
Qed.

(** [PruneBlockIndexCandidates] removes candidates only, and no candidate
    that is left sorts before the tip. *)
Lemma prune_candidates_spec (fuel : nat) :
  forall (st : ChainState) (tip : BlockHandle),
    (forall c, c ∈ setBlockIndexCandidates st -> is_Some (blocks st !! c)) ->
    (size (setBlockIndexCandidates st) <= fuel)%nat ->
    blocks (prune_candidates fuel st tip) = blocks st
    /\ chainTip (prune_candidates fuel st tip) = chainTip st
    /\ mapBlocksUnlinked (prune_candidates fuel st tip) = mapBlocksUnlinked st
    /\ next_block (prune_candidates fuel st tip) = next_block st
    /\ setBlockIndexCandidates (prune_candidates fuel st tip)
       ⊆ setBlockIndexCandidates st
    /\ forall c, c ∈ setBlockIndexCandidates (prune_candidates fuel st tip) ->
         value_comp st c tip = false.
Proof.
  induction fuel as [| fuel IH]; intros st tip Hdom Hsize.
  - simpl. repeat split; try done. intros c Hc.
    assert (Hempty : setBlockIndexCandidates st = ∅).
    { apply leibniz_equiv, size_empty_inv. lia. }
    rewrite Hempty in Hc. by apply not_elem_of_empty in Hc.
  - simpl. destruct (worst_candidate st) as [p |] eqn:Hworst.
    + destruct (worst_candidate_front _ _ Hworst) as [Hp Hmin].
      destruct (value_comp st p tip) eqn:Hcomp.
      * set (st1 := set_candidates st (setBlockIndexCandidates st ∖ {[p]})).
        destruct (IH st1 tip) as (Hb & Ht & Hu & Hx & Hc & Hkeep).
        { intros c Hc. apply Hdom. simpl in Hc. set_solver. }
        { simpl. rewrite size_difference by set_solver.
          rewrite size_singleton. lia. }
        repeat split; try done.
        -- etrans; [exact Hc |]. simpl. set_solver.
      * repeat split; try done. intros c Hc.
        destruct (blocks st !! tip) as [te |] eqn:Hte.
        -- apply (value_comp_false_trans st c p tip); [by apply Hdom | by apply Hmin | done].
        -- unfold value_comp. rewrite Hte. by destruct (blocks st !! c).
    + repeat split; try done. intros c Hc.
      rewrite (worst_candidate_None _ Hworst) in Hc. by apply not_elem_of_empty in Hc.
Qed.

Lemma PruneBlockIndexCandidates_spec (st st' : ChainState) (tip : BlockHandle) :
  chainTip st = Some tip ->
  (forall c, c ∈ setBlockIndexCandidates st -> is_Some (blocks st !! c)) ->
  PruneBlockIndexCandidates st = Ok st' ->
  blocks st' = blocks st
  /\ chainTip st' = chainTip st
  /\ mapBlocksUnlinked st' = mapBlocksUnlinked st
  /\ next_block st' = next_block st
  /\ setBlockIndexCandidates st' ⊆ setBlockIndexCandidates st
  /\ forall c, c ∈ setBlockIndexCandidates st' -> value_comp st c tip = false.
Proof.
  intros Htip Hdom. unfold PruneBlockIndexCandidates, Tip. rewrite Htip.
  destruct (assert _ _); try discriminate. cbn [mbind Result_bind bind].
  intros [= <-].
  destruct (prune_candidates_spec (size (setBlockIndexCandidates st)) st tip Hdom)
    as (Hb & Ht & Hu & Hx & Hc & Hkeep); [done |].
  rewrite Htip in Ht. repeat split; done.
Qed.

Lemma ConnectTip_index_inv (st st' : ChainState) (p : BlockHandle) (e e' : CBlockIndex) :
  index_inv st ->
  blocks st !! p = Some e ->
  connect_updates e e' ->
  ConnectTip_index st p e' = Ok st' ->
  index_inv st'.
Proof.
  intros [H0 Hwork] He Hupd. unfold ConnectTip_index.
  rewrite (deref_Some _ _ _ He). cbn [mbind Result_bind bind].
  destruct (assert _ _); try discriminate. cbn [mbind Result_bind bind].
  set (st1 := set_chainTip (store_dirty st p e') (Some p)).
  assert (Hk : index_kept st (store_dirty st p e')).
  { apply (store_dirty_kept st p e); [done | done |].
    destruct Hupd as (_ & Hp & _ & Hw & _ & _ & _ & Hl & Hd & _).
    destruct H0 as (_ & _ & Hdata & _). repeat split; try done.
    - by rewrite Hd.
    - rewrite Hd. intros Hdd. specialize (Hdata _ _ He Hdd). lia. }
  pose proof (index_kept_inv0 _ _ H0 Hk) as (Hprev1 & Htip1 & Hdata1 & Hunl1 & Hcand1 & Hfresh1).
  assert (H1 : index_inv0 st1).
  { repeat split; try done. intros t [= <-]. simpl. rewrite lookup_insert_eq. eauto. }
  intros Hprune.
  destruct (PruneBlockIndexCandidates_spec st1 st' p eq_refl) 
    as (Hb & Ht & Hu & Hx & Hc & Hkeep);
    [intros c Hc; destruct (Hcand1 c Hc) as (ce & Hce & _); eauto | exact Hprune |].
  split.
  - destruct H1 as (Hprev & Htip & Hdata & Hunl & Hcand & Hfresh).
    repeat split; try rewrite Hb; try rewrite Ht; try rewrite Hu; try rewrite Hx;
      try done.
    intros c Hcc. apply Hcand. clear -Hc Hcc. set_solver.
  - intros c ce t te Hcc Hce Htip Hte. rewrite Ht in Htip. injection Htip as <-.
    rewrite Hb in Hce, Hte. specialize (Hkeep c Hcc).
    unfold value_comp in Hkeep. rewrite Hce, Hte in Hkeep.
    by apply CBlockIndexWorkComparator_work in Hkeep.
Qed.

Lemma DisconnectTip_index_inv (st st' : ChainState) :
  index_inv st -> DisconnectTip_index st = Ok st' -> index_inv st'.
Proof.
  intros [(Hprev & Htip & Hdata & Hunl & Hcand & Hfresh) Hwork].
  unfold DisconnectTip_index, Tip.
  destruct (chainTip st) as [t |] eqn:Ht; [| discriminate].
  destruct (blocks st !! t) as [te |] eqn:Hte;
    [rewrite (deref_Some _ _ _ Hte) | unfold deref; rewrite Hte; discriminate].
  cbn [mbind Result_bind bind]. intros [= <-].
  split; [repeat split; try done |].
  - simpl. intros q Hq. destruct (Hprev _ _ _ Hte Hq) as (qe & Hqe & _). eauto.
  - intros c ce q qe Hc Hce Hq Hqe. simpl in *.
    destruct (Hprev _ _ _ Hte Hq) as (qe' & Hqe' & Hle).
    rewrite Hqe in Hqe'. injection Hqe' as <-.
    specialize (Hwork c ce t te Hc Hce Ht Hte). lia.
Qed.

Lemma index_inv0_closed (st : ChainState) : index_inv0 st -> index_closed st.
Proof.
  intros (Hprev & _ & _ & Hunl & _). split.
  - intros p e q Hp Hq. destruct (Hprev _ _ _ Hp Hq) as (qe & Hqe & _). eauto.
  - intros k c Hkc. destruct (Hunl _ _ Hkc) as (e & He & _). eauto.
Qed.

Lemma linked_inv (st st' : ChainState) (p : BlockHandle) (visited : list BlockHandle) :
  index_inv st ->
  (exists e, blocks st !! p = Some e /\ HAVE_DATA (nStatus e) = true) ->
  linked st [p] st' visited ->
  index_inv st'.
Proof.
  intros [(Hprev & Htip & Hdata & Hunl & Hcand & Hfresh) Hwork] Hp
    (Hn & _ & Horigin & Hids & Hsame & Hform & Hcnd & Hcsub & Husub & Ht & _ & Hx & _).
  assert (Hfw : forall v e, blocks st !! v = Some e ->
                  exists e', blocks st' !! v = Some e'
                             /\ (e' = e \/ exists c s, e' = link_entry e c s)).
  { intros v e Hv. destruct (decide (v ∈ visited)) as [Hin | Hout].
    - destruct (Hids v Hin) as (e' & He' & _). exists e'. split; [done |].
      destruct (Hform _ _ He') as (e0 & He0 & Hshape).
      rewrite Hv in He0. by injection He0 as <-.
    - exists e. split; [by rewrite (Hsame v Hout) | by left]. }
  assert (Hvis : forall v, v ∈ visited ->
                   exists e, blocks st !! v = Some e /\ HAVE_DATA (nStatus e) = true).
  { intros v Hv. destruct (Horigin v Hv) as [Hq | (k & _ & Hkv)].
    - apply list_elem_of_singleton in Hq as ->. exact Hp.
    - by apply (Hunl k). }
  split; [repeat split |].
  - intros v e' q Hv Hq. destruct (Hform _ _ Hv) as (e & He & Hshape).
    assert (Hpq : pprev e = Some q /\ nChainWork e' = nChainWork e).
    { by destruct Hshape as [-> | (c & s & ->)]. }
    destruct Hpq as [Hq0 Hw].
    destruct (Hprev _ _ _ He Hq0) as (qe & Hqe & Hle).
    destruct (Hfw _ _ Hqe) as (qe' & Hqe' & Hshape').
    exists qe'. split; [done |].
    assert (nChainWork qe' = nChainWork qe)
      by (by destruct Hshape' as [-> | (c & s & ->)]).
    lia.
  - intros t Htt. rewrite Ht in Htt. destruct (Htip t Htt) as [te Hte].
    destruct (Hfw _ _ Hte) as (te' & Hte' & _). eauto.
  - intros v e' Hv Hd. destruct (Hform _ _ Hv) as (e & He & Hshape).
    assert (Hs : nStatus e' = nStatus e) by (by destruct Hshape as [-> | (c & s & ->)]).
    rewrite Hs in *. by apply (Hdata v).
  - intros k c Hkc. destruct (Hunl k c (Husub _ Hkc)) as (e & He & Hd).
    destruct (Hfw _ _ He) as (e' & He' & Hshape). exists e'. split; [done |].
    by destruct Hshape as [-> | (cc & s & ->)].
  - intros c Hc.
    assert (Hc0 : exists e, blocks st !! c = Some e /\ HAVE_DATA (nStatus e) = true).
    { destruct (Hcnd c Hc) as [Hold | [Hv _]]; [by apply Hcand | by apply Hvis]. }
    destruct Hc0 as (e & He & Hd).
    destruct (Hfw _ _ He) as (e' & He' & Hshape). exists e'. split; [done |].
    by destruct Hshape as [-> | (cc & s & ->)].
  - intros v [e' Hv]. rewrite Hx. apply Hfresh.
    destruct (Hform _ _ Hv) as (e & He & _). eauto.
  - intros c e' t te' Hc He' Htt Hte'. rewrite Ht in Htt.
    destruct (Hcnd c Hc) as [Hold | [_ Hnew]]; [| by apply (Hnew t)].
    destruct (Hform _ _ He') as (e & He & Hshape).
    destruct (Hform _ _ Hte') as (te & Hte & Hshape').
    assert (nChainWork e' = nChainWork e)
      by (by destruct Hshape as [-> | (cc & s & ->)]).
    assert (nChainWork te' = nChainWork te)
      by (by destruct Hshape' as [-> | (cc & s & ->)]).
    specialize (Hwork c e t te Hold He Htt Hte). lia.
Qed.

Lemma ReceivedBlockTransactions_inv (env : IndexEnv) (isProofOfStake : bool)
  (ntx : Z) (p : BlockHandle) (file pos : Z) (e : CBlockIndex)
  (st st' : ChainState) (visited : list BlockHandle) :
  index_inv st ->
  blocks st !! p = Some e ->
  FAILED_MASK (nStatus e) = false ->
  ReceivedBlockTransactions env isProofOfStake ntx p file pos st = Ok (st', visited) ->
  index_inv st'.
Proof.
  intros Hinv He Hok. unfold ReceivedBlockTransactions.
  rewrite (deref_Some _ _ _ He). cbn [mbind Result_bind bind].
  set (e1 := receive_data e isProofOfStake ntx file pos
               (IsWitnessEnabled env st (pprev e))).
  destruct (receive_data_fields e isProofOfStake ntx file pos
              (IsWitnessEnabled env st (pprev e)))
    as (Hp1 & _ & Hw1 & _ & Hd1 & _ & _ & Hl1).
  fold e1 in Hp1, Hw1, Hd1, Hl1.
  set (st1 := store_dirty st p e1).
  assert (Hk1 : index_kept st st1).
  { apply (store_dirty_kept st p e); [apply Hinv | done |]. repeat split; auto. }
  pose proof (index_kept_inv _ _ Hinv Hk1) as Hinv1.
  assert (Hp : exists e, blocks st1 !! p = Some e /\ HAVE_DATA (nStatus e) = true).
  { exists e1. split; [apply lookup_insert_eq | done]. }
  assert (Hlink : forall st' visited,
            link_descendants (S (length (mapBlocksUnlinked st1))) [p] st1
              = Ok (st', visited) ->
            index_inv st').
  { intros st2 v2 Hrun.
    destruct (link_descendants_linked (S (length (mapBlocksUnlinked st1))) [p] st1)
      as (st3 & v3 & Hrun3 & Hpost).
    - apply index_inv0_closed, Hinv1.
    - intros v Hv. apply list_elem_of_singleton in Hv as ->.
      destruct Hp as (x & Hx & _). eauto.
    - simpl. lia.
    - rewrite Hrun in Hrun3. injection Hrun3 as <- <-.
      by apply (linked_inv st1 st2 p v2). }
  rewrite Hp1. destruct (pprev e) as [q |]; [| apply Hlink].
  destruct (deref st1 q) as [pe | | | |]; try discriminate.
  cbn [mbind Result_bind bind].
  destruct (negb (nChainTx pe =? 0)); [apply Hlink |].
  destruct (IsValid pe BLOCK_VALID_TREE); intros [= <- _]; [| done].
  apply (index_inv_same_blocks st1); try done.
  intros kc Hkc. simpl in Hkc. apply elem_of_app in Hkc as [Hkc | Hkc]; [by left |].
  apply list_elem_of_singleton in Hkc as ->. by right.
Qed.

Lemma index_step_inv (env : IndexEnv) (st st' : ChainState) :
  (forall b, 0 <= GetBlockProof env b) ->
  index_inv st -> index_step env st st' -> index_inv st'.
Proof.
  intros Hproof Hinv Hstep.
  destruct Hstep as [block hash r st' Habh
                    | isPoS ntx p file pos e st' visited He Hok Hrun
                    | r st' Hrun
                    | p e e' st' He Hupd Hrun
                    | p cp st' Hrun
                    | st' Hrun].
  - pose proof (AcceptBlockHeader_inv env block hash st Hproof Hinv) as Hsnd.
    by rewrite Habh in Hsnd.
  - by apply (ReceivedBlockTransactions_inv env isPoS ntx p file pos e st st' visited).
  - by apply (FindMostWorkChain_inv st st' r).
  - by apply (ConnectTip_index_inv st st' p e e').
  - revert Hrun. unfold ConnectTip_invalid.
    destruct (deref st p) as [e | | | |]; try discriminate.
    cbn [mbind Result_bind bind].
    destruct (assert _ _); try discriminate. cbn [mbind Result_bind bind].
    intros Hrun. apply (index_kept_inv st); [done |].
    by apply (InvalidBlockFound_kept st st' p cp (proj1 Hinv)).
  - by apply (DisconnectTip_index_inv st st').
Qed.

Lemma initial_chain_state_inv : index_inv initial_chain_state.
Proof.
  split; [repeat split |]; simpl; try done; intros.
  all: try match goal with
           | H : _ ∈ [] |- _ => by apply elem_of_nil in H
           | H : _ ∈ ∅ |- _ => by apply not_elem_of_empty in H
           | H : is_Some (∅ !! _) |- _ =>
               destruct H as [? H]; by rewrite lookup_empty in H
           | H : ∅ !! _ = Some _ |- _ => by rewrite lookup_empty in H
           end.
Qed.

Lemma reachable_inv (env : IndexEnv) (st : ChainState) :
  (forall b, 0 <= GetBlockProof env b) ->
  reachable env st -> index_inv st.
Proof.
  intros Hproof Hreach. unfold reachable in Hreach.
  revert st Hreach. apply (rtc_ind_r (fun st => index_inv st)).
  - apply initial_chain_state_inv.
  - intros y z _ Hstep IH. by apply (index_step_inv env y z).
Qed.

Lemma connect_updates_refl (e : CBlockIndex) : connect_updates e e.
Proof. unfold connect_updates. repeat split; lia. Qed.

Lemma reachable_step (env : IndexEnv) (st st' : ChainState) :
  reachable env st -> index_step env st st' -> reachable env st'.
Proof. intros Hr Hs. by eapply rtc_r. Qed.

Lemma demo_chain_1_reachable : reachable demo_index_env demo_chain_1.
Proof.
  unfold demo_chain_1.
  set (st1 := snd (AcceptBlockHeader demo_index_env (demo_header 0) 1
                     initial_chain_state)).
  assert (H1 : reachable demo_index_env st1).
  { apply (reachable_step _ initial_chain_state); [apply rtc_refl |].
    eapply step_AcceptBlockHeader. apply surjective_pairing. }
  assert (Hg : match blocks st1 !! 1%positive with
               | Some e => negb (FAILED_MASK (nStatus e))
               | None => false
               end = true) by (vm_compute; reflexivity).
  destruct (blocks st1 !! 1%positive) as [e |] eqn:He; [| discriminate].
  apply negb_true_iff in Hg.
  destruct (ReceivedBlockTransactions demo_index_env false 1 1%positive 0 0 st1)
    as [[st2 v] | | | |] eqn:H2; try exact H1.
  assert (H2r : reachable demo_index_env st2).
  { apply (reachable_step _ st1); [exact H1 |].
    by eapply step_ReceivedBlockTransactions. }
  destruct (blocks st2 !! 1%positive) as [e2 |] eqn:He2; [| exact H2r].
  destruct (ConnectTip_index st2 1%positive e2) as [st3 | | | |] eqn:H3;
    try exact H2r.
  apply (reachable_step _ st2); [exact H2r |].
  eapply step_ConnectTip; [exact He2 | apply connect_updates_refl | exact H3].
Qed.

Lemma demo_chain_2_reachable : reachable demo_index_env demo_chain_2.
Proof.
  unfold demo_chain_2.
  set (st1 := snd (AcceptBlockHeader demo_index_env (demo_header 1) 2 demo_chain_1)).
  assert (H1 : reachable demo_index_env st1).
  { apply (reachable_step _ demo_chain_1); [apply demo_chain_1_reachable |].
    eapply step_AcceptBlockHeader. apply surjective_pairing. }
  assert (Hg : match blocks st1 !! 2%positive with
               | Some e => negb (FAILED_MASK (nStatus e))
               | None => false
               end = true) by (vm_compute; reflexivity).
  destruct (blocks st1 !! 2%positive) as [e |] eqn:He; [| discriminate].
  apply negb_true_iff in Hg.
  destruct (ReceivedBlockTransactions demo_index_env false 1 2%positive 0 100 st1)
    as [[st2 v] | | | |] eqn:H2; try exact H1.
  assert (H2r : reachable demo_index_env st2).
  { apply (reachable_step _ st1); [exact H1 |].
    by eapply step_ReceivedBlockTransactions. }
  apply (reachable_step _ st2); [exact H2r |].
  eapply step_AcceptBlockHeader. apply surjective_pairing.
Qed.

Lemma demo_chain_3_reachable : reachable demo_index_env demo_chain_3.
Proof.
  unfold demo_chain_3.
  destruct (ConnectTip_invalid demo_chain_2 2%positive false) as [st1 | | | |] eqn:H1;
    try apply demo_chain_2_reachable.
  apply (reachable_step _ demo_chain_2); [apply demo_chain_2_reachable |].
  by eapply step_ConnectTip_invalid.
Qed.

Lemma demo_chain_4_reachable : reachable demo_index_env demo_chain_4.
Proof.
  unfold demo_chain_4.
  assert (Hg : match blocks demo_chain_3 !! 3%positive with
               | Some e => negb (FAILED_MASK (nStatus e))
               | None => false
               end = true) by (vm_compute; reflexivity).
  destruct (blocks demo_chain_3 !! 3%positive) as [e |] eqn:He; [| discriminate].
  apply negb_true_iff in Hg.
  destruct (ReceivedBlockTransactions demo_index_env false 1 3%positive 0 200
              demo_chain_3) as [[st1 v] | | | |] eqn:H1;
    try apply demo_chain_3_reachable.
  apply (reachable_step _ demo_chain_3); [apply demo_chain_3_reachable |].
  by eapply step_ReceivedBlockTransactions.
Qed.




(** ** The undo round trip *)

Section undo_round_trip.
Context (env : Env).

Lemma new_coins_keys (tx : CTransaction) (height : Z) (outs : list CTxOut) :
  forall i kc, kc ∈ new_coins env tx height i outs ->
    op_hash (fst kc) = tx_hash tx /\ i <= op_n (fst kc).
Proof.
  induction outs as [| o outs IH]; intros i kc Hkc; simpl in Hkc.
  - by apply elem_of_nil in Hkc.
  - destruct (IsUnspendable env (scriptPubKey o)).
    + destruct (IH _ _ Hkc). split; [done | lia].
    + apply elem_of_cons in Hkc as [-> | Hkc]; [simpl; split; [done | lia] |].
      destruct (IH _ _ Hkc). split; [done | lia].
Qed.

Lemma new_coins_NoDup (tx : CTransaction) (height : Z) (outs : list CTxOut) :
  forall i, NoDup (map fst (new_coins env tx height i outs)).
Proof.
  induction outs as [| o outs IH]; intros i; simpl; [constructor |].
  destruct (IsUnspendable env (scriptPubKey o)); [apply IH |].
  simpl. constructor; [| apply IH].
  intros Hin. apply list_elem_of_fmap in Hin as (kc & Hk & Hkc).
  apply new_coins_keys in Hkc as [_ Hle]. rewrite <- Hk in Hle. simpl in Hle. lia.
Qed.

Lemma insert_all_lookup_ne (K : list (COutPoint * Coin)) :
  forall (M : gmap COutPoint Coin) (k : COutPoint),
    k ∉ map fst K ->
    foldl (fun m kc => <[fst kc := snd kc]> m) M K !! k = M !! k.
Proof.
  induction K as [| [k' c'] K IH]; intros M k Hk; simpl; [done |].
  rewrite IH by set_solver. apply lookup_insert_ne. set_solver.
Qed.

Lemma insert_all_lookup (K : list (COutPoint * Coin)) :
  forall (M : gmap COutPoint Coin) (kc : COutPoint * Coin),
    NoDup (map fst K) -> kc ∈ K ->
    foldl (fun m kc => <[fst kc := snd kc]> m) M K !! fst kc = Some (snd kc).
Proof.
  induction K as [| [k' c'] K IH]; intros M kc Hnd Hin; simpl.
  - by apply elem_of_nil in Hin.
  - apply NoDup_cons in Hnd as [Hk' Hnd].
    apply elem_of_cons in Hin as [-> | Hin]; [| by apply IH].
    simpl. rewrite insert_all_lookup_ne by done. apply lookup_insert_eq.
Qed.

Lemma delete_all_lookup (ks : list COutPoint) :
  forall (M : gmap COutPoint Coin) (k : COutPoint),
    k ∉ ks -> foldl (fun m k => delete k m) M ks !! k = M !! k.
Proof.
  induction ks as [| k' ks IH]; intros M k Hk; simpl; [done |].
  rewrite IH by set_solver. apply lookup_delete_ne. set_solver.
Qed.

Lemma delete_all_lookup_in (ks : list COutPoint) :
  forall (M : gmap COutPoint Coin) (k : COutPoint),
    k ∈ ks -> foldl (fun m k => delete k m) M ks !! k = None.
Proof.
  induction ks as [| k' ks IH]; intros M k Hk; simpl.
  - by apply elem_of_nil in Hk.
  - destruct (decide (k ∈ ks)) as [Hin | Hout]; [by apply IH |].
    rewrite delete_all_lookup by done.
    apply elem_of_cons in Hk as [-> | Hk]; [apply lookup_delete_eq | contradiction].
Qed.

(** Removing the coins that were added to a view that had none of them
    gives the view back. *)
Lemma insert_all_delete_all (K : list (COutPoint * Coin)) (M : gmap COutPoint Coin) :
  NoDup (map fst K) ->
  (forall kc, kc ∈ K -> M !! fst kc = None) ->
  foldl (fun m k => delete k m)
    (foldl (fun m kc => <[fst kc := snd kc]> m) M K) (map fst K) = M.
Proof.
  intros Hnd Hfresh. apply map_eq. intros k.
  destruct (decide (k ∈ map fst K)) as [Hin | Hout].
  - rewrite delete_all_lookup_in by done.
    apply list_elem_of_fmap in Hin as (kc & -> & Hkc). symmetry. by apply Hfresh.
  - rewrite delete_all_lookup by done. by apply insert_all_lookup_ne.
Qed.

(** [AddCoins] on the coin view: the new coins are inserted; when the
    transaction is not a coinbase none of them was there before. *)
Lemma add_outputs_spec (tx : CTransaction) (height : Z) (outs : list CTxOut) :
  forall (i : Z) (view view' : CCoinsViewCache),
    add_outputs env tx height false i outs view = Ok view' ->
    cacheCoins view'
    = foldl (fun m kc => <[fst kc := snd kc]> m) (cacheCoins view)
        (new_coins env tx height i outs)
    /\ hashBlock view' = hashBlock view
    /\ (IsCoinBase tx = false ->
        forall kc, kc ∈ new_coins env tx height i outs ->
                   cacheCoins view !! fst kc = None).
Proof.
  induction outs as [| o outs IH]; intros i view view'.
  - simpl. intros [= <-]. repeat split. intros _ kc Hkc. by apply elem_of_nil in Hkc.
  - unfold add_outputs; fold add_outputs. unfold AddCoin. simpl.
    destruct (IsUnspendable env (scriptPubKey o)) eqn:Hun;
      cbn [mbind Result_bind bind].
    + intros Hrest. by apply IH.
    + destruct (negb (IsCoinBase tx) && HaveCoin view _) eqn:Hover;
        cbn [mbind Result_bind bind]; [discriminate |].
      intros Hrest. destruct (IH _ _ _ Hrest) as (Hc & Hh & Hfresh).
      split; [exact Hc |]. split; [exact Hh |].
      intros Hcb kc Hkc. rewrite Hcb in Hover. simpl in Hover.
      unfold HaveCoin in Hover. apply bool_decide_eq_false in Hover.
      apply elem_of_cons in Hkc as [-> | Hkc].
      * simpl. by apply eq_None_not_Some.
      * specialize (Hfresh Hcb kc Hkc). simpl in Hfresh.
        apply lookup_insert_None in Hfresh as [Hnone _]. exact Hnone.
Qed.

(** The output loop of [DisconnectBlock] on a view that holds the coins of
    the transaction as [AddCoins] made them: they are removed, and the
    outputs compare equal. *)
Lemma disconnect_outputs_spec (tx : CTransaction) (height : Z) (outs : list CTxOut) :
  forall (i : Z) (view : CCoinsViewCache) (tempCache : TokenState env) (fClean : bool),
    (forall kc, kc ∈ new_coins env tx height i outs ->
                cacheCoins view !! fst kc = Some (snd kc)) ->
    exists tempCache',
      disconnect_outputs env tx height i outs view tempCache fClean
      = ({| cacheCoins := foldl (fun m k => delete k m) (cacheCoins view)
                            (map fst (new_coins env tx height i outs));
            hashBlock := hashBlock view |}, tempCache', fClean).
Proof.
  induction outs as [| o outs IH]; intros i view tempCache fClean Hhave.
  - exists tempCache. simpl. by destruct view.
  - simpl. simpl in Hhave.
    destruct (IsUnspendable env (scriptPubKey o)) eqn:Hun; [by apply IH |].
    pose proof (Hhave _ (list_elem_of_here _ _)) as Hhead. simpl in Hhead.
    unfold SpendCoin. rewrite Hhead. simpl.
    rewrite bool_decide_eq_true_2 by done. rewrite Z.eqb_refl, eqb_reflx. simpl.
    match goal with |- context [disconnect_outputs _ _ _ _ _ ?v ?t _] =>
      destruct (IH (i + 1) v t fClean) as [tempCache' Hrun] end.
    { intros kc Hkc. simpl. rewrite lookup_delete_ne; [apply Hhave; by right |].
      intros Heq. apply new_coins_keys in Hkc as [_ Hle].
      rewrite <- Heq in Hle. simpl in Hle. lia. }
    exists tempCache'. exact Hrun.
Qed.

Lemma restore_inputs_app (ins1 ins2 : list CTxIn) (undos1 undos2 : list Coin) :
  length ins1 = length undos1 ->
  forall (view : CCoinsViewCache) (tokens : TokenState env) (fClean : bool),
    restore_inputs env (ins1 ++ ins2) (undos1 ++ undos2) view tokens fClean
    = match restore_inputs env ins1 undos1 view tokens fClean with
      | Some (view', tokens', fClean') =>
          restore_inputs env ins2 undos2 view' tokens' fClean'
      | None => None
      end.
Proof.
  revert undos1. induction ins1 as [| txin ins1 IH]; intros [| undo undos1] Hlen;
    try discriminate; intros view tokens fClean; [done |].
  simpl. destruct (ApplyTxInUndo env undo view tokens (prevout txin)) as [[res view'] tokens'].
  case_bool_decide; [done |]. apply IH. by injection Hlen.
Qed.

Context (Hlaws : TokenLaws env).

(** [ApplyTxInUndo] for a coin that is not in the view, has its height and
    is spendable, after that coin was spent: the coin is back, the token
    cache is as before the spend, and the result is [DISCONNECT_OK]. *)
Lemma ApplyTxInUndo_restores (c : Coin) (view : CCoinsViewCache)
  (tokens : TokenState env) (o : COutPoint) :
  cacheCoins view !! o = None ->
  coin_nHeight c <> 0 ->
  IsUnspendable env (scriptPubKey (out c)) = false ->
  ApplyTxInUndo env c view (tok_SpendCoin env tokens o c) o
  = (DISCONNECT_OK,
     {| cacheCoins := <[o := c]> (cacheCoins view); hashBlock := hashBlock view |},
     tokens).
Proof.
  intros Hnone Hheight Hspendable. unfold ApplyTxInUndo, AddCoin, HaveCoin.
  rewrite Hnone. rewrite (bool_decide_eq_false_2 (is_Some None)) by (by intros [? ?]).
  destruct (Z.eqb_spec (coin_nHeight c) 0); [contradiction |].
  rewrite Hspendable. simpl.
  destruct (AreTokensDeployed env && coin_IsToken env c) eqn:Htok.
  - by rewrite (spend_undo env Hlaws).
  - by rewrite (spend_other env Hlaws).
Qed.

Lemma view_spendable_delete (M : gmap COutPoint Coin) (o : COutPoint) :
  view_spendable env M -> view_spendable env (delete o M).
Proof.
  intros Hok k c Hk. apply lookup_delete_Some in Hk as [_ Hk]. by apply (Hok k).
Qed.

(** The inputs that [UpdateCoins] has spent are restored by the input loop
    of [DisconnectBlock], which takes them from the last to the first. *)
Lemma spend_inputs_restore (ins : list CTxIn) :
  forall (view : CCoinsViewCache) (tokens : TokenState env) (acc : CTxUndo)
         (view1 : CCoinsViewCache) (tokens1 : TokenState env) (txundo : CTxUndo),
    spend_inputs env ins view tokens acc = Ok (view1, tokens1, txundo) ->
    view_spendable env (cacheCoins view) ->
    exists coins,
      txundo = acc ++ coins
      /\ length coins = length ins
      /\ view_spendable env (cacheCoins view1)
      /\ hashBlock view1 = hashBlock view
      /\ (forall k, cacheCoins view !! k = None -> cacheCoins view1 !! k = None)
      /\ forall (dview : CCoinsViewCache) (fClean : bool),
           cacheCoins dview = cacheCoins view1 ->
           restore_inputs env (rev ins) (rev coins) dview tokens1 fClean
           = Some ({| cacheCoins := cacheCoins view; hashBlock := hashBlock dview |},
                   tokens, fClean).
Proof.
  induction ins as [| txin ins IH]; intros view tokens acc view1 tokens1 txundo.
  - simpl. intros [= <- <- <-] Hok. exists []. rewrite app_nil_r.
    split; [done |]. split; [done |]. split; [done |]. split; [done |].
    split; [done |]. intros dview fClean Hd. simpl. rewrite <- Hd.
    by destruct dview.
  - simpl. unfold SpendCoin.
    destruct (cacheCoins view !! prevout txin) as [c |] eqn:Hc; [| discriminate].
    intros Hrun Hok.
    destruct (IH _ _ _ _ _ _ Hrun) as (coins & Hundo & Hlen & Hok1 & Hh & Hnone & Hrestore).
    { simpl. by apply view_spendable_delete. }
    exists (c :: coins). simpl in *.
    split; [by rewrite Hundo, <- app_assoc |].
    split; [by rewrite Hlen |]. split; [done |]. split; [done |].
    split.
    { intros k Hk. apply Hnone. rewrite lookup_delete_None. by right. }
    intros dview fClean Hd.
    rewrite restore_inputs_app by (by rewrite !length_rev).
    rewrite (Hrestore dview fClean Hd). simpl.
    destruct (Hok _ _ Hc) as [Hheight Hspendable].
    rewrite ApplyTxInUndo_restores; [| apply lookup_delete_eq | done | done].
    simpl. rewrite andb_true_r.
    rewrite insert_delete_eq, insert_id by done. done.
Qed.

Lemma new_coins_fields (tx : CTransaction) (height : Z) (outs : list CTxOut) :
  forall i kc, kc ∈ new_coins env tx height i outs ->
    coin_nHeight (snd kc) = height
    /\ IsUnspendable env (scriptPubKey (out (snd kc))) = false.
Proof.
  induction outs as [| o outs IH]; intros i kc Hkc; simpl in Hkc.
  - by apply elem_of_nil in Hkc.
  - destruct (IsUnspendable env (scriptPubKey o)) eqn:Hun; [by apply (IH (i + 1)) |].
    apply elem_of_cons in Hkc as [-> | Hkc]; [done | by apply (IH (i + 1))].
Qed.

Lemma view_spendable_insert_all (K : list (COutPoint * Coin)) :
  forall M : gmap COutPoint Coin,
    view_spendable env M ->
    (forall kc, kc ∈ K ->
       coin_nHeight (snd kc) <> 0
       /\ IsUnspendable env (scriptPubKey (out (snd kc))) = false) ->
    view_spendable env (foldl (fun m kc => <[fst kc := snd kc]> m) M K).
Proof.
  induction K as [| [k c] K IH]; intros M Hok HK; simpl; [done |].
  apply IH; [| intros kc Hkc; apply HK; by right].
  intros o c' Ho. apply lookup_insert_Some in Ho as [[<- <-] | [_ Ho]].
  - apply (HK (k, c)). by left.
  - by apply (Hok o).
Qed.

Lemma UpdateCoins_Ok (tx : CTransaction) (view : CCoinsViewCache)
  (tokens : TokenState env) (height : Z) (view2 : CCoinsViewCache)
  (tokens2 : TokenState env) (txundo : CTxUndo) (u : option (TokenUndo env)) :
  UpdateCoins env tx view tokens height = Ok (view2, tokens2, txundo, u) ->
  exists view1 tokens1,
    (if IsCoinBase tx then Ok (view, tokens, [])
     else spend_inputs env (vin tx) view tokens []) = Ok (view1, tokens1, txundo)
    /\ add_outputs env tx height false 0 (vout tx) view1 = Ok view2
    /\ tok_AddCoins env tokens1 tx height = (tokens2, u).
Proof.
  unfold UpdateCoins, AddCoins.
  destruct (if IsCoinBase tx then _ else _) as [[[view1 tokens1] txundo1] | | | |];
    try discriminate. cbn [mbind Result_bind bind].
  destruct (add_outputs env tx height false 0 (vout tx) view1) as [view2' | | | |]
    eqn:Hadd; try discriminate. cbn [mbind Result_bind bind].
  destruct (tok_AddCoins env tokens1 tx height) as [tokens2' u'] eqn:Htok.
  cbn [mbind Result_bind bind]. intros [= <- <- <- <-]. by exists view1, tokens1.
Qed.

(** What connecting one transaction leaves: a view whose coins are still
    spendable and carry their height. *)
Lemma UpdateCoins_spendable (tx : CTransaction) (view : CCoinsViewCache)
  (tokens : TokenState env) (height : Z) (view2 : CCoinsViewCache)
  (tokens2 : TokenState env) (txundo : CTxUndo) (u : option (TokenUndo env)) :
  UpdateCoins env tx view tokens height = Ok (view2, tokens2, txundo, u) ->
  view_spendable env (cacheCoins view) ->
  height <> 0 ->
  view_spendable env (cacheCoins view2).
Proof.
  intros Hupd Hok Hheight.
  destruct (UpdateCoins_Ok _ _ _ _ _ _ _ _ Hupd) as (view1 & tokens1 & Hspend & Hadd & _).
  assert (Hok1 : view_spendable env (cacheCoins view1)).
  { destruct (IsCoinBase tx); [by injection Hspend as <- _ _ |].
    by destruct (spend_inputs_restore _ _ _ _ _ _ _ Hspend Hok) as (_ & _ & _ & H1 & _). }
  destruct (add_outputs_spec _ _ _ _ _ _ Hadd) as (-> & _).
  apply view_spendable_insert_all; [done |].
  intros kc Hkc. destruct (new_coins_fields _ _ _ _ _ Hkc) as [-> Hs]. done.
Qed.

(** One transaction, connected and then disconnected. *)
Lemma tx_round_trip (pindex : CBlockIndex) (i : nat) (tx : CTransaction)
  (view : CCoinsViewCache) (tokens : TokenState env) (view2 : CCoinsViewCache)
  (tokens2 : TokenState env) (txundo : CTxUndo) (u : option (TokenUndo env))
  (blockUndo : CBlockUndo) (vUndoData : list (TokenUndo env))
  (dacc : DisconnectAcc env) :
  UpdateCoins env tx view tokens (nHeight pindex) = Ok (view2, tokens2, txundo, u) ->
  view_spendable env (cacheCoins view) ->
  nHeight pindex <> 0 ->
  (IsCoinBase tx = true ->
   forall kc, kc ∈ new_coins env tx (nHeight pindex) 0 (vout tx) ->
              cacheCoins view !! fst kc = None) ->
  IsCoinBase tx = bool_decide (i = 0%nat) ->
  (i <> 0%nat -> blockUndo !! (i - 1)%nat = Some txundo) ->
  (forall u', u = Some u' -> u' ∈ vUndoData) ->
  cacheCoins (d_view dacc) = cacheCoins view2 ->
  d_tokens dacc = tokens2 ->
  exists tempCache',
    DisconnectBlock_tx env pindex blockUndo vUndoData i tx dacc
    = Some {| d_view := {| cacheCoins := cacheCoins view;
                           hashBlock := hashBlock (d_view dacc) |};
              d_tokens := tokens; d_tempCache := tempCache';
              d_fClean := d_fClean dacc |}.
Proof.
  intros Hupd Hok Hheight Hcbfresh Hcb Hundo Hvu Hdview Hdtokens.
  destruct (UpdateCoins_Ok _ _ _ _ _ _ _ _ Hupd) as (view1 & tokens1 & Hspend & Hadd & Htok).
  destruct (add_outputs_spec _ _ _ _ _ _ Hadd) as (Hc2 & Hh2 & Hfresh).
  set (K := new_coins env tx (nHeight pindex) 0 (vout tx)) in *.
  assert (Hnd : NoDup (map fst K)) by apply new_coins_NoDup.
  assert (HfreshK : forall kc, kc ∈ K -> cacheCoins view1 !! fst kc = None).
  { destruct (IsCoinBase tx) eqn:Hiscb.
    - injection Hspend as <- _ _. by apply Hcbfresh.
    - by apply Hfresh. }
  destruct (disconnect_outputs_spec tx (nHeight pindex) (vout tx) 0 (d_view dacc)
              (d_tempCache dacc) (d_fClean dacc)) as [tempCache' Hout].
  { intros kc Hkc. rewrite Hdview, Hc2. by apply insert_all_lookup. }
  fold K in Hout.
  rewrite Hdview, Hc2, (insert_all_delete_all K _ Hnd HfreshK) in Hout.
  assert (Htokens1 :
            (if AreTokensDeployed env
             then tok_DisconnectTx env (d_tokens dacc) tx vUndoData
             else Some (d_tokens dacc)) = Some tokens1).
  { rewrite Hdtokens.
    assert (Ht2 : tokens2 = fst (tok_AddCoins env tokens1 tx (nHeight pindex)))
      by (by rewrite Htok).
    destruct (AreTokensDeployed env) eqn:Hdep.
    - rewrite Ht2. apply (add_undo env Hlaws); [done |].
      intros u' Hu'. apply Hvu. by rewrite Htok in Hu'.
    - rewrite Ht2. f_equal. by apply (add_inactive env Hlaws). }
  exists tempCache'. unfold DisconnectBlock_tx. rewrite Hout, Htokens1. simpl.
  destruct (decide (i = 0%nat)) as [-> | Hi].
  - rewrite bool_decide_eq_true_2 in Hcb by done. rewrite Hcb in Hspend.
    injection Hspend as <- <- _. by rewrite bool_decide_eq_true_2.
  - rewrite bool_decide_eq_false_2 in Hcb by done. rewrite Hcb in Hspend.
    rewrite (bool_decide_eq_false_2 (i = 0%nat)) by done.
    specialize (Hundo Hi). unfold CBlockUndo, CTxUndo in *. rewrite Hundo.
    destruct (spend_inputs_restore _ _ _ _ _ _ _ Hspend Hok)
      as (coins & Hcoins & Hlen & _ & _ & _ & Hrestore).
    simpl in Hcoins. subst txundo. rewrite Hlen, Nat.eqb_refl. simpl.
    rewrite (Hrestore {| cacheCoins := cacheCoins view1;
                         hashBlock := hashBlock (d_view dacc) |} (d_fClean dacc) eq_refl).
    done.
Qed.

Lemma ConnectBlock_tx_Ok (pindex : CBlockIndex) (i : nat) (tx : CTransaction)
  (acc acc' : ConnectAcc env) :
  ConnectBlock_tx env pindex i tx acc = Ok acc' ->
  exists txundo u,
    UpdateCoins env tx (a_view acc) (a_tokens acc) (nHeight pindex)
      = Ok (a_view acc', a_tokens acc', txundo, u)
    /\ a_blockundo acc' = (if bool_decide (i = 0%nat) then a_blockundo acc
                           else a_blockundo acc ++ [txundo])
    /\ a_vUndoTokenData acc' = match u with
                               | Some u => a_vUndoTokenData acc ++ [u]
                               | None => a_vUndoTokenData acc
                               end.
Proof.
  unfold ConnectBlock_tx.
  destruct (reject_if ((nHeight pindex <? nTxMessages env) && (tx_nVersion tx >? 1))
              100 REJECT_INVALID "bad-transaction-v2-not-active");
    try discriminate. cbn [mbind Result_bind bind].
  destruct (if IsCoinBase tx then Ok (a_nFees acc) else _) as [nFees' | | | |];
    try discriminate. cbn [mbind Result_bind bind].
  destruct (reject_if _ 100 REJECT_INVALID "bad-blk-sigops"); try discriminate.
  cbn [mbind Result_bind bind].
  destruct (if IsCoinBase tx then Ok tt else _); try discriminate.
  cbn [mbind Result_bind bind].
  destruct (UpdateCoins env tx (a_view acc) (a_tokens acc) (nHeight pindex))
    as [[[[view' tokens'] txundo] u] | | | |] eqn:Hupd; try discriminate.
  cbn [mbind Result_bind bind]. intros [= <-]. simpl. by exists txundo, u.
Qed.

Lemma DisconnectBlock_loop_app (pindex : CBlockIndex) (blockUndo : CBlockUndo)
  (vUndoData : list (TokenUndo env)) (txs1 txs2 : list CTransaction) :
  forall (n : nat) (dacc : DisconnectAcc env),
    DisconnectBlock_loop env pindex blockUndo vUndoData (n + length txs1)
      (txs1 ++ txs2) dacc
    = match DisconnectBlock_loop env pindex blockUndo vUndoData (n + length txs1)
              txs1 dacc with
      | Some dacc' => DisconnectBlock_loop env pindex blockUndo vUndoData n txs2 dacc'
      | None => None
      end.
Proof.
  induction txs1 as [| tx txs1 IH]; intros n dacc.
  - simpl. rewrite Nat.add_0_r. by destruct txs2, n.
  - simpl length. rewrite Nat.add_succ_r. simpl.
    destruct (DisconnectBlock_tx _ _ _ _ _ _ _) as [dacc1 |]; [| done].
    simpl. apply IH.
Qed.

Lemma DisconnectBlock_tx_height (pindex pindexD : CBlockIndex)
  (blockUndo : CBlockUndo) (vUndoData : list (TokenUndo env)) (i : nat)
  (tx : CTransaction) (dacc : DisconnectAcc env) :
  nHeight pindexD = nHeight pindex ->
  DisconnectBlock_tx env pindexD blockUndo vUndoData i tx dacc
  = DisconnectBlock_tx env pindex blockUndo vUndoData i tx dacc.
Proof. intros H. unfold DisconnectBlock_tx. by rewrite H. Qed.

Lemma DisconnectBlock_loop_height (pindex pindexD : CBlockIndex)
  (blockUndo : CBlockUndo) (vUndoData : list (TokenUndo env))
  (txs : list CTransaction) :
  nHeight pindexD = nHeight pindex ->
  forall (i : nat) (dacc : DisconnectAcc env),
    DisconnectBlock_loop env pindexD blockUndo vUndoData i txs dacc
    = DisconnectBlock_loop env pindex blockUndo vUndoData i txs dacc.
Proof.
  intros H. induction txs as [| tx txs IH]; intros i dacc; [by destruct i |].
  destruct i as [| i]; [done |]. simpl.
  rewrite (DisconnectBlock_tx_height pindex pindexD) by done.
  destruct (DisconnectBlock_tx _ _ _ _ _ _ _); [apply IH | done].
Qed.

(** The transaction loop of [ConnectBlock] followed by the loop of
    [DisconnectBlock] over the undo records it produced. *)
Lemma loop_round_trip (pindex : CBlockIndex) (txs : list CTransaction) :
  forall (i : nat) (acc acc' : ConnectAcc env),
    ConnectBlock_loop env pindex i txs acc = Ok acc' ->
    view_spendable env (cacheCoins (a_view acc)) ->
    nHeight pindex <> 0 ->
    (forall j tx, txs !! j = Some tx ->
                  IsCoinBase tx = bool_decide ((i + j)%nat = 0%nat)) ->
    (i = 0%nat -> forall tx, txs !! 0%nat = Some tx ->
       forall kc, kc ∈ new_coins env tx (nHeight pindex) 0 (vout tx) ->
                  cacheCoins (a_view acc) !! fst kc = None) ->
    length (a_blockundo acc) = (i - 1)%nat ->
    (exists more, a_blockundo acc' = a_blockundo acc ++ more)
    /\ length (a_blockundo acc') = (i + length txs - 1)%nat
    /\ (exists more, a_vUndoTokenData acc' = a_vUndoTokenData acc ++ more)
    /\ forall (blockUndo : CBlockUndo) (vUndoData : list (TokenUndo env))
              (dacc : DisconnectAcc env),
         (exists more, blockUndo = a_blockundo acc' ++ more) ->
         (forall u, u ∈ a_vUndoTokenData acc' -> u ∈ vUndoData) ->
         cacheCoins (d_view dacc) = cacheCoins (a_view acc') ->
         d_tokens dacc = a_tokens acc' ->
         exists tempCache',
           DisconnectBlock_loop env pindex blockUndo vUndoData (i + length txs)
             (rev txs) dacc
           = Some {| d_view := {| cacheCoins := cacheCoins (a_view acc);
                                  hashBlock := hashBlock (d_view dacc) |};
                     d_tokens := a_tokens acc; d_tempCache := tempCache';
                     d_fClean := d_fClean dacc |}.
Proof.
  induction txs as [| tx txs IH]; intros i acc acc' Hrun Hok Hheight Hcb Hfresh Hlen.
  - simpl in Hrun. injection Hrun as <-. simpl. rewrite Nat.add_0_r.
    split; [exists []; by rewrite app_nil_r |]. split; [done |].
    split; [exists []; by rewrite app_nil_r |].
    intros blockUndo vUndoData dacc _ _ Hd Ht. exists (d_tempCache dacc).
    destruct i; simpl; rewrite <- Hd, <- Ht; by destruct dacc as [[? ?] ? ? ?].
  - simpl in Hrun.
    destruct (ConnectBlock_tx env pindex i tx acc) as [acc1 | | | |] eqn:Htx;
      try discriminate. cbn [mbind Result_bind bind] in Hrun.
    destruct (ConnectBlock_tx_Ok _ _ _ _ _ Htx) as (txundo & u & Hupd & Hbu & Hvu).
    pose proof (UpdateCoins_spendable _ _ _ _ _ _ _ _ Hupd Hok Hheight) as Hok1.
    assert (Hlen1 : length (a_blockundo acc1) = (S i - 1)%nat).
    { rewrite Hbu. case_bool_decide as Hi; [subst i; simpl in *; lia |].
      rewrite length_app. simpl. lia. }
    destruct (IH (S i) acc1 acc' Hrun Hok1 Hheight) as (Hmore & Hlen' & Hvmore & Hback).
    { intros j tx' Hj. rewrite (Hcb (S j) tx' Hj).
      apply bool_decide_ext. lia. }
    { discriminate. }
    { exact Hlen1. }
    destruct Hmore as [more Hmore]. destruct Hvmore as [vmore Hvmore].
    assert (Hprefix : exists more1, a_blockundo acc1 = a_blockundo acc ++ more1).
    { rewrite Hbu. case_bool_decide; [exists []; by rewrite app_nil_r | by exists [txundo]]. }
    destruct Hprefix as [more1 Hmore1].
    split; [exists (more1 ++ more); by rewrite Hmore, Hmore1, <- app_assoc |].
    split; [rewrite Hlen'; simpl; lia |].
    split.
    { rewrite Hvmore, Hvu. destruct u as [u' |];
        [exists ([u'] ++ vmore); by rewrite <- app_assoc | by exists vmore]. }
    intros blockUndo vUndoData dacc [bmore Hbmore] Hvin Hd Ht.
    destruct (Hback blockUndo vUndoData dacc) as [temp1 Hloop1]; try done.
    { by exists bmore. }
    simpl rev. simpl length.
    replace (i + S (length txs))%nat with (S i + length (rev txs))%nat
      by (rewrite length_rev; lia).
    rewrite DisconnectBlock_loop_app. rewrite length_rev. rewrite Hloop1.
    set (dacc1 := {| d_view := {| cacheCoins := cacheCoins (a_view acc1);
                                  hashBlock := hashBlock (d_view dacc) |};
                     d_tokens := a_tokens acc1; d_tempCache := temp1;
                     d_fClean := d_fClean dacc |}).
    destruct (tx_round_trip pindex i tx (a_view acc) (a_tokens acc) (a_view acc1)
                (a_tokens acc1) txundo u blockUndo vUndoData dacc1 Hupd Hok Hheight)
      as [temp' Htxd]; try done.
    + intros Hiscb kc Hkc.
      rewrite (Hcb 0%nat tx eq_refl) in Hiscb. apply bool_decide_eq_true in Hiscb.
      apply (Hfresh ltac:(lia) tx eq_refl kc Hkc).
    + rewrite (Hcb 0%nat tx eq_refl). apply bool_decide_ext. lia.
    + intros Hi. rewrite Hbmore, Hmore.
      rewrite Hbu, bool_decide_eq_false_2 by done.
      rewrite <- !app_assoc. unfold CBlockUndo, CTxUndo in *.
      rewrite lookup_app_r by lia.
      rewrite Hlen, Nat.sub_diag. done.
    + intros u' ->. apply Hvin. rewrite Hvmore, Hvu.
      apply elem_of_app. left. apply elem_of_app. right. by left.
    + exists temp'. simpl. rewrite Htxd. simpl. by destruct i.
Qed.
End undo_round_trip.

Lemma ConnectBlock_checks_best (env : Env) (block : CBlock) (pindex : CBlockIndex)
  (pprev : option CBlockIndex) (view : CCoinsViewCache) (fJustCheck : bool) :
  ConnectBlock_checks env block pindex pprev view fJustCheck = Ok tt ->
  match pprev with None => 0 | Some p => GetIndexHash p end = GetBestBlock view.
Proof.
  unfold ConnectBlock_checks.
  destruct (assert _ "pindex->phashBlock"); try discriminate.
  cbn [mbind Result_bind bind].
  destruct (reject_if _ _ _ _); try discriminate. cbn [mbind Result_bind bind].
  destruct (CheckBlock env block fJustCheck); try discriminate.
  cbn [mbind Result_bind bind]. unfold assert.
  case_bool_decide; [done | discriminate].
Qed.

Lemma ConnectBlock_front_loop (env : Env) (block : CBlock)
  (pindex : CBlockIndex) (pprev : option CBlockIndex) (view : CCoinsViewCache)
  (tokens : TokenState env) (fJustCheck : bool) (pindex' : CBlockIndex)
  (off : OfflineStake) (acc : ConnectAcc env) :
  ConnectBlock_front env block pindex pprev view tokens fJustCheck
    = Ok (Some (pindex', off, acc)) ->
  ConnectBlock_loop env pindex' 0 (vtx block)
    {| a_view := view; a_tokens := tokens; a_nFees := 0; a_nSigOpsCost := 0;
       a_nActualStakeReward := 0; a_blockundo := []; a_vUndoTokenData := [] |}
  = Ok acc
  /\ nHeight pindex' = nHeight pindex
  /\ match pprev with None => 0 | Some p => GetIndexHash p end = GetBestBlock view.
Proof.
  unfold ConnectBlock_front.
  destruct (ConnectBlock_checks env block pindex pprev view fJustCheck) as [[] | | | |]
    eqn:Hchecks; simpl; try discriminate.
  case_bool_decide; [discriminate |].
  destruct (reject_if _ _ _ _); simpl; try discriminate.
  match goal with |- context [?k ≫= _] =>
    destruct k as [kernel | | | |] end; simpl; try discriminate.
  destruct (ConnectBlock_stake _ _ _ _ _); simpl; try discriminate.
  destruct (ConnectBlock_loop _ _ _ _ _) eqn:Hloop; simpl; try discriminate.
  intros [= <- _ <-]. split; [exact Hloop |]. split; [done |].
  by apply (ConnectBlock_checks_best env block pindex pprev view fJustCheck).
Qed.

Lemma RaiseValidity_HAVE_UNDO (e : CBlockIndex) (v : BlockValidity) :
  HAVE_UNDO (nStatus (RaiseValidity e v)) = HAVE_UNDO (nStatus e).
Proof.
  unfold RaiseValidity. destruct (FAILED_MASK (nStatus e)); [done |].
  by destruct (_ <? _).
Qed.

Lemma ConnectBlock_finish_Ok (env : Env) (block : CBlock) (pindex : CBlockIndex)
  (acc : ConnectAcc env) (c : Connected env) :
  ConnectBlock_finish env block pindex acc false = Ok c ->
  cacheCoins (c_view c) = cacheCoins (a_view acc)
  /\ c_tokens c = a_tokens acc
  /\ c_blockundo c = a_blockundo acc
  /\ c_vUndoTokenData c = a_vUndoTokenData acc
  /\ nHeight (c_pindex c) = nHeight pindex
  /\ GetUndoPos_IsNull (c_pindex c) = false.
Proof.
  unfold ConnectBlock_finish.
  match goal with |- context [?k ≫= _] =>
    match k with
    | (if GetUndoPos_IsNull pindex || _ then _ else _) =>
        destruct k as [pindex1 | | | |] eqn:Hp1
    end
  end; try discriminate. cbn [mbind Result_bind bind].
  destruct (if WriteIndexes env block then _ else _); try discriminate.
  cbn [mbind Result_bind bind].
  destruct (assert _ _); try discriminate. cbn [mbind Result_bind bind].
  intros [= <-]. simpl. repeat split; try done.
  - destruct (GetUndoPos_IsNull pindex || _); [| by injection Hp1 as <-].
    match type of Hp1 with context [?k ≫= _] =>
      destruct k as [pindex2 | | | |] eqn:Hp2 end; try discriminate.
    cbn [mbind Result_bind bind] in Hp1.
    destruct (if bool_decide _ then _ else _); try discriminate.
    cbn [mbind Result_bind bind] in Hp1. injection Hp1 as <-.
    destruct (RaiseValidity_fields pindex2 BLOCK_VALID_SCRIPTS) as (_ & -> & _).
    destruct (GetUndoPos_IsNull pindex); [| by injection Hp2 as <-].
    destruct (FindUndoPos env pindex (a_blockundo acc)); try discriminate.
    destruct (UndoWriteToDisk env (a_blockundo acc)); try discriminate.
    by injection Hp2 as <-.
  - unfold GetUndoPos_IsNull in *.
    destruct (negb (HAVE_UNDO (nStatus pindex))) eqn:Hnull; simpl in Hp1.
    + match type of Hp1 with context [?k ≫= _] =>
        destruct k as [pindex2 | | | |] eqn:Hp2 end; try discriminate.
      cbn [mbind Result_bind bind] in Hp1.
      destruct (if bool_decide _ then _ else _); try discriminate.
      cbn [mbind Result_bind bind] in Hp1. injection Hp1 as <-.
      rewrite RaiseValidity_HAVE_UNDO.
      destruct (FindUndoPos env pindex (a_blockundo acc)); try discriminate.
      destruct (UndoWriteToDisk env (a_blockundo acc)); try discriminate.
      by injection Hp2 as <-.
    + apply negb_false_iff in Hnull.
      destruct (negb (IsValid pindex BLOCK_VALID_SCRIPTS)).
      * cbn [mbind Result_bind bind] in Hp1.
        destruct (if bool_decide _ then _ else _); try discriminate.
        cbn [mbind Result_bind bind] in Hp1. injection Hp1 as <-.
        by rewrite RaiseValidity_HAVE_UNDO, Hnull.
      * injection Hp1 as <-. by rewrite Hnull.
Qed.

(** [ApplyTxInUndo] on an outpoint that holds a coin: the completed undo
    coin [u] overwrites it, unless it is unspendable, and the result is
    [DISCONNECT_UNCLEAN]. *)
Lemma ApplyTxInUndo_existing (env : Env) (undo u : Coin) (view : CCoinsViewCache)
  (tokens : TokenState env) (o : COutPoint) :
  HaveCoin view o = true ->
  (if coin_nHeight undo =? 0
   then with_metadata_of undo <$> AccessByTxid env view (op_hash o)
   else Some undo) = Some u ->
  fst (fst (ApplyTxInUndo env undo view tokens o)) = DISCONNECT_UNCLEAN
  /\ snd (fst (ApplyTxInUndo env undo view tokens o))
     = (if IsUnspendable env (scriptPubKey (out u)) then view
        else {| cacheCoins := <[o := u]> (cacheCoins view);
                hashBlock := hashBlock view |}).
Proof.
  intros Hhave Hu. unfold ApplyTxInUndo. rewrite Hhave. simpl.
  assert (Hundo' : (if coin_nHeight undo =? 0
                    then match AccessByTxid env view (op_hash o) with
                         | Some alternate => Some (with_metadata_of undo alternate)
                         | None => None
                         end
                    else Some undo) = Some u).
  { destruct (coin_nHeight undo =? 0); [| done].
    by destruct (AccessByTxid env view (op_hash o)). }
  rewrite Hundo'. unfold AddCoin.
  destruct (IsUnspendable env (scriptPubKey (out u))); simpl.
  - destruct (AreTokensDeployed env && coin_IsToken env undo); [| done].
    by destruct (UndoTokenCoin env tokens undo o).
  - destruct (AreTokensDeployed env && coin_IsToken env undo); [| done].
    by destruct (UndoTokenCoin env tokens undo o).
Qed.


Lemma demo_TokenLaws : TokenLaws demo_env.
Proof.
  split; simpl.
  - intros t o c Hc. apply negb_false_iff, Z.eqb_eq in Hc. lia.
  - intros t o c _. f_equal. lia.
  - discriminate.
  - intros t tx h v _ _. f_equal. lia.
Qed.

Lemma demo_view_spendable : view_spendable demo_env (cacheCoins demo_view).
Proof.
  intros o c Hc. unfold demo_view in Hc. simpl in Hc.
  apply lookup_insert_Some in Hc as [[_ <-] | [_ Hc]]; [done |].
  apply lookup_insert_Some in Hc as [[_ <-] | [_ Hc]]; [done |].
  by rewrite lookup_empty in Hc.
Qed.

